(** * keyboy: the chord-analysis engine

    A shallow embedding of [src/lib/chordAnalysis.ts] (the exported
    library, module [Lib]) and of the copy of the same engine that lives
    inline in the monolithic application file (module [App]), followed
    by the vocabulary of the properties and by the properties
    themselves: the null result, the literal scenarios, the scoring of
    exact matches, the frame of the post-match disambiguation, the
    spelling of the root, the dependence on the voicing and the
    agreement of the two copies.

    Conventions of the embedding:
    - a JavaScript number that holds an integer is a [Z]; the remainder
      operator [%] is [Z.rem] (sign of the dividend);
    - an array is a [list]; a [Set] is the list of its elements in
      insertion order;
    - [undefined] for an optional field or argument is [None];
    - reading a property of [undefined] throws a [TypeError]; functions
      that can reach such a read return a [Completion]. *)

From Stdlib Require Import ZArith List String Ascii Bool Lia Permutation Sorted.
From Stdlib Require Import DecimalString.
Import ListNotations.
Open Scope string_scope.
Open Scope Z_scope.

(* ================================================================= *)
(** ** The JavaScript primitives the engine uses *)
(* ================================================================= *)

Module JS.

(** Normal or abrupt completion of a call.  The only abrupt completion
    the engine can reach is the [TypeError] of a property read on
    [undefined]. *)
Inductive Completion (A : Type) : Type :=
| Normal (a : A)
| TypeError.
Arguments Normal {A} a.
Arguments TypeError {A}.

Definition bind {A B} (c : Completion A) (k : A -> Completion B) : Completion B :=
  match c with
  | Normal a => k a
  | TypeError => TypeError
  end.

(** [xs.map(f)] where [f] may throw: the first throw aborts the map. *)
Fixpoint mapM {A B} (f : A -> Completion B) (xs : list A) : Completion (list B) :=
  match xs with
  | [] => Normal []
  | x :: rest =>
      bind (f x) (fun y => bind (mapM f rest) (fun ys => Normal (y :: ys)))
  end.

(** *** Strings *)

Fixpoint skip (n : nat) (s : string) : string :=
  match n, s with
  | O, _ => s
  | S _, EmptyString => EmptyString
  | S n', String _ s' => skip n' s'
  end.

(** [s.startsWith(p)] *)
Definition startsWith (s p : string) : bool := String.prefix p s.

(** [s.includes(sub)] *)
Fixpoint includes (s sub : string) : bool :=
  String.prefix sub s ||
  match s with
  | EmptyString => false
  | String _ s' => includes s' sub
  end.

(** [s.endsWith(suf)] *)
Fixpoint endsWith (s suf : string) : bool :=
  String.eqb s suf ||
  match s with
  | EmptyString => false
  | String _ s' => endsWith s' suf
  end.

(** [s.replace(pat, rep)] with a string pattern: only the first
    occurrence is replaced. *)
Fixpoint replace (s pat rep : string) : string :=
  if String.prefix pat s then rep ++ skip (String.length pat) s
  else match s with
       | EmptyString => EmptyString
       | String c s' => String c (replace s' pat rep)
       end.

(** [xs.join(sep)] on strings *)
Fixpoint join (sep : string) (xs : list string) : string :=
  match xs with
  | [] => EmptyString
  | [x] => x
  | x :: rest => x ++ sep ++ join sep rest
  end.

(** *** Arrays and sets of numbers *)

(** [xs.includes(x)], [set.has(x)] *)
Definition has (xs : list Z) (x : Z) : bool := existsb (Z.eqb x) xs.

(** [Array.from(new Set(xs))] and [[...new Set(xs)]]: the distinct
    elements in order of first insertion. *)
Definition fromSet (xs : list Z) : list Z :=
  fold_left (fun acc x => if has acc x then acc else (acc ++ [x])%list) xs [].

(** [Math.min(x, ...rest)] with at least one argument. *)
Definition Math_min (x : Z) (rest : list Z) : Z := fold_left Z.min rest x.

(** [xs.sort(cmp)]: the sort is stable; [cmp a b <= 0] keeps [a]
    ahead of [b]. *)
Fixpoint insertBy {A} (cmp : A -> A -> Z) (x : A) (sorted : list A) : list A :=
  match sorted with
  | [] => [x]
  | y :: rest => if cmp x y <=? 0 then x :: sorted else y :: insertBy cmp x rest
  end.

Definition sort {A} (cmp : A -> A -> Z) (xs : list A) : list A :=
  fold_right (insertBy cmp) [] xs.

(** [(a, b) => a - b] *)
Definition ascending (a b : Z) : Z := a - b.

(** *** More primitives: indexing, numbers in templates, [split] *)

(** [xs[i]] for an integer [i]; [None] is [undefined]. *)
Definition index {A} (xs : list A) (i : Z) : option A :=
  if i <? 0 then None else nth_error xs (Z.to_nat i).

(** An integer inside a template literal: decimal digits, with a minus
    sign when negative. *)
Definition numberToString (n : Z) : string := NilZero.string_of_int (Z.to_int n).

(** [s.split(sep)[0]] for a one-character separator: what comes before
    the first separator. *)
Fixpoint splitFirst (sep : ascii) (s : string) : string :=
  match s with
  | EmptyString => EmptyString
  | String c s' => if Ascii.eqb c sep then EmptyString else String c (splitFirst sep s')
  end.

(** [Math.floor(a / b)] for integers and a positive [b]. *)
Definition floorDiv (a b : Z) : Z := a / b.

End JS.

Import JS.

Declare Scope js_scope.
Notation "x <- c ;; k" := (JS.bind c (fun x => k))
  (at level 61, c at next level, right associativity) : js_scope.
Open Scope js_scope.

(* ================================================================= *)
(** ** The record types ([src/types], and the interfaces declared at
       the top of the application file) *)
(* ================================================================= *)

Module ChordPattern.
Record t : Type := mk {
  name : string;
  intervals : list Z;
  priority : Z;
  allowOmit5th : option bool   (* allowOmit5th?: boolean *)
}.
(** [{ ...p, name: n }] *)
Definition with_name (p : t) (n : string) : t :=
  mk n (intervals p) (priority p) (allowOmit5th p).
(** truthiness of [p.allowOmit5th] *)
Definition omits5th (p : t) : bool :=
  match allowOmit5th p with Some b => b | None => false end.
End ChordPattern.

Module Match.
Record t : Type := mk {
  pattern : ChordPattern.t;
  root : Z;
  score : Z;
  isRootless : bool;
  isExact : bool
}.
(** [{ ...m, pattern: p }] *)
Definition with_pattern (m : t) (p : ChordPattern.t) : t :=
  mk p (root m) (score m) (isRootless m) (isExact m).
Definition name (m : t) : string := ChordPattern.name (pattern m).
(** [{ ...m, pattern: { ...m.pattern, name: n } }] *)
Definition rename (m : t) (n : string) : t :=
  with_pattern m (ChordPattern.with_name (pattern m) n).
End Match.

Module ChordAnalysis.
Record t : Type := mk {
  root : string;
  quality : string;
  bass : string;
  display : string;
  intervals : list Z;
  detectedRootPitchClass : Z;
  isRootless : option bool;           (* isRootless?: boolean *)
  actualIntervals : option (list Z)   (* actualIntervals?: number[] *)
}.
End ChordAnalysis.

Module ActualIntervalInfo.
Record t : Type := mk {
  pitchClass : Z;
  actualInterval : Z;
  midi : Z
}.
End ActualIntervalInfo.

Module TensionDisambiguation.
Record t : Type := mk {
  interval3IsSharp9 : bool;
  interval6IsSharp11 : bool;
  interval8IsSharp5 : bool
}.
End TensionDisambiguation.

Module RootSpelling.
Record t : Type := mk {
  useFlat : bool;
  scale : list string
}.
End RootSpelling.

Module NoteDetails.
Record t : Type := mk {
  note : option string;   (* [NOTES[midi % 12]], [undefined] off the table *)
  octave : Z;
  name : string;
  midi : Z
}.
End NoteDetails.

Module TensionNames.
(** One entry of [TensionSpelling]. *)
Record t : Type := mk {
  natural : string;
  sharp : string;
  flat : string
}.
End TensionNames.

(** ['natural' | 'sharp' | 'flat'] *)
Inductive TensionQuality : Type := natural | sharp | flat.

(* ================================================================= *)
(** ** The chord-analysis library ([src/lib/chordAnalysis.ts]) *)
(* ================================================================= *)

Module Lib.

(** *** Enharmonic spelling *)

Definition entry (useFlat : bool) (scale : list string) : option RootSpelling.t :=
  Some (RootSpelling.mk useFlat scale).

(** [ROOT_SPELLING[key]]; [None] is [undefined]. *)
Definition ROOT_SPELLING (key : Z) : option RootSpelling.t :=
  match key with
  | 0  => entry false ["C"; "Db"; "D"; "Eb"; "E"; "F"; "F#"; "G"; "Ab"; "A"; "Bb"; "B"]
  | 1  => entry false ["C#"; "D"; "D#"; "E"; "E#"; "F#"; "G"; "G#"; "A"; "A#"; "B"; "B#"]
  | 2  => entry false ["D"; "Eb"; "E"; "F"; "F#"; "G"; "Ab"; "A"; "Bb"; "B"; "C"; "C#"]
  | 3  => entry true  ["Eb"; "Fb"; "F"; "Gb"; "G"; "Ab"; "A"; "Bb"; "Cb"; "C"; "Db"; "D"]
  | 4  => entry false ["E"; "F"; "F#"; "G"; "G#"; "A"; "Bb"; "B"; "C"; "C#"; "D"; "D#"]
  | 5  => entry true  ["F"; "Gb"; "G"; "Ab"; "A"; "Bb"; "B"; "C"; "Db"; "D"; "Eb"; "E"]
  | 6  => entry false ["F#"; "G"; "G#"; "A"; "A#"; "B"; "C"; "C#"; "D"; "D#"; "E"; "E#"]
  | 7  => entry false ["G"; "Ab"; "A"; "Bb"; "B"; "C"; "Db"; "D"; "Eb"; "E"; "F"; "F#"]
  | 8  => entry true  ["Ab"; "A"; "Bb"; "Cb"; "C"; "Db"; "D"; "Eb"; "Fb"; "F"; "Gb"; "G"]
  | 9  => entry false ["A"; "Bb"; "B"; "C"; "C#"; "D"; "Eb"; "E"; "F"; "F#"; "G"; "G#"]
  | 10 => entry true  ["Bb"; "Cb"; "C"; "Db"; "D"; "Eb"; "Fb"; "F"; "Gb"; "G"; "Ab"; "A"]
  | 11 => entry false ["B"; "C"; "C#"; "D"; "D#"; "E"; "F"; "F#"; "G"; "G#"; "A"; "A#"]
  | _ => None
  end.

(** [ROOT_SPELLING[rootPitchClass].scale[interval]].  The first read
    throws when the root is not a key of the table; [interval] is
    within 0..11 at every call site. *)
Definition scaleEntry (rootPitchClass interval : Z) : Completion string :=
  match ROOT_SPELLING rootPitchClass with
  | None => TypeError
  | Some e => Normal (nth (Z.to_nat interval) (RootSpelling.scale e) "undefined")
  end.

Definition getRootSpelling (rootPitchClass : Z) (bassContext : option (list Z))
  : Completion string :=
  let hasSharpIndicators :=
    match bassContext with
    | None => false
    | Some ctx => has ctx 6 || has ctx 1 || has ctx 8 || has ctx 4 || has ctx 11
    end in
  let hasFlatIndicators :=
    match bassContext with
    | None => false
    | Some ctx => has ctx 10 || has ctx 3 || has ctx 5
    end in
  let inContext (p : list Z -> bool) :=
    match bassContext with None => false | Some ctx => p ctx end in
  if rootPitchClass =? 1 then
    if hasFlatIndicators && negb hasSharpIndicators then Normal "Db"
    else Normal "C#"
  else if rootPitchClass =? 3 then
    if hasSharpIndicators && negb hasFlatIndicators
       && inContext (fun ctx => has ctx 4 || has ctx 11 || has ctx 6)
    then Normal "D#"
    else Normal "Eb"
  else if rootPitchClass =? 6 then
    if hasFlatIndicators
       && inContext (fun ctx => (has ctx 1 || has ctx 8)
                                && negb (has ctx 4) && negb (has ctx 11))
    then Normal "Gb"
    else Normal "F#"
  else if rootPitchClass =? 8 then
    if hasSharpIndicators && negb hasFlatIndicators
       && inContext (fun ctx => has ctx 4 || has ctx 9 || has ctx 11)
    then Normal "G#"
    else Normal "Ab"
  else if rootPitchClass =? 10 then
    if hasSharpIndicators && negb hasFlatIndicators
       && inContext (fun ctx => has ctx 11 || has ctx 6)
    then Normal "A#"
    else Normal "Bb"
  else scaleEntry rootPitchClass 0.

Definition getChordToneSpelling (pitchClass rootPitchClass : Z) : Completion string :=
  let interval := Z.rem (Z.rem (pitchClass - rootPitchClass) 12 + 12) 12 in
  scaleEntry rootPitchClass interval.

Definition shouldPreferFlat (rootPitchClass : Z) : Completion bool :=
  match ROOT_SPELLING rootPitchClass with
  | None => TypeError
  | Some e => Normal (RootSpelling.useFlat e)
  end.

(** *** Interval calculations *)

Definition normalizeIntervals (intervals : list Z) : list Z :=
  sort ascending (fromSet (map (fun i => Z.rem (Z.rem i 12 + 12) 12) intervals)).

Definition calculateActualIntervals (sortedMidiNotes : list Z) (rootPitchClass : Z)
  : list ActualIntervalInfo.t :=
  match sortedMidiNotes with
  | [] => []
  | lowestNote :: _ =>
      let rootInstances := filter (fun n => Z.rem n 12 =? rootPitchClass) sortedMidiNotes in
      let rootMidi :=
        match rootInstances with
        | r :: rest => Math_min r rest
        | [] =>
            let lowestPitchClass := Z.rem lowestNote 12 in
            let intervalFromRoot :=
              Z.rem (Z.rem (lowestPitchClass - rootPitchClass) 12 + 12) 12 in
            lowestNote - intervalFromRoot
        end in
      map (fun midi => ActualIntervalInfo.mk (Z.rem midi 12) (midi - rootMidi) midi)
          sortedMidiNotes
  end.

Definition getActualIntervalForPitchClass
           (actualIntervals : list ActualIntervalInfo.t)
           (targetPitchClass rootPitchClass : Z) : Z :=
  let expectedMod12 := Z.rem (Z.rem (targetPitchClass - rootPitchClass) 12 + 12) 12 in
  let matches :=
    filter (fun info => ActualIntervalInfo.pitchClass info =? targetPitchClass)
           actualIntervals in
  match map ActualIntervalInfo.actualInterval matches with
  | [] => expectedMod12
  | a :: rest =>
      match find (fun m => ActualIntervalInfo.actualInterval m >? 12) matches with
      | Some compoundMatch => ActualIntervalInfo.actualInterval compoundMatch
      | None => Math_min a rest
      end
  end.

Definition disambiguateTensions
           (actualIntervals : list ActualIntervalInfo.t) (rootPitchClass : Z)
           (hasMaj3 hasMin3 has7th hasPerfect5 : bool) : TensionDisambiguation.t :=
  (* #9 vs b3 *)
  let pitchClass3 := Z.rem (rootPitchClass + 3) 12 in
  let interval3Actual :=
    getActualIntervalForPitchClass actualIntervals pitchClass3 rootPitchClass in
  let interval3IsSharp9 :=
    if interval3Actual >=? 14 then true
    else if hasMaj3 then
      let maj3PitchClass := Z.rem (rootPitchClass + 4) 12 in
      let maj3Instances :=
        filter (fun i => ActualIntervalInfo.pitchClass i =? maj3PitchClass)
               actualIntervals in
      let pc3Instances :=
        filter (fun i => ActualIntervalInfo.pitchClass i =? pitchClass3)
               actualIntervals in
      match map ActualIntervalInfo.midi maj3Instances,
            map ActualIntervalInfo.midi pc3Instances with
      | m :: ms, p :: ps =>
          let lowestMaj3 := Math_min m ms in
          let lowestPc3 := Math_min p ps in
          if lowestPc3 >? lowestMaj3 then true else false
      | _, p :: ps => if has7th then true else false
      | _, [] => false
      end
    else false in
  (* #11 vs b5 *)
  let pitchClass6 := Z.rem (rootPitchClass + 6) 12 in
  let interval6Actual :=
    getActualIntervalForPitchClass actualIntervals pitchClass6 rootPitchClass in
  let interval6IsSharp11 :=
    if interval6Actual >=? 17 then true
    else if hasPerfect5 && hasMaj3 then true
    else if has7th && hasMaj3 && negb hasPerfect5 then
      let hasMaj7 :=
        existsb (fun i =>
                   Z.rem (ActualIntervalInfo.pitchClass i - rootPitchClass + 12) 12 =? 11)
                actualIntervals in
      if hasMaj7 then true else false
    else false in
  (* #5 vs b13 *)
  let pitchClass8 := Z.rem (rootPitchClass + 8) 12 in
  let interval8Actual :=
    getActualIntervalForPitchClass actualIntervals pitchClass8 rootPitchClass in
  let interval8IsSharp5 :=
    if interval8Actual >=? 19 then false
    else if hasPerfect5 then false
    else if negb hasPerfect5 && negb has7th then true
    else false in
  TensionDisambiguation.mk interval3IsSharp9 interval6IsSharp11 interval8IsSharp5.

(** *** Chord patterns *)

Definition COMMON_EXTENSIONS : list Z := [2; 5; 9].

Definition calculateExtraNotesPenalty (extraIntervals patternIntervals : list Z) : Z :=
  let patternHas7th := existsb (fun i => (i =? 10) || (i =? 11)) patternIntervals in
  fold_left
    (fun penalty interval =>
       if has COMMON_EXTENSIONS interval
       then penalty + (if patternHas7th then 3 else 6)
       else penalty + 18)
    extraIntervals 0.

Definition CHORD_PATTERNS : list ChordPattern.t := [
  (* 13th chords *)
  ChordPattern.mk "Maj13" (normalizeIntervals [0; 4; 7; 11; 14; 21]) 65 (Some true);
  ChordPattern.mk "13" (normalizeIntervals [0; 4; 7; 10; 14; 21]) 65 (Some true);
  ChordPattern.mk "min13" (normalizeIntervals [0; 3; 7; 10; 14; 21]) 65 (Some true);
  ChordPattern.mk "13sus4" (normalizeIntervals [0; 5; 7; 10; 14; 21]) 64 (Some true);

  (* 11th chords *)
  ChordPattern.mk "Maj9#11" (normalizeIntervals [0; 4; 7; 11; 14; 18]) 62 (Some true);
  ChordPattern.mk "9#11" (normalizeIntervals [0; 4; 7; 10; 14; 18]) 62 (Some true);
  ChordPattern.mk "Maj11" (normalizeIntervals [0; 4; 7; 11; 14; 17]) 60 (Some true);
  ChordPattern.mk "11" (normalizeIntervals [0; 4; 7; 10; 14; 17]) 60 (Some true);
  ChordPattern.mk "min11" (normalizeIntervals [0; 3; 7; 10; 14; 17]) 60 (Some true);

  (* 9th chords *)
  ChordPattern.mk "Maj9" (normalizeIntervals [0; 4; 7; 11; 14]) 55 (Some true);
  ChordPattern.mk "9" (normalizeIntervals [0; 4; 7; 10; 14]) 55 (Some true);
  ChordPattern.mk "min9" (normalizeIntervals [0; 3; 7; 10; 14]) 55 (Some true);
  ChordPattern.mk "minMaj9" (normalizeIntervals [0; 3; 7; 11; 14]) 55 (Some true);
  ChordPattern.mk "9sus4" (normalizeIntervals [0; 5; 7; 10; 14]) 54 (Some true);

  (* Altered dominants with multiple alterations *)
  ChordPattern.mk "13b9" (normalizeIntervals [0; 4; 7; 10; 13; 21]) 66 (Some true);
  ChordPattern.mk "13#9" (normalizeIntervals [0; 4; 7; 10; 15; 21]) 66 (Some true);
  ChordPattern.mk "7b9#11" (normalizeIntervals [0; 4; 7; 10; 13; 18]) 58 (Some true);
  ChordPattern.mk "7#9#11" (normalizeIntervals [0; 4; 7; 10; 15; 18]) 58 (Some true);
  ChordPattern.mk "7b9b13" (normalizeIntervals [0; 4; 7; 10; 13; 20]) 58 None;
  ChordPattern.mk "7#9b13" (normalizeIntervals [0; 4; 7; 10; 15; 20]) 58 None;
  ChordPattern.mk "7alt" (normalizeIntervals [0; 4; 6; 10; 13; 15]) 59 None;

  (* Maj7 with alterations *)
  ChordPattern.mk "Maj7#9" (normalizeIntervals [0; 4; 7; 11; 15]) 56 (Some true);

  (* Altered dominants - basic *)
  ChordPattern.mk "7#9" (normalizeIntervals [0; 4; 7; 10; 15]) 54 (Some true);
  ChordPattern.mk "7b9" (normalizeIntervals [0; 4; 7; 10; 13]) 54 (Some true);
  ChordPattern.mk "7#5#9" (normalizeIntervals [0; 4; 8; 10; 15]) 56 None;
  ChordPattern.mk "7#5b9" (normalizeIntervals [0; 4; 8; 10; 13]) 56 None;
  ChordPattern.mk "7b5b9" (normalizeIntervals [0; 4; 6; 10; 13]) 56 None;
  ChordPattern.mk "7b5#9" (normalizeIntervals [0; 4; 6; 10; 15]) 56 None;
  ChordPattern.mk "7b13" (normalizeIntervals [0; 4; 7; 10; 20]) 53 None;

  (* Half-diminished extensions *)
  ChordPattern.mk "m9b5" (normalizeIntervals [0; 3; 6; 10; 14]) 56 None;
  ChordPattern.mk "m11b5" (normalizeIntervals [0; 3; 6; 10; 14; 17]) 58 None;
  ChordPattern.mk "m7b5(11)" (normalizeIntervals [0; 3; 6; 10; 17]) 54 None;

  (* #11 chords (Lydian) *)
  ChordPattern.mk "Maj7#11" (normalizeIntervals [0; 4; 7; 11; 18]) 52 (Some true);
  ChordPattern.mk "7#11" (normalizeIntervals [0; 4; 7; 10; 18]) 52 (Some true);

  (* 6/9 chords *)
  ChordPattern.mk "6/9" (normalizeIntervals [0; 4; 7; 9; 14]) 52 (Some true);
  ChordPattern.mk "min6/9" (normalizeIntervals [0; 3; 7; 9; 14]) 52 (Some true);

  (* Sus7 chords *)
  ChordPattern.mk "7sus4" [0; 5; 7; 10] 46 None;
  ChordPattern.mk "7sus2" [0; 2; 7; 10] 46 None;
  ChordPattern.mk "Maj7sus4" [0; 5; 7; 11] 46 None;
  ChordPattern.mk "Maj7sus2" [0; 2; 7; 11] 46 None;

  (* Seventh chords *)
  ChordPattern.mk "Maj7" [0; 4; 7; 11] 45 (Some true);
  ChordPattern.mk "min7" [0; 3; 7; 10] 45 (Some true);
  ChordPattern.mk "7" [0; 4; 7; 10] 45 (Some true);
  ChordPattern.mk "dim7" [0; 3; 6; 9] 45 None;
  ChordPattern.mk "m7b5" [0; 3; 6; 10] 45 None;
  ChordPattern.mk "minMaj7" [0; 3; 7; 11] 45 (Some true);
  ChordPattern.mk "Maj7#5" [0; 4; 8; 11] 46 None;
  ChordPattern.mk "7#5" [0; 4; 8; 10] 46 None;
  ChordPattern.mk "7b5" [0; 4; 6; 10] 46 None;

  (* Sixth chords *)
  ChordPattern.mk "6" [0; 4; 7; 9] 42 (Some true);
  ChordPattern.mk "min6" [0; 3; 7; 9] 42 (Some true);

  (* Add chords *)
  ChordPattern.mk "add9" (normalizeIntervals [0; 4; 7; 14]) 40 (Some true);
  ChordPattern.mk "madd9" (normalizeIntervals [0; 3; 7; 14]) 40 (Some true);
  ChordPattern.mk "add11" (normalizeIntervals [0; 4; 7; 17]) 40 (Some true);
  ChordPattern.mk "madd11" (normalizeIntervals [0; 3; 7; 17]) 40 (Some true);
  ChordPattern.mk "add#11" (normalizeIntervals [0; 4; 7; 18]) 40 None;
  ChordPattern.mk "add#9" (normalizeIntervals [0; 4; 7; 15]) 41 (Some true);
  ChordPattern.mk "madd#9" (normalizeIntervals [0; 3; 7; 15]) 41 (Some true);
  ChordPattern.mk "(add b3)" [0; 3; 4; 7] 40 None;
  ChordPattern.mk "m(add 3)" [0; 3; 4; 7] 39 None;

  (* Triads *)
  ChordPattern.mk EmptyString [0; 4; 7] 35 None;
  ChordPattern.mk "m" [0; 3; 7] 35 None;
  ChordPattern.mk "dim" [0; 3; 6] 35 None;
  ChordPattern.mk "aug" [0; 4; 8] 35 None;
  ChordPattern.mk "sus2" [0; 2; 7] 33 None;
  ChordPattern.mk "sus4" [0; 5; 7] 33 None;

  (* Lydian triad fragment *)
  ChordPattern.mk "(#11)" [0; 4; 6] 34 None;
  ChordPattern.mk "(b5)" [0; 4; 6] 33 None;

  (* Quartal voicings *)
  ChordPattern.mk "quartal" (normalizeIntervals [0; 5; 10]) 22 None;
  ChordPattern.mk "quartal4" (normalizeIntervals [0; 5; 10; 15]) 23 None;

  (* Power chord *)
  ChordPattern.mk "5" [0; 7] 20 None
].

(** *** Main analysis function *)

(** [uniquePitchClasses.map(n => (n - potentialRoot + 12) % 12).sort(...)] *)
Definition intervalsFrom (uniquePitchClasses : list Z) (potentialRoot : Z) : list Z :=
  sort ascending (map (fun n => Z.rem (n - potentialRoot + 12) 12) uniquePitchClasses).

(** Body of the inner loop over [CHORD_PATTERNS] for a root that is
    played: at most one match is pushed per pattern. *)
Definition rootedMatch (intervals intervalSet : list Z) (potentialRoot : Z)
           (pattern : ChordPattern.t) : list Match.t :=
  let patternSet := fromSet (ChordPattern.intervals pattern) in
  (* Exact match *)
  if (List.length (ChordPattern.intervals pattern) =? List.length intervals)%nat
     && forallb (has intervalSet) (ChordPattern.intervals pattern)
  then [Match.mk pattern potentialRoot
                 (ChordPattern.priority pattern * 100 + 1000) false true]
  else
    (* Superset match *)
    let allPatternPresent :=
      forallb (has intervalSet) (ChordPattern.intervals pattern) in
    if allPatternPresent then
      let extraIntervals := filter (fun i => negb (has patternSet i)) intervals in
      let penalty :=
        calculateExtraNotesPenalty extraIntervals (ChordPattern.intervals pattern) in
      [Match.mk pattern potentialRoot
                (ChordPattern.priority pattern * 100 - penalty) false false]
    else
      (* Match with omitted 5th *)
      if ChordPattern.omits5th pattern && has (ChordPattern.intervals pattern) 7 then
        let patternWithout5th :=
          filter (fun i => negb (i =? 7)) (ChordPattern.intervals pattern) in
        let allPresentWithout5th := forallb (has intervalSet) patternWithout5th in
        if allPresentWithout5th && negb (has intervalSet 7) then
          let extraIntervals :=
            filter (fun i => negb (has patternSet i) && negb (i =? 7)) intervals in
          let penalty :=
            calculateExtraNotesPenalty extraIntervals (ChordPattern.intervals pattern) in
          [Match.mk pattern potentialRoot
                    (ChordPattern.priority pattern * 100 - 15 - penalty) false false]
        else []
      else [].

(** Body of the inner loop over [CHORD_PATTERNS] for a root that is
    not played: up to two matches are pushed per pattern. *)
Definition rootlessMatch (intervals intervalSet : list Z) (potentialRoot : Z)
           (pattern : ChordPattern.t) : list Match.t :=
  if (List.length (ChordPattern.intervals pattern) <? 4)%nat then []
  else if negb (has (ChordPattern.intervals pattern) 0) then []
  else
    let patternWithoutRoot :=
      filter (fun i => negb (i =? 0)) (ChordPattern.intervals pattern) in
    let allNonRootPresent := forallb (has intervalSet) patternWithoutRoot in
    (if allNonRootPresent && (3 <=? List.length patternWithoutRoot)%nat then
       let patternWithoutRootSet := fromSet patternWithoutRoot in
       let extraIntervals :=
         filter (fun i => negb (has patternWithoutRootSet i)) intervals in
       let penalty :=
         calculateExtraNotesPenalty extraIntervals (ChordPattern.intervals pattern) in
       [Match.mk pattern potentialRoot
                 (ChordPattern.priority pattern * 80 - 50 - penalty) true false]
     else [])
    ++
    (* Rootless with omitted 5th *)
    (if ChordPattern.omits5th pattern then
       let patternWithoutRootAnd5th :=
         filter (fun i => negb (i =? 7)) patternWithoutRoot in
       let allNonRootNo5thPresent :=
         forallb (has intervalSet) patternWithoutRootAnd5th in
       if allNonRootNo5thPresent && negb (has intervalSet 7)
          && (2 <=? List.length patternWithoutRootAnd5th)%nat then
         let patternSet := fromSet patternWithoutRootAnd5th in
         let extraIntervals := filter (fun i => negb (has patternSet i)) intervals in
         let penalty :=
           calculateExtraNotesPenalty extraIntervals (ChordPattern.intervals pattern) in
         [Match.mk pattern potentialRoot
                   (ChordPattern.priority pattern * 70 - 80 - penalty) true false]
       else []
     else [])%list.

(** The first loop: each pitch class in the chord as potential root. *)
Definition rootedMatches (uniquePitchClasses : list Z) : list Match.t :=
  flat_map
    (fun potentialRoot =>
       let intervals := intervalsFrom uniquePitchClasses potentialRoot in
       let intervalSet := fromSet intervals in
       flat_map (rootedMatch intervals intervalSet potentialRoot) CHORD_PATTERNS)
    uniquePitchClasses.

(** The second loop: [for (potentialRoot = 0; potentialRoot < 12; potentialRoot++)]. *)
Definition rootlessMatches (uniquePitchClasses : list Z) : list Match.t :=
  flat_map
    (fun potentialRoot =>
       if has uniquePitchClasses potentialRoot then []
       else
         let intervals := intervalsFrom uniquePitchClasses potentialRoot in
         let intervalSet := fromSet intervals in
         flat_map (rootlessMatch intervals intervalSet potentialRoot) CHORD_PATTERNS)
    [0; 1; 2; 3; 4; 5; 6; 7; 8; 9; 10; 11].

(** The array [matches] when both loops are done. *)
Definition generateMatches (uniquePitchClasses : list Z) : list Match.t :=
  (rootedMatches uniquePitchClasses ++ rootlessMatches uniquePitchClasses)%list.

(** [(a, b) => b.score - a.score] *)
Definition byScoreDescending (a b : Match.t) : Z := Match.score b - Match.score a.

(** The block "#9 vs b3 disambiguation" of [analyzeChord]. *)
Definition resolveSharp9 (matches : list Match.t) (hasMin3 hasMaj3 : bool)
           (tensionInfo : TensionDisambiguation.t) (best : Match.t) : Match.t :=
  if hasMin3 && hasMaj3 then
    if TensionDisambiguation.interval3IsSharp9 tensionInfo then
      let sharp9Match :=
        find (fun m => includes (Match.name m) "#9"
                       && (Match.root m =? Match.root best)
                       && (Match.score m >? Match.score best - 150))
             matches in
      match sharp9Match, negb (includes (Match.name best) "#9") with
      | Some m, true => m
      | _, _ =>
          if negb (includes (Match.name best) "#9")
             && negb (includes (Match.name best) "m") then
            if String.eqb (Match.name best) EmptyString
               || startsWith (Match.name best) "add"
               || startsWith (Match.name best) "Maj"
               || String.eqb (Match.name best) "7" then
              let originalPattern := Match.pattern best in
              let newName := ChordPattern.name originalPattern in
              let newName :=
                if String.eqb newName EmptyString then "add#9"
                else if negb (includes newName "#9") then newName ++ "(#9)"
                else newName in
              Match.with_pattern best (ChordPattern.with_name originalPattern newName)
            else best
          else best
      end
    else
      if includes (Match.name best) "#9" then
        if negb (includes (Match.name best) "7") then
          let clusterMatch :=
            find (fun m => (String.eqb (Match.name m) "(add b3)"
                            || String.eqb (Match.name m) "m(add 3)")
                           && (Match.root m =? Match.root best))
                 matches in
          match clusterMatch with
          | Some m => m
          | None =>
              let originalPattern := Match.pattern best in
              let newName :=
                replace (replace (replace (ChordPattern.name originalPattern)
                                          "#9" "b3")
                                 "add" "(add ")
                        "madd" "m(add " in
              let newName :=
                if includes newName "(add " && negb (endsWith newName ")")
                then newName ++ ")" else newName in
              Match.with_pattern best (ChordPattern.with_name originalPattern newName)
          end
        else
          let originalPattern := Match.pattern best in
          let newName := replace (ChordPattern.name originalPattern) "#9" "(add b3)" in
          Match.with_pattern best (ChordPattern.with_name originalPattern newName)
      else best
  else best.

(** The block "#11 vs b5 disambiguation" of [analyzeChord]. *)
Definition resolveSharp11 (matches : list Match.t) (hasTritone hasNatural5 : bool)
           (tensionInfo : TensionDisambiguation.t) (best : Match.t) : Match.t :=
  if hasTritone then
    if TensionDisambiguation.interval6IsSharp11 tensionInfo then
      let sharp11Match :=
        find (fun m => includes (Match.name m) "#11"
                       && (Match.root m =? Match.root best)
                       && (Match.score m >? Match.score best - 150))
             matches in
      match sharp11Match, negb (includes (Match.name best) "#11") with
      | Some m, true => m
      | _, _ =>
          if includes (Match.name best) "b5" then
            let originalPattern := Match.pattern best in
            Match.with_pattern best
              (ChordPattern.with_name originalPattern
                 (replace (ChordPattern.name originalPattern) "b5" "#11"))
          else if String.eqb (Match.name best) "(b5)" then
            let sharp11Fragment :=
              find (fun m => String.eqb (Match.name m) "(#11)"
                             && (Match.root m =? Match.root best))
                   matches in
            match sharp11Fragment with
            | Some m => m
            | None => best
            end
          else best
      end
    else
      if String.eqb (Match.name best) "(#11)" then
        let b5Fragment :=
          find (fun m => String.eqb (Match.name m) "(b5)"
                         && (Match.root m =? Match.root best))
               matches in
        match b5Fragment with
        | Some m => m
        | None =>
            Match.with_pattern best (ChordPattern.with_name (Match.pattern best) "(b5)")
        end
      else if includes (Match.name best) "#11" && negb hasNatural5 then
        let b5Match :=
          find (fun m => includes (Match.name m) "b5"
                         && (Match.root m =? Match.root best)
                         && (Match.score m >? Match.score best - 150))
               matches in
        match b5Match with
        | Some m => m
        | None =>
            let originalPattern := Match.pattern best in
            Match.with_pattern best
              (ChordPattern.with_name originalPattern
                 (replace (ChordPattern.name originalPattern) "#11" "b5"))
        end
      else best
  else best.

(** The block "#5 vs b13 disambiguation" of [analyzeChord]. *)
Definition resolveFlat13 (matches : list Match.t)
           (hasPitchClass8 hasNatural5 has7th : bool) (best : Match.t) : Match.t :=
  if hasPitchClass8 && hasNatural5 && has7th then
    if includes (Match.name best) "#5" && negb (includes (Match.name best) "aug") then
      let b13Match :=
        find (fun m => includes (Match.name m) "b13"
                       && (Match.root m =? Match.root best)
                       && (Match.score m >? Match.score best - 150))
             matches in
      match b13Match with
      | Some m => m
      | None => best
      end
    else best
  else best.

(** From [let best = matches[0]] to the end of the #5/b13 block:
    [matches] is the sorted array, [best] its first element.  The
    result is the final [best] with the [actualIntervals] computed on
    the way. *)
Definition disambiguate (sorted uniquePitchClasses : list Z)
           (matches : list Match.t) (best : Match.t)
  : Match.t * list ActualIntervalInfo.t :=
  let actualIntervals := calculateActualIntervals sorted (Match.root best) in
  let candidateIntervals :=
    map (fun n => Z.rem (n - Match.root best + 12) 12) uniquePitchClasses in
  let hasMaj3 := has candidateIntervals 4 in
  let hasMin3 := has candidateIntervals 3 in
  let hasMaj7 := has candidateIntervals 11 in
  let hasDom7 := has candidateIntervals 10 in
  let has7th := hasMaj7 || hasDom7 in
  let hasTritone := has candidateIntervals 6 in
  let hasNatural5 := has candidateIntervals 7 in
  let hasPitchClass8 := has candidateIntervals 8 in
  let tensionInfo :=
    disambiguateTensions actualIntervals (Match.root best)
                         hasMaj3 hasMin3 has7th hasNatural5 in
  let best := resolveSharp9 matches hasMin3 hasMaj3 tensionInfo best in
  let best := resolveSharp11 matches hasTritone hasNatural5 tensionInfo best in
  let best := resolveFlat13 matches hasPitchClass8 hasNatural5 has7th best in
  (best, actualIntervals).

(** The final [return { ... }] of [analyzeChord]. *)
Definition assemble (uniquePitchClasses : list Z) (bassPitchClass : Z)
           (best : Match.t) (actualIntervals : list ActualIntervalInfo.t)
  : Completion (option ChordAnalysis.t) :=
  rootName <- getRootSpelling (Match.root best) (Some uniquePitchClasses) ;;
  bassName <- getChordToneSpelling bassPitchClass (Match.root best) ;;
  let isInversion :=
    negb (Match.root best =? bassPitchClass) && negb (Match.isRootless best) in
  let displayName := rootName ++ Match.name best in
  let displayName :=
    if Match.isRootless best then displayName ++ " (rootless)" else displayName in
  let displayName :=
    if isInversion then displayName ++ "/" ++ bassName else displayName in
  let actualIntervalsArray := map ActualIntervalInfo.actualInterval actualIntervals in
  Normal (Some (ChordAnalysis.mk
                  rootName
                  (Match.name best)
                  bassName
                  displayName
                  (ChordPattern.intervals (Match.pattern best))
                  (Match.root best)
                  (Some (Match.isRootless best))
                  (Some actualIntervalsArray))).

(** The [if (matches.length === 0) { ... }] fallback. *)
Definition fallback (sorted uniquePitchClasses : list Z) (bassPitchClass : Z)
  : Completion (option ChordAnalysis.t) :=
  bassRootName <- getRootSpelling bassPitchClass (Some uniquePitchClasses) ;;
  tones <- mapM (fun n => getChordToneSpelling (Z.rem n 12) bassPitchClass) sorted ;;
  Normal (Some (ChordAnalysis.mk
                  bassRootName
                  EmptyString
                  bassRootName
                  (join " " tones)
                  (sort ascending
                        (map (fun n => Z.rem (n - bassPitchClass + 12) 12)
                             uniquePitchClasses))
                  bassPitchClass
                  None
                  None)).

(** [Array.from(new Set(sorted.map(n => n % 12))).sort((a, b) => a - b)] *)
Definition pitchClassesOf (sorted : list Z) : list Z :=
  sort ascending (fromSet (map (fun n => Z.rem n 12) sorted)).

(** [Normal None] is the [null] result. *)
Definition analyzeChord (activeNotes : list Z) : Completion (option ChordAnalysis.t) :=
  if (List.length activeNotes <? 1)%nat then Normal None
  else
    let sorted := sort ascending activeNotes in
    let bassMidi := hd 0 sorted in  (* sorted[0]; [sorted] is not empty here *)
    let bassPitchClass := Z.rem bassMidi 12 in
    let uniquePitchClasses := pitchClassesOf sorted in
    let matches := generateMatches uniquePitchClasses in
    if (List.length matches =? 0)%nat then
      fallback sorted uniquePitchClasses bassPitchClass
    else
      let matches := sort byScoreDescending matches in
      match matches with
      | [] => TypeError   (* [matches[0]] undefined: [best.root] would throw *)
      | best :: _ =>
          let '(best, actualIntervals) :=
            disambiguate sorted uniquePitchClasses matches best in
          assemble uniquePitchClasses bassPitchClass best actualIntervals
      end.

(** *** Note details, note names and tension spelling *)

Definition NOTES : list string :=
  ["C"; "C#"; "D"; "D#"; "E"; "F"; "F#"; "G"; "G#"; "A"; "A#"; "B"].

Definition NOTES_FLAT : list string :=
  ["C"; "Db"; "D"; "Eb"; "E"; "F"; "Gb"; "G"; "Ab"; "A"; "Bb"; "B"].

Definition INTERVALS : list string :=
  ["Root"; "min 2nd"; "Maj 2nd"; "min 3rd"; "Maj 3rd"; "Perf 4th";
   "Tritone"; "Perf 5th"; "min 6th"; "Maj 6th"; "min 7th"; "Maj 7th"].

(** A value that may be [undefined], inside a template literal. *)
Definition template (v : option string) : string :=
  match v with Some s => s | None => "undefined" end.

Definition getNoteDetails (midi : Z) : NoteDetails.t :=
  let note := index NOTES (Z.rem midi 12) in
  let octave := floorDiv midi 12 - 1 in
  NoteDetails.mk note octave (template note ++ numberToString octave) midi.

(** [preferFlat] defaults to [false] when it is not given. *)
Definition getNoteName (pitchClass : Z) (preferFlat : option bool) : option string :=
  let preferFlat := match preferFlat with Some b => b | None => false end in
  if preferFlat then index NOTES_FLAT pitchClass else index NOTES pitchClass.

(** [scaleDegree] is 2, 5 or 7 at every call site. *)
Definition getSharpSpelling (rootPitchClass scaleDegree : Z) : Completion string :=
  baseNote <- scaleEntry rootPitchClass scaleDegree ;;
  if includes baseNote "b" then Normal (replace baseNote "b" EmptyString)
  else if includes baseNote "#" then Normal (baseNote ++ "#")
  else Normal (baseNote ++ "#").

(** The object [spellings]: its keys are 1, 3, 6 and 8. *)
Definition getTensionSpellings (rootPitchClass : Z)
  : Completion (Z -> option TensionNames.t) :=
  s1 <- scaleEntry rootPitchClass 1 ;;
  s3 <- scaleEntry rootPitchClass 3 ;;
  sharp9 <- getSharpSpelling rootPitchClass 2 ;;
  s6 <- scaleEntry rootPitchClass 6 ;;
  sharp11 <- getSharpSpelling rootPitchClass 5 ;;
  s8 <- scaleEntry rootPitchClass 8 ;;
  sharp5 <- getSharpSpelling rootPitchClass 7 ;;
  Normal (fun interval =>
            match interval with
            | 1 => Some (TensionNames.mk s1 s1 s1)
            | 3 => Some (TensionNames.mk s3 sharp9 s3)
            | 6 => Some (TensionNames.mk s6 sharp11 s6)
            | 8 => Some (TensionNames.mk s8 sharp5 s8)
            | _ => None
            end).

(** [actualInterval] is [None] when the argument is [undefined]. *)
Definition getTensionQuality (patternName : string) (interval : Z)
           (actualInterval : option Z) : TensionQuality :=
  let fallback :=
    if interval =? 3 then
      if includes patternName "#9" then sharp else natural
    else if interval =? 6 then
      if includes patternName "#11" then sharp
      else if includes patternName "b5" then flat
      else natural
    else if interval =? 8 then
      if includes patternName "#5" || includes patternName "aug" then sharp
      else if includes patternName "b13" then flat
      else natural
    else if interval =? 1 then flat
    else natural in
  match actualInterval with
  | Some actualInterval =>
      if interval =? 3 then
        if actualInterval >=? 14 then sharp
        else if includes patternName "#9" then sharp
        else natural
      else if interval =? 6 then
        if actualInterval >=? 17 then sharp
        else if includes patternName "#11" then sharp
        else if includes patternName "b5" then flat
        else flat
      else if interval =? 8 then
        if actualInterval >=? 19 then flat
        else if includes patternName "b13" then flat
        else if includes patternName "#5" || includes patternName "aug" then sharp
        else sharp
      else fallback
  | None => fallback
  end.

(** [spellings[interval][quality]] *)
Definition tensionName (names : TensionNames.t) (quality : TensionQuality) : string :=
  match quality with
  | natural => TensionNames.natural names
  | sharp => TensionNames.sharp names
  | flat => TensionNames.flat names
  end.

Definition getChordToneWithTension (pitchClass rootPitchClass : Z)
           (patternName : string) (actualInterval : option Z) : Completion string :=
  let interval := Z.rem (Z.rem (pitchClass - rootPitchClass) 12 + 12) 12 in
  if negb (has [1; 3; 6; 8] interval) then scaleEntry rootPitchClass interval
  else
    let quality := getTensionQuality patternName interval actualInterval in
    spellings <- getTensionSpellings rootPitchClass ;;
    match spellings interval with
    | Some names => Normal (tensionName names quality)
    | None => scaleEntry rootPitchClass interval
    end.

End Lib.

(* ================================================================= *)
(** ** The engine as it is written inline in the monolithic application
       file (the helpers above [MidiApp]) *)
(* ================================================================= *)

Module App.

(** *** Enharmonic spelling *)

Definition entry (useFlat : bool) (scale : list string) : option RootSpelling.t :=
  Some (RootSpelling.mk useFlat scale).

(** [ROOT_SPELLING[key]]; [None] is [undefined]. *)
Definition ROOT_SPELLING (key : Z) : option RootSpelling.t :=
  match key with
  | 0  => entry false ["C"; "Db"; "D"; "Eb"; "E"; "F"; "F#"; "G"; "Ab"; "A"; "Bb"; "B"]
  | 1  => entry false ["C#"; "D"; "D#"; "E"; "E#"; "F#"; "G"; "G#"; "A"; "A#"; "B"; "B#"]
  | 2  => entry false ["D"; "Eb"; "E"; "F"; "F#"; "G"; "Ab"; "A"; "Bb"; "B"; "C"; "C#"]
  | 3  => entry true  ["Eb"; "Fb"; "F"; "Gb"; "G"; "Ab"; "A"; "Bb"; "Cb"; "C"; "Db"; "D"]
  | 4  => entry false ["E"; "F"; "F#"; "G"; "G#"; "A"; "Bb"; "B"; "C"; "C#"; "D"; "D#"]
  | 5  => entry true  ["F"; "Gb"; "G"; "Ab"; "A"; "Bb"; "B"; "C"; "Db"; "D"; "Eb"; "E"]
  | 6  => entry false ["F#"; "G"; "G#"; "A"; "A#"; "B"; "C"; "C#"; "D"; "D#"; "E"; "E#"]
  | 7  => entry false ["G"; "Ab"; "A"; "Bb"; "B"; "C"; "Db"; "D"; "Eb"; "E"; "F"; "F#"]
  | 8  => entry true  ["Ab"; "A"; "Bb"; "Cb"; "C"; "Db"; "D"; "Eb"; "Fb"; "F"; "Gb"; "G"]
  | 9  => entry false ["A"; "Bb"; "B"; "C"; "C#"; "D"; "Eb"; "E"; "F"; "F#"; "G"; "G#"]
  | 10 => entry true  ["Bb"; "Cb"; "C"; "Db"; "D"; "Eb"; "Fb"; "F"; "Gb"; "G"; "Ab"; "A"]
  | 11 => entry false ["B"; "C"; "C#"; "D"; "D#"; "E"; "F"; "F#"; "G"; "G#"; "A"; "A#"]
  | _ => None
  end.

(** [ROOT_SPELLING[rootPitchClass].scale[interval]].  The first read
    throws when the root is not a key of the table; [interval] is
    within 0..11 at every call site. *)
Definition scaleEntry (rootPitchClass interval : Z) : Completion string :=
  match ROOT_SPELLING rootPitchClass with
  | None => TypeError
  | Some e => Normal (nth (Z.to_nat interval) (RootSpelling.scale e) "undefined")
  end.

Definition getRootSpelling (rootPitchClass : Z) (bassContext : option (list Z))
  : Completion string :=
  let hasSharpIndicators :=
    match bassContext with
    | None => false
    | Some ctx => has ctx 6 || has ctx 1 || has ctx 8 || has ctx 4 || has ctx 11
    end in
  let hasFlatIndicators :=
    match bassContext with
    | None => false
    | Some ctx => has ctx 10 || has ctx 3 || has ctx 5
    end in
  let inContext (p : list Z -> bool) :=
    match bassContext with None => false | Some ctx => p ctx end in
  if rootPitchClass =? 1 then
    if hasFlatIndicators && negb hasSharpIndicators then Normal "Db"
    else Normal "C#"
  else if rootPitchClass =? 3 then
    if hasSharpIndicators && negb hasFlatIndicators
       && inContext (fun ctx => has ctx 4 || has ctx 11 || has ctx 6)
    then Normal "D#"
    else Normal "Eb"
  else if rootPitchClass =? 6 then
    if hasFlatIndicators
       && inContext (fun ctx => (has ctx 1 || has ctx 8)
                                && negb (has ctx 4) && negb (has ctx 11))
    then Normal "Gb"
    else Normal "F#"
  else if rootPitchClass =? 8 then
    if hasSharpIndicators && negb hasFlatIndicators
       && inContext (fun ctx => has ctx 4 || has ctx 9 || has ctx 11)
    then Normal "G#"
    else Normal "Ab"
  else if rootPitchClass =? 10 then
    if hasSharpIndicators && negb hasFlatIndicators
       && inContext (fun ctx => has ctx 11 || has ctx 6)
    then Normal "A#"
    else Normal "Bb"
  else scaleEntry rootPitchClass 0.

Definition getChordToneSpelling (pitchClass rootPitchClass : Z) : Completion string :=
  let interval := Z.rem (Z.rem (pitchClass - rootPitchClass) 12 + 12) 12 in
  scaleEntry rootPitchClass interval.

Definition shouldPreferFlat (rootPitchClass : Z) : Completion bool :=
  match ROOT_SPELLING rootPitchClass with
  | None => TypeError
  | Some e => Normal (RootSpelling.useFlat e)
  end.

(** *** Interval calculations *)

Definition normalizeIntervals (intervals : list Z) : list Z :=
  sort ascending (fromSet (map (fun i => Z.rem (Z.rem i 12 + 12) 12) intervals)).

Definition calculateActualIntervals (sortedMidiNotes : list Z) (rootPitchClass : Z)
  : list ActualIntervalInfo.t :=
  match sortedMidiNotes with
  | [] => []
  | lowestNote :: _ =>
      let rootInstances := filter (fun n => Z.rem n 12 =? rootPitchClass) sortedMidiNotes in
      let rootMidi :=
        match rootInstances with
        | r :: rest => Math_min r rest
        | [] =>
            let lowestPitchClass := Z.rem lowestNote 12 in
            let intervalFromRoot :=
              Z.rem (Z.rem (lowestPitchClass - rootPitchClass) 12 + 12) 12 in
            lowestNote - intervalFromRoot
        end in
      map (fun midi => ActualIntervalInfo.mk (Z.rem midi 12) (midi - rootMidi) midi)
          sortedMidiNotes
  end.

Definition getActualIntervalForPitchClass
           (actualIntervals : list ActualIntervalInfo.t)
           (targetPitchClass rootPitchClass : Z) : Z :=
  let expectedMod12 := Z.rem (Z.rem (targetPitchClass - rootPitchClass) 12 + 12) 12 in
  let matches :=
    filter (fun info => ActualIntervalInfo.pitchClass info =? targetPitchClass)
           actualIntervals in
  match map ActualIntervalInfo.actualInterval matches with
  | [] => expectedMod12
  | a :: rest =>
      match find (fun m => ActualIntervalInfo.actualInterval m >? 12) matches with
      | Some compoundMatch => ActualIntervalInfo.actualInterval compoundMatch
      | None => Math_min a rest
      end
  end.

Definition disambiguateTensions
           (actualIntervals : list ActualIntervalInfo.t) (rootPitchClass : Z)
           (hasMaj3 hasMin3 has7th hasPerfect5 : bool) : TensionDisambiguation.t :=
  (* #9 vs b3 *)
  let pitchClass3 := Z.rem (rootPitchClass + 3) 12 in
  let interval3Actual :=
    getActualIntervalForPitchClass actualIntervals pitchClass3 rootPitchClass in
  let interval3IsSharp9 :=
    if interval3Actual >=? 14 then true
    else if hasMaj3 then
      let maj3PitchClass := Z.rem (rootPitchClass + 4) 12 in
      let maj3Instances :=
        filter (fun i => ActualIntervalInfo.pitchClass i =? maj3PitchClass)
               actualIntervals in
      let pc3Instances :=
        filter (fun i => ActualIntervalInfo.pitchClass i =? pitchClass3)
               actualIntervals in
      match map ActualIntervalInfo.midi maj3Instances,
            map ActualIntervalInfo.midi pc3Instances with
      | m :: ms, p :: ps =>
          let lowestMaj3 := Math_min m ms in
          let lowestPc3 := Math_min p ps in
          if lowestPc3 >? lowestMaj3 then true else false
      | _, p :: ps => if has7th then true else false
      | _, [] => false
      end
    else false in
  (* #11 vs b5 *)
  let pitchClass6 := Z.rem (rootPitchClass + 6) 12 in
  let interval6Actual :=
    getActualIntervalForPitchClass actualIntervals pitchClass6 rootPitchClass in
  let interval6IsSharp11 :=
    if interval6Actual >=? 17 then true
    else if hasPerfect5 && hasMaj3 then true
    else if has7th && hasMaj3 && negb hasPerfect5 then
      let hasMaj7 :=
        existsb (fun i =>
                   Z.rem (ActualIntervalInfo.pitchClass i - rootPitchClass + 12) 12 =? 11)
                actualIntervals in
      if hasMaj7 then true else false
    else false in
  (* #5 vs b13 *)
  let pitchClass8 := Z.rem (rootPitchClass + 8) 12 in
  let interval8Actual :=
    getActualIntervalForPitchClass actualIntervals pitchClass8 rootPitchClass in
  let interval8IsSharp5 :=
    if interval8Actual >=? 19 then false
    else if hasPerfect5 then false
    else if negb hasPerfect5 && negb has7th then true
    else false in
  TensionDisambiguation.mk interval3IsSharp9 interval6IsSharp11 interval8IsSharp5.

(** *** Chord patterns *)

Definition COMMON_EXTENSIONS : list Z := [2; 5; 9].

Definition calculateExtraNotesPenalty (extraIntervals patternIntervals : list Z) : Z :=
  let patternHas7th := existsb (fun i => (i =? 10) || (i =? 11)) patternIntervals in
  fold_left
    (fun penalty interval =>
       if has COMMON_EXTENSIONS interval
       then penalty + (if patternHas7th then 3 else 6)
       else penalty + 18)
    extraIntervals 0.

Definition CHORD_PATTERNS : list ChordPattern.t := [
  ChordPattern.mk "Maj13" (normalizeIntervals [0; 4; 7; 11; 14; 21]) 65 (Some true);
  ChordPattern.mk "13" (normalizeIntervals [0; 4; 7; 10; 14; 21]) 65 (Some true);
  ChordPattern.mk "min13" (normalizeIntervals [0; 3; 7; 10; 14; 21]) 65 (Some true);
  ChordPattern.mk "13sus4" (normalizeIntervals [0; 5; 7; 10; 14; 21]) 64 (Some true);

  ChordPattern.mk "Maj9#11" (normalizeIntervals [0; 4; 7; 11; 14; 18]) 62 (Some true);
  ChordPattern.mk "9#11" (normalizeIntervals [0; 4; 7; 10; 14; 18]) 62 (Some true);
  ChordPattern.mk "Maj11" (normalizeIntervals [0; 4; 7; 11; 14; 17]) 60 (Some true);
  ChordPattern.mk "11" (normalizeIntervals [0; 4; 7; 10; 14; 17]) 60 (Some true);
  ChordPattern.mk "min11" (normalizeIntervals [0; 3; 7; 10; 14; 17]) 60 (Some true);

  ChordPattern.mk "Maj9" (normalizeIntervals [0; 4; 7; 11; 14]) 55 (Some true);
  ChordPattern.mk "9" (normalizeIntervals [0; 4; 7; 10; 14]) 55 (Some true);
  ChordPattern.mk "min9" (normalizeIntervals [0; 3; 7; 10; 14]) 55 (Some true);
  ChordPattern.mk "minMaj9" (normalizeIntervals [0; 3; 7; 11; 14]) 55 (Some true);
  ChordPattern.mk "9sus4" (normalizeIntervals [0; 5; 7; 10; 14]) 54 (Some true);

  ChordPattern.mk "13b9" (normalizeIntervals [0; 4; 7; 10; 13; 21]) 66 (Some true);
  ChordPattern.mk "13#9" (normalizeIntervals [0; 4; 7; 10; 15; 21]) 66 (Some true);
  ChordPattern.mk "7b9#11" (normalizeIntervals [0; 4; 7; 10; 13; 18]) 58 (Some true);
  ChordPattern.mk "7#9#11" (normalizeIntervals [0; 4; 7; 10; 15; 18]) 58 (Some true);
  ChordPattern.mk "7b9b13" (normalizeIntervals [0; 4; 7; 10; 13; 20]) 58 None;
  ChordPattern.mk "7#9b13" (normalizeIntervals [0; 4; 7; 10; 15; 20]) 58 None;
  ChordPattern.mk "7alt" (normalizeIntervals [0; 4; 6; 10; 13; 15]) 59 None;

  ChordPattern.mk "Maj7#9" (normalizeIntervals [0; 4; 7; 11; 15]) 56 (Some true);

  ChordPattern.mk "7#9" (normalizeIntervals [0; 4; 7; 10; 15]) 54 (Some true);
  ChordPattern.mk "7b9" (normalizeIntervals [0; 4; 7; 10; 13]) 54 (Some true);
  ChordPattern.mk "7#5#9" (normalizeIntervals [0; 4; 8; 10; 15]) 56 None;
  ChordPattern.mk "7#5b9" (normalizeIntervals [0; 4; 8; 10; 13]) 56 None;
  ChordPattern.mk "7b5b9" (normalizeIntervals [0; 4; 6; 10; 13]) 56 None;
  ChordPattern.mk "7b5#9" (normalizeIntervals [0; 4; 6; 10; 15]) 56 None;
  ChordPattern.mk "7b13" (normalizeIntervals [0; 4; 7; 10; 20]) 53 None;

  ChordPattern.mk "m9b5" (normalizeIntervals [0; 3; 6; 10; 14]) 56 None;
  ChordPattern.mk "m11b5" (normalizeIntervals [0; 3; 6; 10; 14; 17]) 58 None;
  ChordPattern.mk "m7b5(11)" (normalizeIntervals [0; 3; 6; 10; 17]) 54 None;

  ChordPattern.mk "Maj7#11" (normalizeIntervals [0; 4; 7; 11; 18]) 52 (Some true);
  ChordPattern.mk "7#11" (normalizeIntervals [0; 4; 7; 10; 18]) 52 (Some true);

  ChordPattern.mk "6/9" (normalizeIntervals [0; 4; 7; 9; 14]) 52 (Some true);
  ChordPattern.mk "min6/9" (normalizeIntervals [0; 3; 7; 9; 14]) 52 (Some true);

  ChordPattern.mk "7sus4" [0; 5; 7; 10] 46 None;
  ChordPattern.mk "7sus2" [0; 2; 7; 10] 46 None;
  ChordPattern.mk "Maj7sus4" [0; 5; 7; 11] 46 None;
  ChordPattern.mk "Maj7sus2" [0; 2; 7; 11] 46 None;

  ChordPattern.mk "Maj7" [0; 4; 7; 11] 45 (Some true);
  ChordPattern.mk "min7" [0; 3; 7; 10] 45 (Some true);
  ChordPattern.mk "7" [0; 4; 7; 10] 45 (Some true);
  ChordPattern.mk "dim7" [0; 3; 6; 9] 45 None;
  ChordPattern.mk "m7b5" [0; 3; 6; 10] 45 None;
  ChordPattern.mk "minMaj7" [0; 3; 7; 11] 45 (Some true);
  ChordPattern.mk "Maj7#5" [0; 4; 8; 11] 46 None;
  ChordPattern.mk "7#5" [0; 4; 8; 10] 46 None;
  ChordPattern.mk "7b5" [0; 4; 6; 10] 46 None;

  ChordPattern.mk "6" [0; 4; 7; 9] 42 (Some true);
  ChordPattern.mk "min6" [0; 3; 7; 9] 42 (Some true);

  ChordPattern.mk "add9" (normalizeIntervals [0; 4; 7; 14]) 40 (Some true);
  ChordPattern.mk "madd9" (normalizeIntervals [0; 3; 7; 14]) 40 (Some true);
  ChordPattern.mk "add11" (normalizeIntervals [0; 4; 7; 17]) 40 (Some true);
  ChordPattern.mk "madd11" (normalizeIntervals [0; 3; 7; 17]) 40 (Some true);
  ChordPattern.mk "add#11" (normalizeIntervals [0; 4; 7; 18]) 40 None;
  ChordPattern.mk "add#9" (normalizeIntervals [0; 4; 7; 15]) 41 (Some true);
  ChordPattern.mk "madd#9" (normalizeIntervals [0; 3; 7; 15]) 41 (Some true);
  ChordPattern.mk "(add b3)" [0; 3; 4; 7] 40 None;
  ChordPattern.mk "m(add 3)" [0; 3; 4; 7] 39 None;

  ChordPattern.mk EmptyString [0; 4; 7] 35 None;
  ChordPattern.mk "m" [0; 3; 7] 35 None;
  ChordPattern.mk "dim" [0; 3; 6] 35 None;
  ChordPattern.mk "aug" [0; 4; 8] 35 None;
  ChordPattern.mk "sus2" [0; 2; 7] 33 None;
  ChordPattern.mk "sus4" [0; 5; 7] 33 None;

  ChordPattern.mk "(#11)" [0; 4; 6] 34 None;
  ChordPattern.mk "(b5)" [0; 4; 6] 33 None;

  ChordPattern.mk "quartal" (normalizeIntervals [0; 5; 10]) 22 None;
  ChordPattern.mk "quartal4" (normalizeIntervals [0; 5; 10; 15]) 23 None;

  ChordPattern.mk "5" [0; 7] 20 None
].

(** *** Main analysis function *)

(** [uniquePitchClasses.map(n => (n - potentialRoot + 12) % 12).sort(...)] *)
Definition intervalsFrom (uniquePitchClasses : list Z) (potentialRoot : Z) : list Z :=
  sort ascending (map (fun n => Z.rem (n - potentialRoot + 12) 12) uniquePitchClasses).

(** Body of the inner loop over [CHORD_PATTERNS] for a root that is
    played: at most one match is pushed per pattern. *)
Definition rootedMatch (intervals intervalSet : list Z) (potentialRoot : Z)
           (pattern : ChordPattern.t) : list Match.t :=
  let patternSet := fromSet (ChordPattern.intervals pattern) in
  (* Exact match *)
  if (List.length (ChordPattern.intervals pattern) =? List.length intervals)%nat
     && forallb (has intervalSet) (ChordPattern.intervals pattern)
  then [Match.mk pattern potentialRoot
                 (ChordPattern.priority pattern * 100 + 1000) false true]
  else
    (* Superset match *)
    let allPatternPresent :=
      forallb (has intervalSet) (ChordPattern.intervals pattern) in
    if allPatternPresent then
      let extraIntervals := filter (fun i => negb (has patternSet i)) intervals in
      let penalty :=
        calculateExtraNotesPenalty extraIntervals (ChordPattern.intervals pattern) in
      [Match.mk pattern potentialRoot
                (ChordPattern.priority pattern * 100 - penalty) false false]
    else
      (* Match with omitted 5th *)
      if ChordPattern.omits5th pattern && has (ChordPattern.intervals pattern) 7 then
        let patternWithout5th :=
          filter (fun i => negb (i =? 7)) (ChordPattern.intervals pattern) in
        let allPresentWithout5th := forallb (has intervalSet) patternWithout5th in
        if allPresentWithout5th && negb (has intervalSet 7) then
          let extraIntervals :=
            filter (fun i => negb (has patternSet i) && negb (i =? 7)) intervals in
          let penalty :=
            calculateExtraNotesPenalty extraIntervals (ChordPattern.intervals pattern) in
          [Match.mk pattern potentialRoot
                    (ChordPattern.priority pattern * 100 - 15 - penalty) false false]
        else []
      else [].

(** Body of the inner loop over [CHORD_PATTERNS] for a root that is
    not played: up to two matches are pushed per pattern. *)
Definition rootlessMatch (intervals intervalSet : list Z) (potentialRoot : Z)
           (pattern : ChordPattern.t) : list Match.t :=
  if (List.length (ChordPattern.intervals pattern) <? 4)%nat then []
  else if negb (has (ChordPattern.intervals pattern) 0) then []
  else
    let patternWithoutRoot :=
      filter (fun i => negb (i =? 0)) (ChordPattern.intervals pattern) in
    let allNonRootPresent := forallb (has intervalSet) patternWithoutRoot in
    (if allNonRootPresent && (3 <=? List.length patternWithoutRoot)%nat then
       let patternWithoutRootSet := fromSet patternWithoutRoot in
       let extraIntervals :=
         filter (fun i => negb (has patternWithoutRootSet i)) intervals in
       let penalty :=
         calculateExtraNotesPenalty extraIntervals (ChordPattern.intervals pattern) in
       [Match.mk pattern potentialRoot
                 (ChordPattern.priority pattern * 80 - 50 - penalty) true false]
     else [])
    ++
    (* Rootless with omitted 5th *)
    (if ChordPattern.omits5th pattern then
       let patternWithoutRootAnd5th :=
         filter (fun i => negb (i =? 7)) patternWithoutRoot in
       let allNonRootNo5thPresent :=
         forallb (has intervalSet) patternWithoutRootAnd5th in
       if allNonRootNo5thPresent && negb (has intervalSet 7)
          && (2 <=? List.length patternWithoutRootAnd5th)%nat then
         let patternSet := fromSet patternWithoutRootAnd5th in
         let extraIntervals := filter (fun i => negb (has patternSet i)) intervals in
         let penalty :=
           calculateExtraNotesPenalty extraIntervals (ChordPattern.intervals pattern) in
         [Match.mk pattern potentialRoot
                   (ChordPattern.priority pattern * 70 - 80 - penalty) true false]
       else []
     else [])%list.

(** The first loop: each pitch class in the chord as potential root. *)
Definition rootedMatches (uniquePitchClasses : list Z) : list Match.t :=
  flat_map
    (fun potentialRoot =>
       let intervals := intervalsFrom uniquePitchClasses potentialRoot in
       let intervalSet := fromSet intervals in
       flat_map (rootedMatch intervals intervalSet potentialRoot) CHORD_PATTERNS)
    uniquePitchClasses.

(** The second loop: [for (potentialRoot = 0; potentialRoot < 12; potentialRoot++)]. *)
Definition rootlessMatches (uniquePitchClasses : list Z) : list Match.t :=
  flat_map
    (fun potentialRoot =>
       if has uniquePitchClasses potentialRoot then []
       else
         let intervals := intervalsFrom uniquePitchClasses potentialRoot in
         let intervalSet := fromSet intervals in
         flat_map (rootlessMatch intervals intervalSet potentialRoot) CHORD_PATTERNS)
    [0; 1; 2; 3; 4; 5; 6; 7; 8; 9; 10; 11].

(** The array [matches] when both loops are done. *)
Definition generateMatches (uniquePitchClasses : list Z) : list Match.t :=
  (rootedMatches uniquePitchClasses ++ rootlessMatches uniquePitchClasses)%list.

(** [(a, b) => b.score - a.score] *)
Definition byScoreDescending (a b : Match.t) : Z := Match.score b - Match.score a.

(** The block "#9 vs b3 disambiguation" of [analyzeChord]. *)
Definition resolveSharp9 (matches : list Match.t) (hasMin3 hasMaj3 : bool)
           (tensionInfo : TensionDisambiguation.t) (best : Match.t) : Match.t :=
  if hasMin3 && hasMaj3 then
    if TensionDisambiguation.interval3IsSharp9 tensionInfo then
      let sharp9Match :=
        find (fun m => includes (Match.name m) "#9"
                       && (Match.root m =? Match.root best)
                       && (Match.score m >? Match.score best - 150))
             matches in
      match sharp9Match, negb (includes (Match.name best) "#9") with
      | Some m, true => m
      | _, _ =>
          if negb (includes (Match.name best) "#9")
             && negb (includes (Match.name best) "m") then
            if String.eqb (Match.name best) EmptyString
               || startsWith (Match.name best) "add"
               || startsWith (Match.name best) "Maj"
               || String.eqb (Match.name best) "7" then
              let originalPattern := Match.pattern best in
              let newName := ChordPattern.name originalPattern in
              let newName :=
                if String.eqb newName EmptyString then "add#9"
                else if negb (includes newName "#9") then newName ++ "(#9)"
                else newName in
              Match.with_pattern best (ChordPattern.with_name originalPattern newName)
            else best
          else best
      end
    else
      if includes (Match.name best) "#9" then
        if negb (includes (Match.name best) "7") then
          let clusterMatch :=
            find (fun m => (String.eqb (Match.name m) "(add b3)"
                            || String.eqb (Match.name m) "m(add 3)")
                           && (Match.root m =? Match.root best))
                 matches in
          match clusterMatch with
          | Some m => m
          | None =>
              let originalPattern := Match.pattern best in
              let newName :=
                replace (replace (replace (ChordPattern.name originalPattern)
                                          "#9" "b3")
                                 "add" "(add ")
                        "madd" "m(add " in
              let newName :=
                if includes newName "(add " && negb (endsWith newName ")")
                then newName ++ ")" else newName in
              Match.with_pattern best (ChordPattern.with_name originalPattern newName)
          end
        else
          let originalPattern := Match.pattern best in
          let newName := replace (ChordPattern.name originalPattern) "#9" "(add b3)" in
          Match.with_pattern best (ChordPattern.with_name originalPattern newName)
      else best
  else best.

(** The block "#11 vs b5 disambiguation" of [analyzeChord]. *)
Definition resolveSharp11 (matches : list Match.t) (hasTritone hasNatural5 : bool)
           (tensionInfo : TensionDisambiguation.t) (best : Match.t) : Match.t :=
  if hasTritone then
    if TensionDisambiguation.interval6IsSharp11 tensionInfo then
      let sharp11Match :=
        find (fun m => includes (Match.name m) "#11"
                       && (Match.root m =? Match.root best)
                       && (Match.score m >? Match.score best - 150))
             matches in
      match sharp11Match, negb (includes (Match.name best) "#11") with
      | Some m, true => m
      | _, _ =>
          if includes (Match.name best) "b5" then
            let originalPattern := Match.pattern best in
            Match.with_pattern best
              (ChordPattern.with_name originalPattern
                 (replace (ChordPattern.name originalPattern) "b5" "#11"))
          else if String.eqb (Match.name best) "(b5)" then
            let sharp11Fragment :=
              find (fun m => String.eqb (Match.name m) "(#11)"
                             && (Match.root m =? Match.root best))
                   matches in
            match sharp11Fragment with
            | Some m => m
            | None => best
            end
          else best
      end
    else
      if String.eqb (Match.name best) "(#11)" then
        let b5Fragment :=
          find (fun m => String.eqb (Match.name m) "(b5)"
                         && (Match.root m =? Match.root best))
               matches in
        match b5Fragment with
        | Some m => m
        | None =>
            Match.with_pattern best (ChordPattern.with_name (Match.pattern best) "(b5)")
        end
      else if includes (Match.name best) "#11" && negb hasNatural5 then
        let b5Match :=
          find (fun m => includes (Match.name m) "b5"
                         && (Match.root m =? Match.root best)
                         && (Match.score m >? Match.score best - 150))
               matches in
        match b5Match with
        | Some m => m
        | None =>
            let originalPattern := Match.pattern best in
            Match.with_pattern best
              (ChordPattern.with_name originalPattern
                 (replace (ChordPattern.name originalPattern) "#11" "b5"))
        end
      else best
  else best.

(** The block "#5 vs b13 disambiguation" of [analyzeChord]. *)
Definition resolveFlat13 (matches : list Match.t)
           (hasPitchClass8 hasNatural5 has7th : bool) (best : Match.t) : Match.t :=
  if hasPitchClass8 && hasNatural5 && has7th then
    if includes (Match.name best) "#5" && negb (includes (Match.name best) "aug") then
      let b13Match :=
        find (fun m => includes (Match.name m) "b13"
                       && (Match.root m =? Match.root best)
                       && (Match.score m >? Match.score best - 150))
             matches in
      match b13Match with
      | Some m => m
      | None => best
      end
    else best
  else best.

(** From [let best = matches[0]] to the end of the #5/b13 block:
    [matches] is the sorted array, [best] its first element.  The
    result is the final [best] with the [actualIntervals] computed on
    the way. *)
Definition disambiguate (sorted uniquePitchClasses : list Z)
           (matches : list Match.t) (best : Match.t)
  : Match.t * list ActualIntervalInfo.t :=
  let actualIntervals := calculateActualIntervals sorted (Match.root best) in
  let candidateIntervals :=
    map (fun n => Z.rem (n - Match.root best + 12) 12) uniquePitchClasses in
  let hasMaj3 := has candidateIntervals 4 in
  let hasMin3 := has candidateIntervals 3 in
  let hasMaj7 := has candidateIntervals 11 in
  let hasDom7 := has candidateIntervals 10 in
  let has7th := hasMaj7 || hasDom7 in
  let hasTritone := has candidateIntervals 6 in
  let hasNatural5 := has candidateIntervals 7 in
  let hasPitchClass8 := has candidateIntervals 8 in
  let tensionInfo :=
    disambiguateTensions actualIntervals (Match.root best)
                         hasMaj3 hasMin3 has7th hasNatural5 in
  let best := resolveSharp9 matches hasMin3 hasMaj3 tensionInfo best in
  let best := resolveSharp11 matches hasTritone hasNatural5 tensionInfo best in
  let best := resolveFlat13 matches hasPitchClass8 hasNatural5 has7th best in
  (best, actualIntervals).

(** The final [return { ... }] of [analyzeChord]. *)
Definition assemble (uniquePitchClasses : list Z) (bassPitchClass : Z)
           (best : Match.t) (actualIntervals : list ActualIntervalInfo.t)
  : Completion (option ChordAnalysis.t) :=
  rootName <- getRootSpelling (Match.root best) (Some uniquePitchClasses) ;;
  bassName <- getChordToneSpelling bassPitchClass (Match.root best) ;;
  let isInversion :=
    negb (Match.root best =? bassPitchClass) && negb (Match.isRootless best) in
  let displayName := rootName ++ Match.name best in
  let displayName :=
    if Match.isRootless best then displayName ++ " (rootless)" else displayName in
  let displayName :=
    if isInversion then displayName ++ "/" ++ bassName else displayName in
  let actualIntervalsArray := map ActualIntervalInfo.actualInterval actualIntervals in
  Normal (Some (ChordAnalysis.mk
                  rootName
                  (Match.name best)
                  bassName
                  displayName
                  (ChordPattern.intervals (Match.pattern best))
                  (Match.root best)
                  (Some (Match.isRootless best))
                  (Some actualIntervalsArray))).

(** The [if (matches.length === 0) { ... }] fallback. *)
Definition fallback (sorted uniquePitchClasses : list Z) (bassPitchClass : Z)
  : Completion (option ChordAnalysis.t) :=
  bassRootName <- getRootSpelling bassPitchClass (Some uniquePitchClasses) ;;
  tones <- mapM (fun n => getChordToneSpelling (Z.rem n 12) bassPitchClass) sorted ;;
  Normal (Some (ChordAnalysis.mk
                  bassRootName
                  EmptyString
                  bassRootName
                  (join " " tones)
                  (sort ascending
                        (map (fun n => Z.rem (n - bassPitchClass + 12) 12)
                             uniquePitchClasses))
                  bassPitchClass
                  None
                  None)).

(** [[...new Set(sorted.map(n => n % 12))].sort((a, b) => a - b)] *)
Definition pitchClassesOf (sorted : list Z) : list Z :=
  sort ascending (fromSet (map (fun n => Z.rem n 12) sorted)).

(** [Normal None] is the [null] result. *)
Definition analyzeChord (activeNotes : list Z) : Completion (option ChordAnalysis.t) :=
  if (List.length activeNotes <? 1)%nat then Normal None
  else
    let sorted := sort ascending activeNotes in
    let bassMidi := hd 0 sorted in  (* sorted[0]; [sorted] is not empty here *)
    let bassPitchClass := Z.rem bassMidi 12 in
    let uniquePitchClasses := pitchClassesOf sorted in
    let matches := generateMatches uniquePitchClasses in
    if (List.length matches =? 0)%nat then
      fallback sorted uniquePitchClasses bassPitchClass
    else
      let matches := sort byScoreDescending matches in
      match matches with
      | [] => TypeError   (* [matches[0]] undefined: [best.root] would throw *)
      | best :: _ =>
          let '(best, actualIntervals) :=
            disambiguate sorted uniquePitchClasses matches best in
          assemble uniquePitchClasses bassPitchClass best actualIntervals
      end.

(** *** Note details, note names and tension spelling *)

Definition NOTES : list string :=
  ["C"; "C#"; "D"; "D#"; "E"; "F"; "F#"; "G"; "G#"; "A"; "A#"; "B"].

Definition NOTES_FLAT : list string :=
  ["C"; "Db"; "D"; "Eb"; "E"; "F"; "Gb"; "G"; "Ab"; "A"; "Bb"; "B"].

Definition INTERVALS : list string :=
  ["Root"; "min 2nd"; "Maj 2nd"; "min 3rd"; "Maj 3rd"; "Perf 4th";
   "Tritone"; "Perf 5th"; "min 6th"; "Maj 6th"; "min 7th"; "Maj 7th"].

(** A value that may be [undefined], inside a template literal. *)
Definition template (v : option string) : string :=
  match v with Some s => s | None => "undefined" end.

Definition getNoteDetails (midi : Z) : NoteDetails.t :=
  let note := index NOTES (Z.rem midi 12) in
  let octave := floorDiv midi 12 - 1 in
  NoteDetails.mk note octave (template note ++ numberToString octave) midi.

(** [preferFlat] defaults to [false] when it is not given. *)
Definition getNoteName (pitchClass : Z) (preferFlat : option bool) : option string :=
  let preferFlat := match preferFlat with Some b => b | None => false end in
  if preferFlat then index NOTES_FLAT pitchClass else index NOTES pitchClass.

(** [scaleDegree] is 2, 5 or 7 at every call site. *)
Definition getSharpSpelling (rootPitchClass scaleDegree : Z) : Completion string :=
  baseNote <- scaleEntry rootPitchClass scaleDegree ;;
  if includes baseNote "b" then Normal (replace baseNote "b" EmptyString)
  else if includes baseNote "#" then Normal (baseNote ++ "#")
  else Normal (baseNote ++ "#").

(** The object [spellings]: its keys are 1, 3, 6 and 8. *)
Definition getTensionSpellings (rootPitchClass : Z)
  : Completion (Z -> option TensionNames.t) :=
  root <- scaleEntry rootPitchClass 0 ;;   (* [const root = ...scale[0]], unused *)
  s1 <- scaleEntry rootPitchClass 1 ;;
  s3 <- scaleEntry rootPitchClass 3 ;;
  sharp9 <- getSharpSpelling rootPitchClass 2 ;;
  s6 <- scaleEntry rootPitchClass 6 ;;
  sharp11 <- getSharpSpelling rootPitchClass 5 ;;
  s8 <- scaleEntry rootPitchClass 8 ;;
  sharp5 <- getSharpSpelling rootPitchClass 7 ;;
  Normal (fun interval =>
            match interval with
            | 1 => Some (TensionNames.mk s1 s1 s1)
            | 3 => Some (TensionNames.mk s3 sharp9 s3)
            | 6 => Some (TensionNames.mk s6 sharp11 s6)
            | 8 => Some (TensionNames.mk s8 sharp5 s8)
            | _ => None
            end).

(** [actualInterval] is [None] when the argument is [undefined]. *)
Definition getTensionQuality (patternName : string) (interval : Z)
           (actualInterval : option Z) : TensionQuality :=
  let fallback :=
    if interval =? 3 then
      if includes patternName "#9" then sharp else natural
    else if interval =? 6 then
      if includes patternName "#11" then sharp
      else if includes patternName "b5" then flat
      else natural
    else if interval =? 8 then
      if includes patternName "#5" || includes patternName "aug" then sharp
      else if includes patternName "b13" then flat
      else natural
    else if interval =? 1 then flat
    else natural in
  match actualInterval with
  | Some actualInterval =>
      if interval =? 3 then
        if actualInterval >=? 14 then sharp
        else if includes patternName "#9" then sharp
        else natural
      else if interval =? 6 then
        if actualInterval >=? 17 then sharp
        else if includes patternName "#11" then sharp
        else if includes patternName "b5" then flat
        else flat
      else if interval =? 8 then
        if actualInterval >=? 19 then flat
        else if includes patternName "b13" then flat
        else if includes patternName "#5" || includes patternName "aug" then sharp
        else sharp
      else fallback
  | None => fallback
  end.

(** [spellings[interval][quality]] *)
Definition tensionName (names : TensionNames.t) (quality : TensionQuality) : string :=
  match quality with
  | natural => TensionNames.natural names
  | sharp => TensionNames.sharp names
  | flat => TensionNames.flat names
  end.

Definition getChordToneWithTension (pitchClass rootPitchClass : Z)
           (patternName : string) (actualInterval : option Z) : Completion string :=
  let interval := Z.rem (Z.rem (pitchClass - rootPitchClass) 12 + 12) 12 in
  if negb (has [1; 3; 6; 8] interval) then scaleEntry rootPitchClass interval
  else
    let quality := getTensionQuality patternName interval actualInterval in
    spellings <- getTensionSpellings rootPitchClass ;;
    match spellings interval with
    | Some names => Normal (tensionName names quality)
    | None => scaleEntry rootPitchClass interval
    end.

End App.

(* ================================================================= *)
(** ** The application component that uses the library (the training
       game and the note chips of [ChorduroyApp]) *)
(* ================================================================= *)

Module Chorduroy.

(** A property read on the object literal [map]: an own key gives its
    number; a key that [Object.prototype] defines gives the inherited
    value, which is not a number; any other key gives [undefined]. *)
Inductive Lookup : Type :=
| Own (n : Z)
| Inherited (key : string)
| Undefined.

Definition PROTOTYPE_KEYS : list string :=
  ["constructor"; "__proto__"; "hasOwnProperty"; "isPrototypeOf";
   "propertyIsEnumerable"; "toLocaleString"; "toString"; "valueOf";
   "__defineGetter__"; "__defineSetter__"; "__lookupGetter__"; "__lookupSetter__"].

(** The object literal inside [rootToPitchClass]. *)
Definition ROOT_MAP : list (string * Z) :=
  [("C", 0); ("C#", 1); ("Db", 1); ("D", 2); ("D#", 3); ("Eb", 3);
   ("E", 4); ("Fb", 4); ("E#", 5); ("F", 5); ("F#", 6); ("Gb", 6);
   ("G", 7); ("G#", 8); ("Ab", 8); ("A", 9); ("A#", 10); ("Bb", 10);
   ("B", 11); ("Cb", 11); ("B#", 0)].

Fixpoint ownProperty (object : list (string * Z)) (key : string) : option Z :=
  match object with
  | [] => None
  | (k, v) :: rest => if String.eqb k key then Some v else ownProperty rest key
  end.

Definition property (object : list (string * Z)) (key : string) : Lookup :=
  match ownProperty object key with
  | Some v => Own v
  | None => if existsb (String.eqb key) PROTOTYPE_KEYS then Inherited key else Undefined
  end.

(** [map[root] ?? -1] *)
Definition rootToPitchClass (root : string) : Lookup :=
  match property ROOT_MAP root with
  | Undefined => Own (-1)
  | v => v
  end.

(** [===] on two values read from [map]. *)
Definition strictEqual (a b : Lookup) : bool :=
  match a, b with
  | Own x, Own y => x =? y
  | Inherited j, Inherited k => String.eqb j k
  | Undefined, Undefined => true
  | _, _ => false
  end.

(** [TargetChord] *)
Record TargetChord : Type := mkTarget {
  targetRoot : string;
  targetQuality : string;
  targetDisplay : string
}.

(** The array [roots] of [generateTarget]. *)
Definition TARGET_ROOTS : list string :=
  ["C"; "C#"; "D"; "Eb"; "E"; "F"; "F#"; "G"; "Ab"; "A"; "Bb"; "B"].

(** [TRAINING_CHORD_TYPES]: quality and display name. *)
Definition TRAINING_CHORD_TYPES : list (string * string) :=
  [(EmptyString, "Major"); ("m", "Minor"); ("Maj7", "Maj7"); ("min7", "min7");
   ("7", "Dom7"); ("dim", "dim"); ("sus2", "sus2"); ("sus4", "sus4")].

(** The target [generateTarget] sets for the two random indices it
    draws. *)
Definition targetAt (rootIndex typeIndex : nat) : option TargetChord :=
  match nth_error TARGET_ROOTS rootIndex, nth_error TRAINING_CHORD_TYPES typeIndex with
  | Some r, Some (quality, displayName) =>
      Some (mkTarget r quality (r ++ quality ++ " (" ++ displayName ++ ")"))
  | _, _ => None
  end.

(** [isMatch] of the effect that compares the played chord with the
    target. *)
Definition isMatch (targetChord : TargetChord) (currentChord : ChordAnalysis.t) : bool :=
  let targetPitchClass := rootToPitchClass (targetRoot targetChord) in
  let currentPitchClass := rootToPitchClass (ChordAnalysis.root currentChord) in
  strictEqual targetPitchClass currentPitchClass
  && String.eqb (ChordAnalysis.quality currentChord) (targetQuality targetChord).

(** One chip of the "Notes & Intervals" row: the note name and the
    interval label. *)
Record NoteChip : Type := mkChip {
  noteName : string;
  intervalName : string
}.

(** The body of the [.map((note, noteIndex) => ...)] callback.
    [rootPitchClass] is [None] when it evaluates to [NaN]
    ([displayChord] null and no active note): the look-up
    [ROOT_SPELLING[NaN]] is then [undefined] and the call throws. *)
Definition noteChip (displayChord : option ChordAnalysis.t) (sortedActiveNotes : list Z)
           (note : Z) (noteIndex : nat) : Completion NoteChip :=
  let notePitchClass := Z.rem note 12 in
  let rootPitchClass :=
    match displayChord with
    | Some chord => Some (ChordAnalysis.detectedRootPitchClass chord)
    | None => option_map (fun n => Z.rem n 12) (hd_error sortedActiveNotes)
    end in
  let patternName :=
    match displayChord with
    | Some chord => ChordAnalysis.quality chord
    | None => EmptyString
    end in
  let actualInterval :=
    match displayChord with
    | Some chord =>
        match ChordAnalysis.actualIntervals chord with
        | Some intervals => nth_error intervals noteIndex
        | None => None
        end
    | None => None
    end in
  match rootPitchClass with
  | None => TypeError
  | Some rootPitchClass =>
      let interval := Z.rem (notePitchClass - rootPitchClass + 12) 12 in
      let isRoot := notePitchClass =? rootPitchClass in
      let intervalName :=
        if isRoot then "R"
        else match index Lib.INTERVALS interval with
             | Some text =>
                 let first := splitFirst " " text in
                 if String.eqb first EmptyString then "?" else first
             | None => "?"
             end in
      noteName <- Lib.getChordToneWithTension notePitchClass rootPitchClass
                                              patternName actualInterval ;;
      Normal (mkChip noteName intervalName)
  end.

(** [notes.map((note, noteIndex) => ...)], from index [noteIndex] on. *)
Fixpoint noteChipsFrom (displayChord : option ChordAnalysis.t)
         (sortedActiveNotes : list Z) (noteIndex : nat) (notes : list Z)
  : Completion (list NoteChip) :=
  match notes with
  | [] => Normal []
  | note :: rest =>
      chip <- noteChip displayChord sortedActiveNotes note noteIndex ;;
      chips <- noteChipsFrom displayChord sortedActiveNotes (S noteIndex) rest ;;
      Normal (chip :: chips)
  end.

(** A [PhraseSegment] as the row reads it: its notes and its analysis,
    [None] when the field is [undefined].  (Type, time stamp and
    duration are not read by the row.) *)
Record PhraseSegment : Type := mkSegment {
  notes : list Z;
  analysis : option ChordAnalysis.t
}.

(** [displayChord]: the analysis of the selected card when it has one,
    the chord being played otherwise.  [selectedSegment] is [None] when
    no card is selected. *)
Definition displayChord (selectedSegment : option PhraseSegment)
           (currentChord : option ChordAnalysis.t) : option ChordAnalysis.t :=
  match selectedSegment with
  | Some segment =>
      match analysis segment with
      | Some chord => Some chord
      | None => currentChord
      end
  | None => currentChord
  end.

(** [selectedSegment ? [...selectedSegment.notes].sort((a, b) => a - b)
    : sortedActiveNotes], the array the row maps over. *)
Definition shownNotes (selectedSegment : option PhraseSegment)
           (sortedActiveNotes : list Z) : list Z :=
  match selectedSegment with
  | Some segment => sort ascending (notes segment)
  | None => sortedActiveNotes
  end.

(** The row of chips, for the selected card (if any) and the notes that
    are held: [currentChord = analyzeChord(activeNotes)] is computed in
    both states. *)
Definition noteChips (selectedSegment : option PhraseSegment) (activeNotes : list Z)
  : Completion (list NoteChip) :=
  currentChord <- Lib.analyzeChord activeNotes ;;
  let sortedActiveNotes := sort ascending activeNotes in
  noteChipsFrom (displayChord selectedSegment currentChord) sortedActiveNotes 0
                (shownNotes selectedSegment sortedActiveNotes).

End Chorduroy.

(* ================================================================= *)
(** ** The helper of the test suite that reads note names *)
(* ================================================================= *)

Module TestSuite.

Definition NOTE_TO_MIDI : list (string * Z) :=
  [("C", 0); ("C#", 1); ("Db", 1); ("D", 2); ("D#", 3); ("Eb", 3); ("E", 4); ("F", 5);
   ("F#", 6); ("Gb", 6); ("G", 7); ("G#", 8); ("Ab", 8); ("A", 9); ("A#", 10);
   ("Bb", 10); ("B", 11)].

(** The result of [midi(note)]: a number, [NaN] when the note name is
    not a key of [NOTE_TO_MIDI], or the thrown [Error] when the text does
    not match. *)
Inductive MidiResult : Type :=
| Midi (n : Z)
| NaN
| InvalidNote.

Definition isNoteLetter (c : ascii) : bool :=
  existsb (Ascii.eqb c) ["A"; "B"; "C"; "D"; "E"; "F"; "G"]%char.

Definition isAccidental (c : ascii) : bool :=
  Ascii.eqb c "#"%char || Ascii.eqb c "b"%char.

(** The value of a decimal digit, [None] for any other character. *)
Definition digitValue (c : ascii) : option Z :=
  let n := Z.of_nat (nat_of_ascii c) in
  if (48 <=? n) && (n <=? 57) then Some (n - 48) else None.

(** [note.match(/^([A-G][#b]?)(\d)$/)]: the two groups. *)
Definition matchNote (note : string) : option (string * ascii) :=
  match note with
  | String l (String d EmptyString) =>
      if isNoteLetter l then
        match digitValue d with
        | Some _ => Some (String l EmptyString, d)
        | None => None
        end
      else None
  | String l (String a (String d EmptyString)) =>
      if isNoteLetter l && isAccidental a then
        match digitValue d with
        | Some _ => Some (String l (String a EmptyString), d)
        | None => None
        end
      else None
  | _ => None
  end.

Definition midi (note : string) : MidiResult :=
  match matchNote note with
  | None => InvalidNote
  | Some (noteName, octaveStr) =>
      match digitValue octaveStr with
      | None => InvalidNote   (* not reached: the group is a digit *)
      | Some octave =>
          match Chorduroy.ownProperty NOTE_TO_MIDI noteName with
          | Some n => Midi ((octave + 1) * 12 + n)
          | None => NaN
          end
      end
  end.

Definition midiChord (notes : list string) : list MidiResult := map midi notes.

End TestSuite.

(* ================================================================= *)
(** ** Vocabulary of the properties *)
(* ================================================================= *)

(** The order a comparator induces: [a] may stay ahead of [b]. *)
Definition before {A : Type} (cmp : A -> A -> Z) (a b : A) : Prop := cmp a b <= 0.

(** The array [matches] that [analyzeChord] builds for an input, before
    it is sorted. *)
Definition matchesOf (activeNotes : list Z) : list Match.t :=
  Lib.generateMatches (Lib.pitchClassesOf (sort ascending activeNotes)).

(** MIDI note numbers are not negative. *)
Definition midiNotes (activeNotes : list Z) : Prop :=
  Forall (fun n => 0 <= n) activeNotes.

(** The twelve pitch classes, ascending. *)
Definition PITCH_CLASSES : list Z := [0; 1; 2; 3; 4; 5; 6; 7; 8; 9; 10; 11].

(** [check] holds of every sub-list of [universe]. *)
Fixpoint forallSubsets (universe : list Z) (check : list Z -> bool) : bool :=
  match universe with
  | [] => check []
  | x :: rest =>
      forallSubsets rest check && forallSubsets rest (fun s => check (x :: s))
  end.

(** Patterns whose exact match can be outscored by a match that is not
    exact. *)
Definition OUTSCORED : list string := ["5"; "quartal"; "quartal4"; "add9"; "madd11"].

(** The pattern name of [m] is one of [names]. *)
Definition nameIn (names : list string) (m : Match.t) : bool :=
  existsb (String.eqb (Match.name m)) names.

(** [e] scores more than every match of [matches] that is not exact. *)
Definition aboveInexact (matches : list Match.t) (e : Match.t) : bool :=
  forallb (fun n => Match.isExact n || (Match.score n <? Match.score e)) matches.

(** What is checked of the matches the catalog yields on one pitch-class
    set. *)
Definition catalogCheck (uniquePitchClasses : list Z) : bool :=
  let matches := Lib.generateMatches uniquePitchClasses in
  (* no match at all: at most one pitch class *)
  (match matches with [] => (List.length uniquePitchClasses <=? 1)%nat | _ => true end)
  (* an exact match outside OUTSCORED is above every inexact match *)
  && forallb (fun e => if Match.isExact e
                       then if nameIn OUTSCORED e then true else aboveInexact matches e
                       else true) matches
  (* an exact match other than 5 and add9: some exact match is on top *)
  && (if existsb (fun e => Match.isExact e && negb (nameIn ["5"; "add9"] e)) matches
      then existsb (fun e => if Match.isExact e then aboveInexact matches e else false)
                   matches
      else true).

(** [m'] is [m] except, possibly, for the name of its pattern. *)
Definition sameButName (m m' : Match.t) : Prop :=
  Match.root m' = Match.root m
  /\ Match.score m' = Match.score m
  /\ Match.isRootless m' = Match.isRootless m
  /\ Match.isExact m' = Match.isExact m
  /\ ChordPattern.intervals (Match.pattern m') = ChordPattern.intervals (Match.pattern m)
  /\ ChordPattern.priority (Match.pattern m') = ChordPattern.priority (Match.pattern m)
  /\ ChordPattern.allowOmit5th (Match.pattern m')
     = ChordPattern.allowOmit5th (Match.pattern m).

(** One disambiguation block: it keeps [best], or switches to an
    alternate found in [matches] at the same root, or renames [best] in
    place. *)
Inductive blockStep (matches : list Match.t) (best : Match.t) : Match.t -> Prop :=
| step_keep : blockStep matches best best
| step_switch (m : Match.t) :
    In m matches -> Match.root m = Match.root best -> blockStep matches best m
| step_rename (newName : string) :
    blockStep matches best (Match.rename best newName).

(** [b] stems from a match of [matches]: it is one of them up to the
    name of its pattern. *)
Definition stemsFrom (matches : list Match.t) (b : Match.t) : Prop :=
  exists m, In m matches /\ sameButName m b.

(** [bassPitchClass] for an input. *)
Definition bassPitchClassOf (activeNotes : list Z) : Z :=
  Z.rem (hd 0 (sort ascending activeNotes)) 12.

(** [uniquePitchClasses] for an input. *)
Definition uniquePitchClassesOf (activeNotes : list Z) : list Z :=
  Lib.pitchClassesOf (sort ascending activeNotes).

(** The three ways through [analyzeChord]: the null result, the
    fallback when nothing matched, and the assembly of the disambiguated
    first match of the sorted array. *)
Inductive analysisPath (activeNotes : list Z) : Prop :=
| path_null :
    activeNotes = [] ->
    Lib.analyzeChord activeNotes = Normal None ->
    analysisPath activeNotes
| path_fallback :
    activeNotes <> [] ->
    matchesOf activeNotes = [] ->
    Lib.analyzeChord activeNotes
    = Lib.fallback (sort ascending activeNotes) (uniquePitchClassesOf activeNotes)
                   (bassPitchClassOf activeNotes) ->
    analysisPath activeNotes
| path_match (best : Match.t) (rest : list Match.t) :
    activeNotes <> [] ->
    sort Lib.byScoreDescending (matchesOf activeNotes) = best :: rest ->
    Lib.analyzeChord activeNotes
    = Lib.assemble (uniquePitchClassesOf activeNotes) (bassPitchClassOf activeNotes)
        (fst (Lib.disambiguate (sort ascending activeNotes)
                               (uniquePitchClassesOf activeNotes) (best :: rest) best))
        (snd (Lib.disambiguate (sort ascending activeNotes)
                               (uniquePitchClassesOf activeNotes) (best :: rest) best)) ->
    analysisPath activeNotes.

(** The root pitch class [analyzeChord] settles on: the root of the
    first match of the sorted array, or the bass when nothing matched. *)
Definition rootPitchClassOf (activeNotes : list Z) : Z :=
  match sort Lib.byScoreDescending (matchesOf activeNotes) with
  | [] => bassPitchClassOf activeNotes
  | best :: _ => Match.root best
  end.



(** The reference MIDI number of the root in [calculateActualIntervals]. *)
Definition rootMidiOf (sortedMidiNotes : list Z) (lowestNote rootPitchClass : Z) : Z :=
  match filter (fun n => Z.rem n 12 =? rootPitchClass) sortedMidiNotes with
  | r :: rest => Math_min r rest
  | [] =>
      lowestNote
      - Z.rem (Z.rem (Z.rem lowestNote 12 - rootPitchClass) 12 + 12) 12
  end.

(* ================================================================= *)
(** ** Vocabulary of the further properties *)
(* ================================================================= *)

(** [intervals] is strictly ascending. *)
Fixpoint ascendingb (intervals : list Z) : bool :=
  match intervals with
  | x :: (y :: _) as rest => (x <? y) && ascendingb rest
  | _ => true
  end.

(** Every entry of [ROOT_SPELLING] is a key of the map of
    [rootToPitchClass], with the pitch class of the root plus the scale
    degree. *)
Definition scaleDenotes (r i : Z) : bool :=
  match Lib.scaleEntry r i with
  | Normal s =>
      match Chorduroy.rootToPitchClass s with
      | Chorduroy.Own n => n =? (r + i) mod 12
      | _ => false
      end
  | TypeError => false
  end.

(** A name of one character. *)
Definition oneLetter (s : string) : Prop := String.length s = 1%nat.

(** The match [b'] has the name of [b], or a name of more than one
    character. *)
Definition keptOrLong (b b' : Match.t) : Prop :=
  Match.name b' = Match.name b \/ ~ oneLetter (Match.name b').

(** The catalog entries named m and madd#9: the same intervals. *)
Definition MINOR : ChordPattern.t := ChordPattern.mk "m" [0; 3; 7] 35 None.
Definition MADD_SHARP9 : ChordPattern.t :=
  ChordPattern.mk "madd#9" [0; 3; 7] 41 (Some true).

Definition patternEqb (p q : ChordPattern.t) : bool :=
  String.eqb (ChordPattern.name p) (ChordPattern.name q)
  && (if list_eq_dec Z.eq_dec (ChordPattern.intervals p) (ChordPattern.intervals q)
      then true else false)
  && (ChordPattern.priority p =? ChordPattern.priority q)
  && match ChordPattern.allowOmit5th p, ChordPattern.allowOmit5th q with
     | Some a, Some b => Bool.eqb a b
     | None, None => true
     | _, _ => false
     end.

(** The pitch class a note name denotes: the letter, raised by each
    sharp and lowered by each flat after it.  Names with a double sharp,
    which [getSharpSpelling] can produce, are covered. *)
Definition letterPitchClass (c : ascii) : option Z :=
  if Ascii.eqb c "C" then Some 0
  else if Ascii.eqb c "D" then Some 2
  else if Ascii.eqb c "E" then Some 4
  else if Ascii.eqb c "F" then Some 5
  else if Ascii.eqb c "G" then Some 7
  else if Ascii.eqb c "A" then Some 9
  else if Ascii.eqb c "B" then Some 11
  else None.

Fixpoint accidentals (s : string) : option Z :=
  match s with
  | EmptyString => Some 0
  | String c s' =>
      match accidentals s' with
      | None => None
      | Some n =>
          if Ascii.eqb c "#" then Some (n + 1)
          else if Ascii.eqb c "b" then Some (n - 1)
          else None
      end
  end.

Definition pitchClassOfName (s : string) : option Z :=
  match s with
  | EmptyString => None
  | String letter rest =>
      match letterPitchClass letter, accidentals rest with
      | Some p, Some n => Some ((p + n) mod 12)
      | _, _ => None
      end
  end.

(** The name [getChordToneWithTension] returns once the quality of the
    tension is known. *)
Definition tensionDenotes (r p : Z) (q : TensionQuality) : bool :=
  let interval := Z.rem (Z.rem (p - r) 12 + 12) 12 in
  match (if negb (has [1; 3; 6; 8] interval) then Lib.scaleEntry r interval
         else spellings <- Lib.getTensionSpellings r ;;
              match spellings interval with
              | Some names => Normal (Lib.tensionName names q)
              | None => Lib.scaleEntry r interval
              end) with
  | Normal s =>
      match pitchClassOfName s with
      | Some n =>
          (n =? p)
          && match q with
             | sharp => true
             | _ => match Lib.getChordToneSpelling p r with
                    | Normal t => String.eqb s t
                    | TypeError => false
                    end
             end
      | None => false
      end
  | TypeError => false
  end.

(** The labels a chip can carry: "R" and the first words of
    [INTERVALS] from the minor second on. *)
Definition CHIP_LABELS : list string := ["R"; "min"; "Maj"; "Perf"; "Tritone"].

(** What a chip shows for a note, given the root of the displayed
    chord. *)
Definition chipShows (rootPitchClass note : Z) (chip : Chorduroy.NoteChip) : Prop :=
  pitchClassOfName (Chorduroy.noteName chip) = Some (note mod 12)
  /\ In (Chorduroy.intervalName chip) CHIP_LABELS
  /\ (Chorduroy.intervalName chip = "R" <-> note mod 12 = rootPitchClass).

(** An entry of [calculateActualIntervals] is consistent with the root
    [r]: its pitch class is that of its note, and its interval is
    congruent to the distance of the pitch class from the root. *)
Definition consistentWith (r : Z) (info : ActualIntervalInfo.t) : Prop :=
  ActualIntervalInfo.pitchClass info = ActualIntervalInfo.midi info mod 12
  /\ ActualIntervalInfo.actualInterval info mod 12
     = (ActualIntervalInfo.pitchClass info - r) mod 12.

(** The pitch classes of a list of notes, one per note. *)
Definition pitchClassesPlayed (notes : list Z) : list Z := map (fun n => n mod 12) notes.

(** The MIDI numbers [lo], [lo + 1], ..., [lo + count - 1]. *)
Definition midiRange (lo : Z) (count : nat) : list Z :=
  map (fun k => lo + Z.of_nat k) (seq 0 count).

(** The name [getNoteDetails] gives a number is read back by [midi] as
    that number. *)
Definition readsBack (m : Z) : bool :=
  match TestSuite.midi (NoteDetails.name (Lib.getNoteDetails m)) with
  | TestSuite.Midi n => n =? m
  | _ => false
  end.

Definition rejected (m : Z) : bool :=
  match TestSuite.midi (NoteDetails.name (Lib.getNoteDetails m)) with
  | TestSuite.InvalidNote => true
  | _ => false
  end.

(** Both tables of note names denote, entry by entry, the pitch class
    of the index, and every entry is a key of the map of
    [rootToPitchClass]. *)
Definition noteNameDenotes (preferFlat : option bool) (p : Z) : bool :=
  match Lib.getNoteName p preferFlat with
  | Some n =>
      match pitchClassOfName n, Chorduroy.rootToPitchClass n with
      | Some q, Chorduroy.Own q' => (q =? p) && (q' =? p)
      | _, _ => false
      end
  | None => false
  end.

(** No entry of the scale of root [r] carries a sharp. *)
Definition sharpFree (r : Z) : bool :=
  forallb (fun i => match Lib.scaleEntry r i with
                    | Normal s => negb (includes s "#")
                    | TypeError => false
                    end) PITCH_CLASSES.

(** The penalty of one extra note. *)
Definition extraNoteCost (patternIntervals : list Z) (interval : Z) : Z :=
  Lib.calculateExtraNotesPenalty [interval] patternIntervals.

(** The three blocks of [disambiguate] applied in turn, for a given
    answer of [disambiguateTensions]. *)
Definition refine (uniquePitchClasses : list Z) (matches : list Match.t)
           (best : Match.t) (tensionInfo : TensionDisambiguation.t) : Match.t :=
  let candidateIntervals :=
    map (fun n => Z.rem (n - Match.root best + 12) 12) uniquePitchClasses in
  let hasMaj3 := has candidateIntervals 4 in
  let hasMin3 := has candidateIntervals 3 in
  let hasMaj7 := has candidateIntervals 11 in
  let hasDom7 := has candidateIntervals 10 in
  let has7th := hasMaj7 || hasDom7 in
  let hasTritone := has candidateIntervals 6 in
  let hasNatural5 := has candidateIntervals 7 in
  let hasPitchClass8 := has candidateIntervals 8 in
  let best := Lib.resolveSharp9 matches hasMin3 hasMaj3 tensionInfo best in
  let best := Lib.resolveSharp11 matches hasTritone hasNatural5 tensionInfo best in
  Lib.resolveFlat13 matches hasPitchClass8 hasNatural5 has7th best.

(** The eight answers [disambiguateTensions] can give. *)
Definition TENSION_INFOS : list TensionDisambiguation.t :=
  [TensionDisambiguation.mk true true true; TensionDisambiguation.mk true true false;
   TensionDisambiguation.mk true false true; TensionDisambiguation.mk true false false;
   TensionDisambiguation.mk false true true; TensionDisambiguation.mk false true false;
   TensionDisambiguation.mk false false true; TensionDisambiguation.mk false false false].

(** The final [best] for each of the eight answers, on a pitch-class
    set with a match. *)
Definition finalOutcomes (uniquePitchClasses : list Z) : list Match.t :=
  match sort Lib.byScoreDescending (Lib.generateMatches uniquePitchClasses) with
  | [] => []
  | best :: rest => map (refine uniquePitchClasses (best :: rest) best) TENSION_INFOS
  end.

(** Names of the catalog that no final [best] carries. *)
Definition NEVER_RETURNED : list string :=
  ["min6"; "m(add 3)"; "m"; "quartal"; "quartal4"; "5"].

(** What holds of every final [best]: its root is a pitch class, its
    name is none of [NEVER_RETURNED], a sus2 has its root below 5 and a
    sus4 has its root below 7. *)
Definition allowedOutcome (m : Match.t) : bool :=
  if existsb (String.eqb (Match.name m)) NEVER_RETURNED then false
  else if String.eqb (Match.name m) "sus2" then Match.root m <? 5
  else if String.eqb (Match.name m) "sus4" then Match.root m <? 7
  else true.

Definition outcomeCheck (uniquePitchClasses : list Z) : bool :=
  forallb allowedOutcome (finalOutcomes uniquePitchClasses).

(** The close voicing of each training chord type, as intervals above
    the root. *)
Definition TRAINING_VOICINGS : list (list Z) :=
  [[0; 4; 7]; [0; 3; 7]; [0; 4; 7; 11]; [0; 3; 7; 10]; [0; 4; 7; 10]; [0; 3; 6];
   [0; 2; 7]; [0; 5; 7]].

(** The training chord of root index [rootIndex] and type index
    [typeIndex] in root position from middle C up. *)
Definition voicingOf (rootIndex typeIndex : nat) : list Z :=
  map (fun i => 60 + Z.of_nat rootIndex + i) (nth typeIndex TRAINING_VOICINGS []).

(** The targets that can be matched: all but the minor triads, the sus2
    chords on the roots of index 5 and more, and the sus4 chords on the
    roots of index 7 and more. *)
Definition winnable (rootIndex typeIndex : nat) : bool :=
  match typeIndex with
  | 1%nat => false
  | 6%nat => (rootIndex <? 5)%nat
  | 7%nat => (rootIndex <? 7)%nat
  | _ => true
  end.

(** The close voicing wins the target. *)
Definition wonByVoicing (rootIndex typeIndex : nat) : bool :=
  match Chorduroy.targetAt rootIndex typeIndex,
        Lib.analyzeChord (voicingOf rootIndex typeIndex) with
  | Some t, Normal (Some a) => Chorduroy.isMatch t a
  | _, _ => false
  end.

(* ================================================================= *)
(** ** Facts about the JavaScript primitives *)
(* ================================================================= *)

Section SortFacts.

Context {A : Type} (cmp : A -> A -> Z).

Lemma insertBy_perm (x : A) (l : list A) :
  Permutation (insertBy cmp x l) (x :: l).
Proof.
  induction l as [|y l IH]; simpl.
  - reflexivity.
  - destruct (cmp x y <=? 0).
    + reflexivity.
    + rewrite IH. apply perm_swap.
Qed.

Lemma sort_perm (l : list A) : Permutation (sort cmp l) l.
Proof.
  induction l as [|x l IH]; simpl.
  - reflexivity.
  - unfold sort in *. simpl. rewrite insertBy_perm. now apply perm_skip.
Qed.

Lemma sort_In (l : list A) (x : A) : In x (sort cmp l) <-> In x l.
Proof.
  split; apply Permutation_in; [|symmetry]; apply sort_perm.
Qed.

Lemma sort_length (l : list A) : List.length (sort cmp l) = List.length l.
Proof. apply Permutation_length, sort_perm. Qed.

Hypothesis cmp_total : forall a b, (before cmp) a b \/ (before cmp) b a.
Hypothesis cmp_trans : forall a b c, (before cmp) a b -> (before cmp) b c -> (before cmp) a c.

Lemma insertBy_sorted (x : A) (l : list A) :
  StronglySorted (before cmp) l -> StronglySorted (before cmp) (insertBy cmp x l).
Proof.
  induction 1 as [|y l Hs IH Hy]; simpl.
  - constructor; [constructor | constructor].
  - destruct (cmp x y <=? 0) eqn:E.
    + apply Z.leb_le in E.
      constructor; [now constructor|].
      constructor; [exact E|].
      rewrite Forall_forall in *. intros z Hz. eapply cmp_trans; eauto.
    + apply Z.leb_gt in E.
      constructor; [exact IH|].
      rewrite Forall_forall in *. intros z Hz.
      apply (Permutation_in _ (insertBy_perm x l)) in Hz.
      destruct Hz as [<-|Hz]; [|now apply Hy].
      destruct (cmp_total y x) as [H|H]; [exact H|unfold before in H; lia].
Qed.

Lemma sort_sorted (l : list A) : StronglySorted (before cmp) (sort cmp l).
Proof.
  induction l as [|x l IH]; simpl.
  - constructor.
  - apply insertBy_sorted, IH.
Qed.

End SortFacts.


Lemma ascending_total (a b : Z) : before ascending a b \/ before ascending b a.
Proof. unfold before, ascending. lia. Qed.

Lemma ascending_trans (a b c : Z) :
  before ascending a b -> before ascending b c -> before ascending a c.
Proof. unfold before, ascending. lia. Qed.

Lemma sort_ascending_sorted (l : list Z) : StronglySorted Z.le (sort ascending l).
Proof.
  assert (H := sort_sorted ascending ascending_total ascending_trans l).
  induction H as [|x s Hs IH Hx]; constructor; [exact IH|].
  eapply Forall_impl; [|exact Hx]. unfold before, ascending. intros; lia.
Qed.

Lemma has_In (xs : list Z) (x : Z) : has xs x = true <-> In x xs.
Proof.
  unfold has. rewrite existsb_exists. split.
  - intros [y [Hy E]]. apply Z.eqb_eq in E. now subst.
  - intros H. exists x. split; [exact H|apply Z.eqb_refl].
Qed.

Lemma has_false (xs : list Z) (x : Z) : has xs x = false <-> ~ In x xs.
Proof.
  rewrite <- has_In. destruct (has xs x); split; intros; congruence.
Qed.

Lemma fromSet_acc (xs acc : list Z) :
  let r := fold_left (fun acc x => if has acc x then acc else (acc ++ [x])%list) xs acc in
  (forall x, In x r <-> In x acc \/ In x xs) /\ (NoDup acc -> NoDup r).
Proof.
  revert acc. induction xs as [|y xs IH]; intros acc; simpl.
  - split; [intros x; tauto | auto].
  - destruct (has acc y) eqn:E.
    + destruct (IH acc) as [H1 H2]. split; [|exact H2].
      intros x. rewrite H1. apply has_In in E. intuition (subst; auto).
    + destruct (IH (acc ++ [y])%list) as [H1 H2]. split.
      * intros x. rewrite H1, in_app_iff. simpl. tauto.
      * intros Hn. apply H2. apply has_false in E.
        apply NoDup_app; auto.
        -- constructor; [intros []|constructor].
        -- intros a Ha [<-|[]]. auto.
  Qed.

Lemma fromSet_In (xs : list Z) (x : Z) : In x (fromSet xs) <-> In x xs.
Proof.
  unfold fromSet. destruct (fromSet_acc xs []) as [H _]. rewrite H. simpl. tauto.
Qed.

Lemma fromSet_NoDup (xs : list Z) : NoDup (fromSet xs).
Proof.
  unfold fromSet. destruct (fromSet_acc xs []) as [_ H]. apply H. constructor.
Qed.

(** Two ascending lists without repetition that hold the same numbers
    are the same list. *)
Lemma ascending_unique (l1 l2 : list Z) :
  StronglySorted Z.le l1 -> NoDup l1 ->
  StronglySorted Z.le l2 -> NoDup l2 ->
  (forall x, In x l1 <-> In x l2) -> l1 = l2.
Proof.
  intros S1. revert l2. induction S1 as [|a l1 S1 IH F1]; intros l2 N1 S2 N2 E.
  - destruct l2 as [|b l2]; [reflexivity|]. destruct (proj2 (E b)). now left.
  - destruct S2 as [|b l2 S2 F2].
    + destruct (proj1 (E a)). now left.
    + inversion N1 as [|? ? Na N1']; subst. inversion N2 as [|? ? Nb N2']; subst.
      rewrite Forall_forall in F1, F2.
      assert (a = b).
      { destruct (proj1 (E a) (or_introl eq_refl)) as [->|Ha]; [reflexivity|].
        destruct (proj2 (E b) (or_introl eq_refl)) as [->|Hb]; [reflexivity|].
        specialize (F1 _ Hb). specialize (F2 _ Ha). lia. }
      subst b. f_equal. apply IH; auto.
      intros x. split; intros Hx.
      * destruct (proj1 (E x) (or_intror Hx)) as [->|]; [contradiction|assumption].
      * destruct (proj2 (E x) (or_intror Hx)) as [->|]; [contradiction|assumption].
Qed.

(* ================================================================= *)
(** ** Pitch classes of an input *)
(* ================================================================= *)

Lemma pitchClassesOf_In (l : list Z) (p : Z) :
  In p (Lib.pitchClassesOf l) <-> exists n, In n l /\ p = Z.rem n 12.
Proof.
  unfold Lib.pitchClassesOf. rewrite sort_In, fromSet_In, in_map_iff.
  split; intros [n H]; exists n; intuition.
Qed.

Lemma pitchClassesOf_sorted (l : list Z) : StronglySorted Z.le (Lib.pitchClassesOf l).
Proof. apply sort_ascending_sorted. Qed.

Lemma pitchClassesOf_NoDup (l : list Z) : NoDup (Lib.pitchClassesOf l).
Proof.
  unfold Lib.pitchClassesOf.
  eapply Permutation_NoDup; [symmetry; apply sort_perm|apply fromSet_NoDup].
Qed.


Lemma pitchClassesOf_range (l : list Z) (p : Z) :
  midiNotes l -> In p (Lib.pitchClassesOf l) -> 0 <= p < 12.
Proof.
  intros Hl Hp. apply pitchClassesOf_In in Hp. destruct Hp as [n [Hn ->]].
  unfold midiNotes in Hl. rewrite Forall_forall in Hl. specialize (Hl _ Hn).
  apply Z.rem_bound_pos; lia.
Qed.

Lemma midiNotes_sort (l : list Z) : midiNotes l -> midiNotes (sort ascending l).
Proof.
  unfold midiNotes. rewrite !Forall_forall. intros H x Hx. apply H.
  now apply sort_In in Hx.
Qed.

(* ================================================================= *)
(** ** Enumeration of the pitch-class sets *)
(* ================================================================= *)

Lemma forallSubsets_filter (universe : list Z) :
  forall check, forallSubsets universe check = true ->
  forall keep, check (filter keep universe) = true.
Proof.
  induction universe as [|x rest IH]; intros check H keep; simpl in *.
  - exact H.
  - apply andb_true_iff in H. destruct H as [H0 H1].
    destruct (keep x).
    + apply (IH (fun s => check (x :: s))). exact H1.
    + apply IH. exact H0.
Qed.

Lemma StronglySorted_filter {A} (R : A -> A -> Prop) (f : A -> bool) (l : list A) :
  StronglySorted R l -> StronglySorted R (filter f l).
Proof.
  induction 1 as [|x l Hs IH Hx]; simpl; [constructor|].
  destruct (f x); [|exact IH]. constructor; [exact IH|].
  rewrite Forall_forall in *. intros y Hy. apply filter_In in Hy. now apply Hx.
Qed.

Lemma in_PITCH_CLASSES (p : Z) : In p PITCH_CLASSES <-> 0 <= p < 12.
Proof.
  unfold PITCH_CLASSES. simpl. lia.
Qed.

(** The pitch-class array of MIDI notes is one of the 4096 sub-lists of
    [PITCH_CLASSES]. *)
Lemma pitchClassesOf_filter (l : list Z) :
  midiNotes l ->
  Lib.pitchClassesOf l = filter (has (Lib.pitchClassesOf l)) PITCH_CLASSES.
Proof.
  intros Hl. apply ascending_unique.
  - apply pitchClassesOf_sorted.
  - apply pitchClassesOf_NoDup.
  - apply StronglySorted_filter. unfold PITCH_CLASSES.
    repeat (constructor; [|repeat constructor; lia]). constructor.
  - apply NoDup_filter. unfold PITCH_CLASSES.
    repeat (constructor; [simpl; lia|]). constructor.
  - intros x. rewrite filter_In, has_In, in_PITCH_CLASSES. split; [|tauto].
    intros Hx. split; [|exact Hx]. eapply pitchClassesOf_range; eauto.
Qed.

(** A property checked on every sub-list of [PITCH_CLASSES] holds of the
    pitch-class array of every input of MIDI notes. *)
Lemma pitchClassSets_ind (check : list Z -> bool) :
  forallSubsets PITCH_CLASSES check = true ->
  forall l, midiNotes l -> check (Lib.pitchClassesOf l) = true.
Proof.
  intros H l Hl. rewrite (pitchClassesOf_filter l Hl).
  now apply forallSubsets_filter.
Qed.

(* ================================================================= *)
(** ** What the catalog yields on each pitch-class set *)
(* ================================================================= *)

Lemma catalog_exhaustive : forallSubsets PITCH_CLASSES catalogCheck = true.
Proof. vm_cast_no_check (eq_refl true). Qed.

(* ================================================================= *)
(** ** Shape of the generated matches *)
(* ================================================================= *)

Lemma rootedMatch_inv intervals intervalSet potentialRoot pattern m :
  In m (Lib.rootedMatch intervals intervalSet potentialRoot pattern) ->
  Match.pattern m = pattern /\ Match.root m = potentialRoot
  /\ Match.isRootless m = false
  /\ (Match.isExact m = true ->
      Match.score m = ChordPattern.priority pattern * 100 + 1000).
Proof.
  unfold Lib.rootedMatch.
  repeat match goal with
         | |- context [if ?c then _ else _] => destruct c
         end; simpl; intros H;
    repeat match goal with
           | H : _ \/ _ |- _ => destruct H
           | H : False |- _ => destruct H
           end; subst; simpl; repeat split; auto; discriminate.
Qed.

Lemma rootlessMatch_inv intervals intervalSet potentialRoot pattern m :
  In m (Lib.rootlessMatch intervals intervalSet potentialRoot pattern) ->
  Match.pattern m = pattern /\ Match.root m = potentialRoot
  /\ Match.isRootless m = true /\ Match.isExact m = false.
Proof.
  unfold Lib.rootlessMatch.
  repeat match goal with
         | |- context [if ?c then _ else _] => destruct c
         end; simpl; intros H;
    repeat match goal with
           | H : _ \/ _ |- _ => destruct H
           | H : False |- _ => destruct H
           end; subst; simpl; auto.
Qed.

(** Every generated match carries a catalog pattern; a match that is not
    rootless has its root among the played pitch classes, a rootless
    match has not. *)
Lemma generateMatches_inv (uniquePitchClasses : list Z) (m : Match.t) :
  In m (Lib.generateMatches uniquePitchClasses) ->
  In (Match.pattern m) Lib.CHORD_PATTERNS
  /\ ((Match.isRootless m = false /\ In (Match.root m) uniquePitchClasses
       /\ (Match.isExact m = true ->
           Match.score m = ChordPattern.priority (Match.pattern m) * 100 + 1000))
      \/ (Match.isRootless m = true /\ Match.isExact m = false
          /\ ~ In (Match.root m) uniquePitchClasses
          /\ 0 <= Match.root m < 12)).
Proof.
  unfold Lib.generateMatches, Lib.rootedMatches, Lib.rootlessMatches.
  rewrite in_app_iff, !in_flat_map.
  intros [[r [Hr H]]|[r [Hr H]]].
  - cbv zeta in H. apply in_flat_map in H. destruct H as [p [Hp H]].
    apply rootedMatch_inv in H. destruct H as (-> & -> & Hl & Hs).
    split; [exact Hp|]. left. auto.
  - destruct (has uniquePitchClasses r) eqn:E; [destruct H|].
    cbv zeta in H. apply in_flat_map in H. destruct H as [p [Hp H]].
    apply rootlessMatch_inv in H. destruct H as (-> & -> & Hl & He).
    split; [exact Hp|]. right. repeat split; auto.
    + now apply has_false.
    + change (In r PITCH_CLASSES) in Hr. apply in_PITCH_CLASSES in Hr. lia.
    + change (In r PITCH_CLASSES) in Hr. apply in_PITCH_CLASSES in Hr. lia.
Qed.

(* ================================================================= *)
(** ** Selection of the best match *)
(* ================================================================= *)

Lemma byScore_total (a b : Match.t) :
  before Lib.byScoreDescending a b \/ before Lib.byScoreDescending b a.
Proof. unfold before, Lib.byScoreDescending. lia. Qed.

Lemma byScore_trans (a b c : Match.t) :
  before Lib.byScoreDescending a b -> before Lib.byScoreDescending b c ->
  before Lib.byScoreDescending a c.
Proof. unfold before, Lib.byScoreDescending. lia. Qed.

(** The first match of the sorted array has the highest score. *)
Lemma sorted_head_max (matches rest : list Match.t) (best : Match.t) :
  sort Lib.byScoreDescending matches = best :: rest ->
  In best matches /\ forall m, In m matches -> Match.score m <= Match.score best.
Proof.
  intros E. split.
  - apply (sort_In Lib.byScoreDescending). rewrite E. now left.
  - intros m Hm. apply (sort_In Lib.byScoreDescending) in Hm.
    assert (S := sort_sorted Lib.byScoreDescending byScore_total byScore_trans matches).
    rewrite E in *. inversion S as [|? ? _ F]; subst.
    destruct Hm as [<-|Hm]; [lia|].
    rewrite Forall_forall in F. specialize (F _ Hm).
    unfold before, Lib.byScoreDescending in F. lia.
Qed.

Lemma sort_cons {A} (cmp : A -> A -> Z) (l : list A) (x : A) :
  In x l -> exists best rest, sort cmp l = best :: rest.
Proof.
  intros H. destruct (sort cmp l) as [|b r] eqn:E; [|eauto].
  apply (sort_In cmp) in H. rewrite E in H. destruct H.
Qed.

Lemma aboveInexact_spec (matches : list Match.t) (e : Match.t) :
  aboveInexact matches e = true <->
  forall n, In n matches -> Match.isExact n = false -> Match.score n < Match.score e.
Proof.
  unfold aboveInexact. rewrite forallb_forall. split; intros H n Hn.
  - intros Hx. specialize (H n Hn). rewrite Hx in H. simpl in H. lia.
  - destruct (Match.isExact n) eqn:Hx; [reflexivity|]. simpl.
    apply Z.ltb_lt. auto.
Qed.

(** When some exact match is above every inexact one, the selected match
    is exact. *)
Lemma exact_on_top (matches : list Match.t) (e : Match.t) :
  In e matches -> Match.isExact e = true -> aboveInexact matches e = true ->
  exists best rest,
    sort Lib.byScoreDescending matches = best :: rest /\ Match.isExact best = true.
Proof.
  intros He Hx Ha.
  destruct (sort_cons Lib.byScoreDescending matches e He) as [best [rest E]].
  exists best, rest. split; [exact E|].
  apply sorted_head_max in E. destruct E as [Hb Hmax].
  destruct (Match.isExact best) eqn:Hbx; [reflexivity|].
  rewrite aboveInexact_spec in Ha. specialize (Ha best Hb Hbx).
  specialize (Hmax e He). lia.
Qed.

Lemma nameIn_spec (names : list string) (m : Match.t) :
  nameIn names m = true <-> In (Match.name m) names.
Proof.
  unfold nameIn. rewrite existsb_exists. split.
  - intros [x [Hx E]]. apply String.eqb_eq in E. now subst.
  - intros H. exists (Match.name m). split; [exact H|apply String.eqb_refl].
Qed.

(** The three facts of [catalogCheck], for the matches of an input of
    MIDI notes. *)
Lemma catalog_facts (activeNotes : list Z) :
  midiNotes activeNotes ->
  let matches := matchesOf activeNotes in
  (matches = [] ->
   (List.length (Lib.pitchClassesOf (sort ascending activeNotes)) <= 1)%nat)
  /\ (forall e, In e matches -> Match.isExact e = true ->
      ~ In (Match.name e) OUTSCORED -> aboveInexact matches e = true)
  /\ ((exists e, In e matches /\ Match.isExact e = true
                 /\ ~ In (Match.name e) ["5"; "add9"]) ->
      exists e, In e matches /\ Match.isExact e = true
                /\ aboveInexact matches e = true).
Proof.
  intros Hl.
  assert (H := pitchClassSets_ind catalogCheck catalog_exhaustive
                 (sort ascending activeNotes) (midiNotes_sort _ Hl)).
  unfold catalogCheck in H. fold (matchesOf activeNotes) in H.
  apply andb_true_iff in H. destruct H as [H H3].
  apply andb_true_iff in H. destruct H as [H1 H2].
  cbv zeta. repeat split.
  - intros E. rewrite E in H1. now apply Nat.leb_le.
  - intros e He Hx Hn. rewrite forallb_forall in H2. specialize (H2 e He).
    rewrite Hx in H2. destruct (nameIn OUTSCORED e) eqn:En; [|exact H2].
    apply nameIn_spec in En. contradiction.
  - intros [e (He & Hx & Hn)].
    destruct (existsb _ _) eqn:Ex in H3.
    + apply existsb_exists in H3. destruct H3 as [e' [He' H3]].
      exists e'. destruct (Match.isExact e'); [auto|discriminate].
    + assert (existsb (fun e => Match.isExact e && negb (nameIn ["5"; "add9"] e))
                      (matchesOf activeNotes) = true) as C.
      { apply existsb_exists. exists e. split; [exact He|].
        rewrite Hx. destruct (nameIn ["5"; "add9"] e) eqn:En; [|reflexivity].
        apply nameIn_spec in En. contradiction. }
      congruence.
Qed.

(* ================================================================= *)
(** ** Scoring of exact matches (C2) *)
(* ================================================================= *)

(** C2, as stated, fails on the power chord C-G: the exact match of
    pattern 5 at root C scores 20*100 + 1000 = 3000, the rootless
    Maj7 match at root Ab (5th omitted) scores 45*70 - 80 = 3070, and the
    selected best match is that rootless match, not the exact one. *)
Lemma exact_match_outscored_on_power_chord :
  let matches := matchesOf [60; 67] in
  (exists e n, In e matches /\ In n matches
               /\ Match.isExact e = true /\ Match.name e = "5"
               /\ Match.score e = 20 * 100 + 1000
               /\ Match.isExact n = false /\ Match.isRootless n = true
               /\ Match.name n = "Maj7" /\ Match.root n = 8
               /\ Match.score e < Match.score n)
  /\ (exists best rest,
         sort Lib.byScoreDescending matches = best :: rest
         /\ Match.isExact best = false).
Proof.
  split.
  - exists (Match.mk (ChordPattern.mk "5" [0; 7] 20 None) 0 3000 false true).
    exists (Match.mk (ChordPattern.mk "Maj7" [0; 4; 7; 11] 45 (Some true))
                     8 3070 true false).
    vm_compute. intuition congruence.
  - eexists. eexists. split; [vm_compute; reflexivity|reflexivity].
Qed.

(** C2 (amended).  For every input of MIDI notes: an exact match scores
    priority*100 + 1000; an exact match of a pattern other than 5,
    quartal, quartal4, add9 and madd11 scores strictly more than every
    match generated for the same input that is not exact (rooted
    superset, rooted omit-5th, rootless, rootless omit-5th); and whenever
    an exact match of a pattern other than 5 and add9 exists, the
    selected best match (the first of the sorted array) is an exact
    match. *)
Theorem exact_match_outscores_inexact (activeNotes : list Z) :
  midiNotes activeNotes ->
  let matches := matchesOf activeNotes in
  (forall e, In e matches -> Match.isExact e = true ->
             Match.score e = ChordPattern.priority (Match.pattern e) * 100 + 1000)
  /\ (forall e n, In e matches -> In n matches ->
                  Match.isExact e = true -> ~ In (Match.name e) OUTSCORED ->
                  Match.isExact n = false ->
                  Match.score n < Match.score e)
  /\ ((exists e, In e matches /\ Match.isExact e = true
                 /\ ~ In (Match.name e) ["5"; "add9"]) ->
      exists best rest,
        sort Lib.byScoreDescending matches = best :: rest
        /\ Match.isExact best = true).
Proof.
  intros Hl matches.
  destruct (catalog_facts activeNotes Hl) as (_ & H2 & H3).
  fold matches in H2, H3. repeat split.
  - intros e He Hx.
    destruct (generateMatches_inv _ e He) as [_ [(_ & _ & Hs)|(_ & Hn & _)]];
      [auto|congruence].
  - intros e n He Hn Hx Ho Hnx.
    specialize (H2 e He Hx Ho). rewrite aboveInexact_spec in H2. auto.
  - intros Hex. destruct (H3 Hex) as [e (He & Hx & Ha)].
    eapply exact_on_top; eauto.
Qed.

Lemma exact_match_outscores_inexact_witness :
  midiNotes [60; 63; 67; 70]
  /\ let matches := matchesOf [60; 63; 67; 70] in
     (forall e, In e matches -> Match.isExact e = true ->
                Match.score e = ChordPattern.priority (Match.pattern e) * 100 + 1000)
     /\ (forall e n, In e matches -> In n matches ->
                     Match.isExact e = true -> ~ In (Match.name e) OUTSCORED ->
                     Match.isExact n = false ->
                     Match.score n < Match.score e)
     /\ ((exists e, In e matches /\ Match.isExact e = true
                    /\ ~ In (Match.name e) ["5"; "add9"]) ->
         exists best rest,
           sort Lib.byScoreDescending matches = best :: rest
           /\ Match.isExact best = true).
Proof.
  assert (H : midiNotes [60; 63; 67; 70]) by (repeat constructor; lia).
  split; [exact H|].
  exact (exact_match_outscores_inexact [60; 63; 67; 70] H).
Defined.

(* ================================================================= *)
(** ** Literal scenarios (C4, C5, C6) *)
(* ================================================================= *)

(** C4.  For the voicing [60,64,67,70,75] (D#5 above the major 3rd) the
    quality contains "#9" and does not contain "b3"; for the voicing
    [60,63,64,67,70] (D# below the major 3rd E) the quality contains
    "(add b3)". *)
Theorem sharp9_above_cluster_below :
  (exists a, Lib.analyzeChord [60; 64; 67; 70; 75] = Normal (Some a)
             /\ includes (ChordAnalysis.quality a) "#9" = true
             /\ includes (ChordAnalysis.quality a) "b3" = false)
  /\ (exists a, Lib.analyzeChord [60; 63; 64; 67; 70] = Normal (Some a)
                /\ includes (ChordAnalysis.quality a) "(add b3)" = true).
Proof.
  split; eexists; (split; [vm_compute; reflexivity|]); vm_compute; auto.
Qed.

(** C5.  analyzeChord([60,63,67,70]) has root "C" and quality "min7":
    the exact min7 match at root C, score 45*100 + 1000, is first in the
    sorted array and every other candidate scores strictly less, among
    them the exact 6 chord at root Eb and the rootless Maj9 at root Ab. *)
Theorem c_minor_seventh :
  (exists a, Lib.analyzeChord [60; 63; 67; 70] = Normal (Some a)
             /\ ChordAnalysis.root a = "C"
             /\ ChordAnalysis.quality a = "min7")
  /\ (exists best rest,
         sort Lib.byScoreDescending (matchesOf [60; 63; 67; 70]) = best :: rest
         /\ Match.name best = "min7" /\ Match.root best = 0
         /\ Match.isExact best = true
         /\ Match.score best = 45 * 100 + 1000
         /\ Forall (fun m => Match.score m < Match.score best) rest
         /\ (exists m, In m rest /\ Match.name m = "6" /\ Match.root m = 3
                       /\ Match.isExact m = true)
         /\ (exists m, In m rest /\ Match.name m = "Maj9" /\ Match.root m = 8
                       /\ Match.isRootless m = true)).
Proof.
  split.
  - eexists. split; [vm_compute; reflexivity|]. split; reflexivity.
  - eexists. eexists. split; [vm_compute; reflexivity|].
    repeat (split; [reflexivity|]). split; [|split].
    + repeat (constructor; [reflexivity|]). constructor.
    + eexists. split; [left; reflexivity|]. repeat split.
    + eexists. split; [right; left; reflexivity|]. repeat split.
Qed.

(** C6.  analyzeChord([64,67,71,72]) has root "C", quality "Maj7", bass
    "E" and a display that contains "/E": the best match is the exact
    Maj7 at root C, which is not rootless; the bass is the lowest note's
    pitch class spelled relative to that root; the display is
    rootName + patternName + "/" + bassName. *)
Theorem c_major_seventh_first_inversion :
  (exists a, Lib.analyzeChord [64; 67; 71; 72] = Normal (Some a)
             /\ ChordAnalysis.root a = "C"
             /\ ChordAnalysis.quality a = "Maj7"
             /\ ChordAnalysis.bass a = "E"
             /\ includes (ChordAnalysis.display a) "/E" = true
             /\ ChordAnalysis.display a
                = ChordAnalysis.root a ++ ChordAnalysis.quality a
                                       ++ "/" ++ ChordAnalysis.bass a
             /\ ChordAnalysis.detectedRootPitchClass a = 0
             /\ ChordAnalysis.isRootless a = Some false)
  /\ (exists best rest,
         sort Lib.byScoreDescending (matchesOf [64; 67; 71; 72]) = best :: rest
         /\ Match.name best = "Maj7" /\ Match.root best = 0
         /\ Match.isExact best = true /\ Match.isRootless best = false)
  /\ Lib.getChordToneSpelling (Z.rem 64 12) 0 = Normal "E".
Proof.
  split; [|split].
  - eexists. split; [vm_compute; reflexivity|]. repeat split.
  - eexists. eexists. split; [vm_compute; reflexivity|]. repeat split.
  - reflexivity.
Qed.

(* ================================================================= *)
(** ** Spelling of the root (C8) *)
(* ================================================================= *)

Lemma getRootSpelling_3 (bassContext : option (list Z)) :
  Lib.getRootSpelling 3 bassContext =
  match bassContext with
  | Some ctx =>
      if (has ctx 6 || has ctx 1 || has ctx 8 || has ctx 4 || has ctx 11)
           && negb (has ctx 10 || has ctx 3 || has ctx 5)
           && (has ctx 4 || has ctx 11 || has ctx 6)
      then Normal "D#" else Normal "Eb"
  | None => Normal "Eb"
  end.
Proof. destruct bassContext; reflexivity. Qed.

(** C8.  getRootSpelling(3) with no context is "Eb";
    getRootSpelling(3, [4,11,6]) is "D#"; pitch class 3 is spelled "Eb"
    unless it is spelled "D#", which happens exactly when a context is
    given that includes 4, 11 or 6 (sharp indicators) and none of the
    flat indicators 10, 3 and 5. *)
Theorem root_spelling_of_pitch_class_3 :
  Lib.getRootSpelling 3 None = Normal "Eb"
  /\ Lib.getRootSpelling 3 (Some [4; 11; 6]) = Normal "D#"
  /\ forall bassContext,
      (Lib.getRootSpelling 3 bassContext = Normal "Eb"
       \/ Lib.getRootSpelling 3 bassContext = Normal "D#")
      /\ (Lib.getRootSpelling 3 bassContext = Normal "D#" <->
          exists ctx, bassContext = Some ctx
                      /\ (In 4 ctx \/ In 11 ctx \/ In 6 ctx)
                      /\ ~ In 10 ctx /\ ~ In 3 ctx /\ ~ In 5 ctx).
Proof.
  split; [reflexivity|]. split; [reflexivity|].
  intros bassContext. rewrite getRootSpelling_3.
  destruct bassContext as [ctx|].
  - assert (C : (has ctx 6 || has ctx 1 || has ctx 8 || has ctx 4 || has ctx 11)
                  && negb (has ctx 10 || has ctx 3 || has ctx 5)
                  && (has ctx 4 || has ctx 11 || has ctx 6) = true
                <-> (In 4 ctx \/ In 11 ctx \/ In 6 ctx)
                    /\ ~ In 10 ctx /\ ~ In 3 ctx /\ ~ In 5 ctx).
    { rewrite <- !has_In.
      destruct (has ctx 6), (has ctx 1), (has ctx 8), (has ctx 4), (has ctx 11),
        (has ctx 10), (has ctx 3), (has ctx 5); simpl; intuition congruence. }
    destruct (_ && _ && _).
    + split; [auto|]. split; [|reflexivity].
      intros _. exists ctx. split; [reflexivity|]. now apply C.
    + split; [auto|]. split; [discriminate|].
      intros [c [E H]]. injection E as <-. apply C in H. discriminate.
  - split; [auto|]. split; [discriminate|]. intros [c [E _]]. discriminate.
Qed.

(** A context that holds pitch class 3 itself is a flat context. *)
Lemma getRootSpelling_3_sounded (ctx : list Z) :
  In 3 ctx -> Lib.getRootSpelling 3 (Some ctx) = Normal "Eb".
Proof.
  intros H. rewrite getRootSpelling_3. apply has_In in H. rewrite H.
  now rewrite orb_true_r, andb_false_r.
Qed.

(* ================================================================= *)
(** ** The inline copy and the library (C10) *)
(* ================================================================= *)

Lemma App_getRootSpelling r ctx : App.getRootSpelling r ctx = Lib.getRootSpelling r ctx.
Proof. reflexivity. Qed.

Lemma App_getChordToneSpelling p r :
  App.getChordToneSpelling p r = Lib.getChordToneSpelling p r.
Proof. reflexivity. Qed.

Lemma App_normalizeIntervals l : App.normalizeIntervals l = Lib.normalizeIntervals l.
Proof. reflexivity. Qed.

Lemma App_CHORD_PATTERNS : App.CHORD_PATTERNS = Lib.CHORD_PATTERNS.
Proof. reflexivity. Qed.

Lemma App_calculateExtraNotesPenalty e p :
  App.calculateExtraNotesPenalty e p = Lib.calculateExtraNotesPenalty e p.
Proof. reflexivity. Qed.

Lemma App_generateMatches u : App.generateMatches u = Lib.generateMatches u.
Proof.
  unfold App.generateMatches, Lib.generateMatches,
    App.rootedMatches, Lib.rootedMatches, App.rootlessMatches, Lib.rootlessMatches.
  rewrite App_CHORD_PATTERNS. reflexivity.
Qed.

Lemma App_calculateActualIntervals s r :
  App.calculateActualIntervals s r = Lib.calculateActualIntervals s r.
Proof. reflexivity. Qed.

Lemma App_disambiguateTensions ai r a b c d :
  App.disambiguateTensions ai r a b c d = Lib.disambiguateTensions ai r a b c d.
Proof. reflexivity. Qed.

Lemma App_disambiguate s u ms b :
  App.disambiguate s u ms b = Lib.disambiguate s u ms b.
Proof. reflexivity. Qed.

Lemma App_assemble u b m ai : App.assemble u b m ai = Lib.assemble u b m ai.
Proof. reflexivity. Qed.

Lemma App_fallback s u b : App.fallback s u b = Lib.fallback s u b.
Proof. reflexivity. Qed.

(** C10.  The analyzeChord defined inline in the application file and
    the analyzeChord exported by the library return the same result on
    every input: same null case, same catalog, same scoring, same
    disambiguation, same spelling. *)
Theorem inline_analyzeChord_agrees_with_library (activeNotes : list Z) :
  App.analyzeChord activeNotes = Lib.analyzeChord activeNotes.
Proof.
  unfold App.analyzeChord, Lib.analyzeChord.
  destruct (List.length activeNotes <? 1)%nat; [reflexivity|].
  change (App.pitchClassesOf (sort ascending activeNotes))
    with (Lib.pitchClassesOf (sort ascending activeNotes)).
  rewrite App_generateMatches.
  destruct (List.length _ =? 0)%nat; [apply App_fallback|].
  destruct (sort App.byScoreDescending _) as [|best rest] eqn:E.
  - change App.byScoreDescending with Lib.byScoreDescending in E. now rewrite E.
  - change App.byScoreDescending with Lib.byScoreDescending in E. rewrite E.
    rewrite App_disambiguate.
    destruct (Lib.disambiguate _ _ _ _) as [b ai]. apply App_assemble.
Qed.

(* ================================================================= *)
(** ** Post-match disambiguation: what a block may do to [best] *)
(* ================================================================= *)

Lemma sameButName_refl (m : Match.t) : sameButName m m.
Proof. repeat split. Qed.

Lemma sameButName_rename (m b : Match.t) (n : string) :
  sameButName m b -> sameButName m (Match.rename b n).
Proof. unfold sameButName. simpl. tauto. Qed.

Lemma blockStep_stemsFrom (matches : list Match.t) (b b' : Match.t) :
  blockStep matches b b' -> stemsFrom matches b -> stemsFrom matches b'.
Proof.
  intros [|m Hm _|n] [m0 [H0 S]].
  - exists m0. auto.
  - exists m. split; [exact Hm|apply sameButName_refl].
  - exists m0. split; [exact H0|now apply sameButName_rename].
Qed.

Lemma blockStep_root (matches : list Match.t) (b b' : Match.t) :
  blockStep matches b b' -> Match.root b' = Match.root b.
Proof. intros [|m _ H|n]; auto. Qed.

Lemma find_at_root (p : Match.t -> bool) (r : Z) (matches : list Match.t) (m : Match.t) :
  find (fun m => p m && (Match.root m =? r)) matches = Some m ->
  In m matches /\ Match.root m = r.
Proof.
  intros H. apply find_some in H. destruct H as [Hin H].
  apply andb_true_iff in H. destruct H as [_ H]. apply Z.eqb_eq in H. auto.
Qed.

Lemma find_at_root_near (p : Match.t -> bool) (r s : Z) (matches : list Match.t)
      (m : Match.t) :
  find (fun m => p m && (Match.root m =? r) && (Match.score m >? s)) matches = Some m ->
  In m matches /\ Match.root m = r.
Proof.
  intros H. apply find_some in H. destruct H as [Hin H].
  apply andb_true_iff in H. destruct H as [H _].
  apply andb_true_iff in H. destruct H as [_ H]. apply Z.eqb_eq in H. auto.
Qed.

Ltac block_cases :=
  repeat match goal with
         | |- context [match find ?f ?l with _ => _ end] =>
             let E := fresh "E" in destruct (find f l) eqn:E
         | |- context [if ?c then _ else _] => destruct c
         | |- context [match negb ?c with _ => _ end] => destruct (negb c)
         end.

Ltac block_solve :=
  first [ apply step_keep
        | apply step_rename
        | match goal with
          | E : find _ _ = Some ?m |- blockStep _ _ ?m =>
              first [ apply find_at_root_near in E | apply find_at_root in E ];
              destruct E; now apply step_switch
          end ].

Lemma resolveSharp9_step matches hasMin3 hasMaj3 tensionInfo best :
  blockStep matches best (Lib.resolveSharp9 matches hasMin3 hasMaj3 tensionInfo best).
Proof. unfold Lib.resolveSharp9. block_cases; block_solve. Qed.

Lemma resolveSharp11_step matches hasTritone hasNatural5 tensionInfo best :
  blockStep matches best
            (Lib.resolveSharp11 matches hasTritone hasNatural5 tensionInfo best).
Proof. unfold Lib.resolveSharp11. block_cases; block_solve. Qed.

Lemma resolveFlat13_step matches hasPitchClass8 hasNatural5 has7th best :
  blockStep matches best
            (Lib.resolveFlat13 matches hasPitchClass8 hasNatural5 has7th best).
Proof. unfold Lib.resolveFlat13. block_cases; block_solve. Qed.

(** The three blocks in sequence. *)
Lemma disambiguate_stemsFrom sorted uniquePitchClasses matches best :
  In best matches ->
  stemsFrom matches (fst (Lib.disambiguate sorted uniquePitchClasses matches best)).
Proof.
  intros Hb. unfold Lib.disambiguate. cbv zeta. simpl fst.
  eapply blockStep_stemsFrom; [apply resolveFlat13_step|].
  eapply blockStep_stemsFrom; [apply resolveSharp11_step|].
  eapply blockStep_stemsFrom; [apply resolveSharp9_step|].
  exists best. split; [exact Hb|apply sameButName_refl].
Qed.

Lemma disambiguate_root sorted uniquePitchClasses matches best :
  Match.root (fst (Lib.disambiguate sorted uniquePitchClasses matches best))
  = Match.root best.
Proof.
  unfold Lib.disambiguate. cbv zeta. simpl fst.
  erewrite blockStep_root by apply resolveFlat13_step.
  erewrite blockStep_root by apply resolveSharp11_step.
  erewrite blockStep_root by apply resolveSharp9_step.
  reflexivity.
Qed.

(* ================================================================= *)
(** ** The ways through [analyzeChord] *)
(* ================================================================= *)

Lemma analyzeChord_path (activeNotes : list Z) : analysisPath activeNotes.
Proof.
  destruct activeNotes as [|n l] eqn:En.
  - now apply path_null.
  - rewrite <- En. assert (Hne : activeNotes <> []) by (subst; discriminate).
    clear En n l.
    assert (Hlen : (List.length activeNotes <? 1)%nat = false).
    { apply Nat.ltb_ge. destruct activeNotes; [congruence|simpl; lia]. }
    destruct (matchesOf activeNotes) as [|m ms] eqn:Em.
    + apply path_fallback; auto.
      unfold Lib.analyzeChord. rewrite Hlen. cbv zeta.
      fold (matchesOf activeNotes). rewrite Em. reflexivity.
    + destruct (sort_cons Lib.byScoreDescending (matchesOf activeNotes) m)
        as [best [rest E]]; [rewrite Em; now left|].
      apply (path_match _ best rest); auto.
      unfold Lib.analyzeChord. rewrite Hlen. cbv zeta.
      fold (matchesOf activeNotes). rewrite Em at 1. simpl (List.length _ =? 0)%nat.
      cbv iota. rewrite E.
      fold (uniquePitchClassesOf activeNotes). fold (bassPitchClassOf activeNotes).
      destruct (Lib.disambiguate _ _ _ _). reflexivity.
Qed.

(* ================================================================= *)
(** ** Roots and spelling along the paths *)
(* ================================================================= *)

Lemma sort_hd_In (l : list Z) : l <> [] -> In (hd 0 (sort ascending l)) l.
Proof.
  intros H. destruct l as [|x l0] eqn:El; [congruence|]. rewrite <- El. clear H.
  destruct (sort_cons ascending l x) as [b [r E]]; [subst; now left|].
  rewrite E. cbn [hd]. apply (sort_In ascending). rewrite E. now left.
Qed.

(** The bass pitch class is one of the unique pitch classes. *)
Lemma bassPitchClassOf_In (activeNotes : list Z) :
  activeNotes <> [] ->
  In (bassPitchClassOf activeNotes) (uniquePitchClassesOf activeNotes).
Proof.
  intros H. unfold bassPitchClassOf, uniquePitchClassesOf.
  apply pitchClassesOf_In. exists (hd 0 (sort ascending activeNotes)).
  split; [|reflexivity]. apply (sort_In ascending). now apply sort_hd_In.
Qed.

Lemma uniquePitchClassesOf_range (activeNotes : list Z) (p : Z) :
  midiNotes activeNotes -> In p (uniquePitchClassesOf activeNotes) -> 0 <= p < 12.
Proof.
  intros H. apply pitchClassesOf_range. now apply midiNotes_sort.
Qed.

(** The selected match, once disambiguated, stems from a generated
    match. *)
Lemma refined_stemsFrom (activeNotes : list Z) (best : Match.t) (rest : list Match.t) :
  sort Lib.byScoreDescending (matchesOf activeNotes) = best :: rest ->
  stemsFrom (matchesOf activeNotes)
            (fst (Lib.disambiguate (sort ascending activeNotes)
                                   (uniquePitchClassesOf activeNotes)
                                   (best :: rest) best)).
Proof.
  intros E.
  destruct (disambiguate_stemsFrom (sort ascending activeNotes)
              (uniquePitchClassesOf activeNotes) (best :: rest) best)
    as [m [Hm S]]; [now left|].
  exists m. split; [|exact S].
  apply (sort_In Lib.byScoreDescending). now rewrite E.
Qed.

Lemma in_range_cases (r : Z) :
  0 <= r < 12 ->
  r = 0 \/ r = 1 \/ r = 2 \/ r = 3 \/ r = 4 \/ r = 5 \/ r = 6 \/ r = 7
  \/ r = 8 \/ r = 9 \/ r = 10 \/ r = 11.
Proof. lia. Qed.

Lemma scaleEntry_total (r i : Z) :
  0 <= r < 12 -> exists s, Lib.scaleEntry r i = Normal s.
Proof.
  intros H. apply in_range_cases in H.
  repeat (destruct H as [H|H]; [subst r; eexists; reflexivity|]).
  subst r; eexists; reflexivity.
Qed.

Lemma getChordToneSpelling_total (p r : Z) :
  0 <= r < 12 -> exists s, Lib.getChordToneSpelling p r = Normal s.
Proof. intros H. unfold Lib.getChordToneSpelling. now apply scaleEntry_total. Qed.

Lemma getRootSpelling_total (r : Z) (ctx : option (list Z)) :
  0 <= r < 12 -> exists s, Lib.getRootSpelling r ctx = Normal s.
Proof.
  intros H. unfold Lib.getRootSpelling.
  repeat match goal with
         | |- context [if ?c then _ else _] => destruct c
         end; eauto using scaleEntry_total.
Qed.

Lemma mapM_total {A B} (f : A -> Completion B) (l : list A) :
  (forall x, In x l -> exists y, f x = Normal y) -> exists ys, mapM f l = Normal ys.
Proof.
  induction l as [|x l IH]; intros H; simpl.
  - eauto.
  - destruct (H x (or_introl eq_refl)) as [y ->].
    destruct IH as [ys ->]; [intros; apply H; now right|]. simpl. eauto.
Qed.

(* ================================================================= *)
(** ** Frame of the post-match disambiguation (C7) *)
(* ================================================================= *)

(** C7.  Each of the three disambiguation blocks keeps [best], or
    switches to a match already present in [matches] (at the same root),
    or renames [best] in place; a rename in place yields a match with
    the same root, score, flags and the same pattern intervals, priority
    and allowOmit5th.  Hence the intervals of a returned analysis are
    the intervals of the catalog pattern of a generated match, of which
    the final best match is a copy up to the pattern name. *)
Theorem disambiguation_only_renames_or_switches :
  (forall matches hasMin3 hasMaj3 tensionInfo best,
      blockStep matches best
                (Lib.resolveSharp9 matches hasMin3 hasMaj3 tensionInfo best))
  /\ (forall matches hasTritone hasNatural5 tensionInfo best,
         blockStep matches best
                   (Lib.resolveSharp11 matches hasTritone hasNatural5 tensionInfo best))
  /\ (forall matches hasPitchClass8 hasNatural5 has7th best,
         blockStep matches best
                   (Lib.resolveFlat13 matches hasPitchClass8 hasNatural5 has7th best))
  /\ (forall best newName, sameButName best (Match.rename best newName))
  /\ (forall activeNotes a,
         Lib.analyzeChord activeNotes = Normal (Some a) ->
         matchesOf activeNotes <> [] ->
         exists m,
           In m (matchesOf activeNotes)
           /\ In (Match.pattern m) Lib.CHORD_PATTERNS
           /\ ChordAnalysis.intervals a = ChordPattern.intervals (Match.pattern m)
           /\ ChordAnalysis.detectedRootPitchClass a = Match.root m
           /\ ChordAnalysis.isRootless a = Some (Match.isRootless m)).
Proof.
  split; [exact resolveSharp9_step|].
  split; [exact resolveSharp11_step|].
  split; [exact resolveFlat13_step|].
  split; [intros; apply sameButName_rename, sameButName_refl|].
  intros activeNotes a Ha Hm.
  destruct (analyzeChord_path activeNotes) as [_ E|_ E _|best rest _ E Hp].
  - congruence.
  - contradiction.
  - destruct (refined_stemsFrom activeNotes best rest E) as [m [Hin S]].
    exists m. split; [exact Hin|].
    split; [apply (generateMatches_inv _ m Hin)|].
    rewrite Hp in Ha. destruct (Lib.disambiguate _ _ _ _) as [b ai].
    cbn [fst snd] in *. unfold Lib.assemble in Ha.
    destruct (Lib.getRootSpelling _ _); [|discriminate].
    destruct (Lib.getChordToneSpelling _ _); [|discriminate].
    simpl in Ha. injection Ha as <-. simpl.
    destruct S as (Hr & _ & Hl & _ & Hi & _). now rewrite Hr, Hl, Hi.
Qed.

Lemma disambiguation_only_renames_or_switches_witness :
  exists a m,
    Lib.analyzeChord [60; 63; 64; 67; 70] = Normal (Some a)
    /\ matchesOf [60; 63; 64; 67; 70] <> []
    /\ In m (matchesOf [60; 63; 64; 67; 70])
    /\ ChordAnalysis.intervals a = ChordPattern.intervals (Match.pattern m)
    /\ ChordAnalysis.detectedRootPitchClass a = Match.root m.
Proof.
  destruct (Lib.analyzeChord [60; 63; 64; 67; 70]) as [[a|]|] eqn:E;
    [|vm_compute in E; discriminate|vm_compute in E; discriminate].
  assert (N : matchesOf [60; 63; 64; 67; 70] <> []) by (vm_compute; discriminate).
  destruct (proj2 (proj2 (proj2 (proj2 disambiguation_only_renames_or_switches)))
              [60; 63; 64; 67; 70] a E N) as [m (H1 & _ & H3 & H4 & _)].
  exists a, m. split; [reflexivity|]. split; [exact N|]. split; [exact H1|].
  split; [exact H3|exact H4].
Defined.

(* ================================================================= *)
(** ** A sounded root of pitch class 3 (C9) *)
(* ================================================================= *)

(** C9.  Whenever analyzeChord returns an analysis whose
    detectedRootPitchClass is 3 and which is not rootless (the no-match
    fallback included), pitch class 3 is among the unique pitch classes
    that are passed to getRootSpelling as context, and the root string is
    "Eb", not "D#". *)
Theorem sounded_root_3_is_Eb (activeNotes : list Z) (a : ChordAnalysis.t) :
  Lib.analyzeChord activeNotes = Normal (Some a) ->
  ChordAnalysis.detectedRootPitchClass a = 3 ->
  ChordAnalysis.isRootless a <> Some true ->
  In 3 (uniquePitchClassesOf activeNotes)
  /\ ChordAnalysis.root a = "Eb"
  /\ ChordAnalysis.root a <> "D#".
Proof.
  intros Ha Hr Hl.
  assert (G : In 3 (uniquePitchClassesOf activeNotes)
              /\ ChordAnalysis.root a = "Eb");
    [|destruct G as [G1 G2]; rewrite G2; repeat split; auto; discriminate].
  destruct (analyzeChord_path activeNotes) as [_ E|Hne _ Hp|best rest _ E Hp].
  - congruence.
  - rewrite Hp in Ha. unfold Lib.fallback in Ha.
    destruct (Lib.getRootSpelling _ _) as [s|] eqn:Es; [|discriminate].
    simpl in Ha. destruct (mapM _ _); [|discriminate].
    simpl in Ha. injection Ha as <-. simpl in *.
    assert (Hin := bassPitchClassOf_In activeNotes Hne). rewrite Hr in *.
    split; [exact Hin|].
    rewrite (getRootSpelling_3_sounded _ Hin) in Es. congruence.
  - destruct (refined_stemsFrom activeNotes best rest E) as [m [Hin S]].
    rewrite Hp in Ha. destruct (Lib.disambiguate _ _ _ _) as [b ai].
    cbn [fst snd] in *. unfold Lib.assemble in Ha.
    destruct (Lib.getRootSpelling _ _) as [s|] eqn:Es; [|discriminate].
    destruct (Lib.getChordToneSpelling _ _); [|discriminate].
    simpl in Ha. injection Ha as <-. simpl in *.
    destruct S as (Sr & _ & Sl & _).
    assert (Hin3 : In 3 (uniquePitchClassesOf activeNotes)).
    { destruct (generateMatches_inv _ m Hin) as [_ [(_ & H & _)|(H & _)]].
      - fold (uniquePitchClassesOf activeNotes) in H. congruence.
      - rewrite <- Sl in H. rewrite H in Hl. congruence. }
    split; [exact Hin3|].
    rewrite Hr in Es. rewrite (getRootSpelling_3_sounded _ Hin3) in Es. congruence.
Qed.

Lemma sounded_root_3_is_Eb_witness :
  exists a,
    Lib.analyzeChord [63; 67; 70] = Normal (Some a)
    /\ ChordAnalysis.detectedRootPitchClass a = 3
    /\ ChordAnalysis.isRootless a <> Some true
    /\ In 3 (uniquePitchClassesOf [63; 67; 70])
    /\ ChordAnalysis.root a = "Eb"
    /\ ChordAnalysis.root a <> "D#".
Proof.
  destruct (Lib.analyzeChord [63; 67; 70]) as [[a|]|] eqn:E;
    [|vm_compute in E; discriminate|vm_compute in E; discriminate].
  assert (Hr : ChordAnalysis.detectedRootPitchClass a = 3).
  { vm_compute in E. injection E as <-. reflexivity. }
  assert (Hl : ChordAnalysis.isRootless a <> Some true).
  { vm_compute in E. injection E as <-. discriminate. }
  exists a. split; [reflexivity|]. split; [exact Hr|]. split; [exact Hl|].
  exact (sounded_root_3_is_Eb [63; 67; 70] a E Hr Hl).
Defined.

(* ================================================================= *)
(** ** Transposition by whole octaves *)
(* ================================================================= *)

Section Transposition.

(** The number of octaves, upwards. *)
Variable k : Z.
Hypothesis k_nonneg : 0 <= k.







Lemma calculateActualIntervals_cons (lowest : Z) (rest : list Z) (r : Z) :
  Lib.calculateActualIntervals (lowest :: rest) r
  = map (fun midi =>
           ActualIntervalInfo.mk (Z.rem midi 12)
                                 (midi - rootMidiOf (lowest :: rest) lowest r) midi)
        (lowest :: rest).
Proof. reflexivity. Qed.














End Transposition.

(* ================================================================= *)
(** ** What is returned for MIDI notes *)
(* ================================================================= *)

Lemma analyzeChord_returns (activeNotes : list Z) :
  activeNotes <> [] -> midiNotes activeNotes ->
  exists a,
    Lib.analyzeChord activeNotes = Normal (Some a)
    /\ ChordAnalysis.detectedRootPitchClass a = rootPitchClassOf activeNotes
    /\ Lib.getRootSpelling (rootPitchClassOf activeNotes)
                           (Some (uniquePitchClassesOf activeNotes))
       = Normal (ChordAnalysis.root a)
    /\ (matchesOf activeNotes = [] ->
        ChordAnalysis.quality a = EmptyString
        /\ ChordAnalysis.bass a = ChordAnalysis.root a
        /\ ChordAnalysis.intervals a
           = sort ascending
                  (map (fun n => Z.rem (n - bassPitchClassOf activeNotes + 12) 12)
                       (uniquePitchClassesOf activeNotes))).
Proof.
  intros Hne Hmidi. unfold rootPitchClassOf.
  assert (Hb : 0 <= bassPitchClassOf activeNotes < 12).
  { eapply uniquePitchClassesOf_range; eauto using bassPitchClassOf_In. }
  destruct (analyzeChord_path activeNotes) as [E _|_ Em Hp|best rest _ E Hp].
  - contradiction.
  - rewrite Hp, Em. cbn [sort fold_right]. unfold Lib.fallback.
    destruct (getRootSpelling_total (bassPitchClassOf activeNotes)
                (Some (uniquePitchClassesOf activeNotes)) Hb) as [s Hs].
    rewrite Hs. cbn [JS.bind].
    destruct (mapM_total
                (fun n => Lib.getChordToneSpelling (Z.rem n 12)
                                                   (bassPitchClassOf activeNotes))
                (sort ascending activeNotes)) as [ts Ht].
    { intros; now apply getChordToneSpelling_total. }
    rewrite Ht. cbn [JS.bind]. eexists. split; [reflexivity|]. cbn. auto.
  - rewrite Hp, E.
    assert (Hr : 0 <= Match.root best < 12).
    { destruct (sorted_head_max _ _ _ E) as [Hin _].
      destruct (generateMatches_inv _ best Hin) as [_ [(_ & H & _)|(_ & _ & _ & H)]].
      - eapply uniquePitchClassesOf_range; eauto.
      - exact H. }
    rewrite <- (disambiguate_root (sort ascending activeNotes)
                  (uniquePitchClassesOf activeNotes) (best :: rest) best) in Hr |- *.
    destruct (Lib.disambiguate _ _ _ _) as [b ai]. cbn [fst snd] in *.
    unfold Lib.assemble.
    destruct (getRootSpelling_total (Match.root b)
                (Some (uniquePitchClassesOf activeNotes)) Hr) as [s Hs].
    destruct (getChordToneSpelling_total (bassPitchClassOf activeNotes)
                (Match.root b) Hr) as [t Ht].
    rewrite Hs, Ht. cbn [JS.bind]. eexists. split; [reflexivity|]. cbn.
    split; [reflexivity|]. split; [reflexivity|].
    intros Em. rewrite Em in E. discriminate.
Qed.

(* ================================================================= *)
(** ** The null result (C3) *)
(* ================================================================= *)

(** C3.  analyzeChord([]) is null; null is returned for no other input;
    and for every non-empty sequence of MIDI note numbers analyzeChord
    returns an analysis, which is the raw description relative to the
    bass (empty quality, root and bass both the spelled bass note,
    intervals from the bass) when no pattern matches at any root. *)
Theorem analyzeChord_null_iff_empty :
  Lib.analyzeChord [] = Normal None
  /\ (forall activeNotes, Lib.analyzeChord activeNotes = Normal None -> activeNotes = [])
  /\ (forall activeNotes,
         activeNotes <> [] -> midiNotes activeNotes ->
         exists a,
           Lib.analyzeChord activeNotes = Normal (Some a)
           /\ (matchesOf activeNotes = [] ->
               ChordAnalysis.quality a = EmptyString
               /\ Lib.getRootSpelling (bassPitchClassOf activeNotes)
                                      (Some (uniquePitchClassesOf activeNotes))
                  = Normal (ChordAnalysis.root a)
               /\ ChordAnalysis.bass a = ChordAnalysis.root a
               /\ ChordAnalysis.detectedRootPitchClass a = bassPitchClassOf activeNotes
               /\ ChordAnalysis.intervals a
                  = sort ascending
                         (map (fun n => Z.rem (n - bassPitchClassOf activeNotes + 12) 12)
                              (uniquePitchClassesOf activeNotes)))).
Proof.
  split; [reflexivity|]. split.
  - intros activeNotes H.
    destruct (analyzeChord_path activeNotes) as [E _|_ _ Hp|best rest _ _ Hp].
    + exact E.
    + rewrite Hp in H. unfold Lib.fallback in H.
      destruct (Lib.getRootSpelling _ _); [|discriminate]. cbn [JS.bind] in H.
      destruct (mapM _ _); discriminate.
    + rewrite Hp in H. unfold Lib.assemble in H.
      destruct (Lib.getRootSpelling _ _); [|discriminate].
      destruct (Lib.getChordToneSpelling _ _); discriminate.
  - intros activeNotes Hne Hmidi.
    destruct (analyzeChord_returns activeNotes Hne Hmidi) as [a (Ha & Hr & Hs & Hf)].
    exists a. split; [exact Ha|]. intros Em.
    unfold rootPitchClassOf in Hr, Hs. rewrite Em in Hr, Hs. cbn in Hr, Hs.
    destruct (Hf Em) as (H1 & H2 & H3). auto.
Qed.

Lemma analyzeChord_null_iff_empty_witness :
  [60] <> [] /\ midiNotes [60]
  /\ exists a,
      Lib.analyzeChord [60] = Normal (Some a)
      /\ (matchesOf [60] = [] ->
          ChordAnalysis.quality a = EmptyString
          /\ Lib.getRootSpelling (bassPitchClassOf [60]) (Some (uniquePitchClassesOf [60]))
             = Normal (ChordAnalysis.root a)
          /\ ChordAnalysis.bass a = ChordAnalysis.root a
          /\ ChordAnalysis.detectedRootPitchClass a = bassPitchClassOf [60]
          /\ ChordAnalysis.intervals a
             = sort ascending
                    (map (fun n => Z.rem (n - bassPitchClassOf [60] + 12) 12)
                         (uniquePitchClassesOf [60]))).
Proof.
  assert (H1 : [60] <> []) by discriminate.
  assert (H2 : midiNotes [60]) by (repeat constructor; lia).
  split; [exact H1|]. split; [exact H2|].
  exact (proj2 (proj2 analyzeChord_null_iff_empty) [60] H1 H2).
Defined.

(* ================================================================= *)
(** ** Dependence on the voicing (C1) *)
(* ================================================================= *)







(* ================================================================= *)
(** ** Normalised intervals *)
(* ================================================================= *)

(** The double remainder of the sources is the mathematical modulo. *)
Lemma rem_rem_mod (i : Z) : Z.rem (Z.rem i 12 + 12) 12 = i mod 12.
Proof.
  assert (H := Z.rem_bound_abs i 12 ltac:(lia)).
  assert (Hq := Z.quot_rem' i 12).
  rewrite Z.rem_mod_nonneg by lia.
  replace (Z.rem i 12 + 12) with (i + (1 - i ÷ 12) * 12) by lia.
  apply Z_mod_plus_full.
Qed.

Lemma sorted_NoDup_strict (l : list Z) :
  StronglySorted Z.le l -> NoDup l -> StronglySorted Z.lt l.
Proof.
  induction 1 as [|x l Hs IH Hx]; intros Hn; constructor.
  - apply IH. now inversion Hn.
  - inversion Hn as [|? ? Hnin _]; subst. rewrite Forall_forall in *.
    intros y Hy. specialize (Hx y Hy).
    assert (x <> y) by (intros ->; contradiction). lia.
Qed.

Lemma normalizeIntervals_In (l : list Z) (x : Z) :
  In x (Lib.normalizeIntervals l) <-> exists i, In i l /\ x = i mod 12.
Proof.
  unfold Lib.normalizeIntervals. rewrite sort_In, fromSet_In, in_map_iff.
  split; intros [i [H1 H2]]; exists i.
  - rewrite rem_rem_mod in H1. auto.
  - rewrite rem_rem_mod. auto.
Qed.

Lemma normalizeIntervals_sorted (l : list Z) :
  StronglySorted Z.lt (Lib.normalizeIntervals l).
Proof.
  apply sorted_NoDup_strict.
  - apply sort_ascending_sorted.
  - unfold Lib.normalizeIntervals.
    eapply Permutation_NoDup; [symmetry; apply sort_perm|apply fromSet_NoDup].
Qed.

Lemma strict_ascending_unique (l1 l2 : list Z) :
  StronglySorted Z.lt l1 -> StronglySorted Z.lt l2 ->
  (forall x, In x l1 <-> In x l2) -> l1 = l2.
Proof.
  assert (W : forall l, StronglySorted Z.lt l -> StronglySorted Z.le l /\ NoDup l).
  { induction 1 as [|x l Hs [IH1 IH2] Hx]; split; constructor; auto.
    - eapply Forall_impl; [|exact Hx]. intros; lia.
    - rewrite Forall_forall in Hx. intros Hin. specialize (Hx x Hin). lia. }
  intros S1 S2 E. destruct (W _ S1), (W _ S2). now apply ascending_unique.
Qed.

(** X1.  normalizeIntervals returns the residues modulo 12 of its
    argument (negative numbers included), each once, in strictly
    ascending order; so two arrays with the same residues normalise to
    the same array, and normalising twice changes nothing. *)
Theorem normalizeIntervals_canonical :
  (forall l x, In x (Lib.normalizeIntervals l) <-> In x (map (fun i => i mod 12) l))
  /\ (forall l, StronglySorted Z.lt (Lib.normalizeIntervals l))
  /\ (forall l, Forall (fun x => 0 <= x < 12) (Lib.normalizeIntervals l))
  /\ (forall l1 l2,
         (forall r, In r (map (fun i => i mod 12) l1)
                    <-> In r (map (fun i => i mod 12) l2)) ->
         Lib.normalizeIntervals l1 = Lib.normalizeIntervals l2)
  /\ (forall l, Lib.normalizeIntervals (Lib.normalizeIntervals l)
                = Lib.normalizeIntervals l).
Proof.
  assert (I : forall l x, In x (Lib.normalizeIntervals l)
                          <-> In x (map (fun i => i mod 12) l)).
  { intros l x. rewrite normalizeIntervals_In, in_map_iff.
    split; intros [i [H1 H2]]; exists i; auto. }
  split; [exact I|].
  split; [exact normalizeIntervals_sorted|].
  assert (R : forall l, Forall (fun x => 0 <= x < 12) (Lib.normalizeIntervals l)).
  { intros l. apply Forall_forall. intros x Hx.
    apply normalizeIntervals_In in Hx. destruct Hx as [i [_ ->]].
    apply Z.mod_pos_bound. lia. }
  split; [exact R|].
  assert (E : forall l1 l2,
             (forall r, In r (map (fun i => i mod 12) l1)
                        <-> In r (map (fun i => i mod 12) l2)) ->
             Lib.normalizeIntervals l1 = Lib.normalizeIntervals l2).
  { intros l1 l2 H. apply strict_ascending_unique;
      auto using normalizeIntervals_sorted.
    intros x. rewrite !I. apply H. }
  split; [exact E|].
  intros l. apply E. intros r. rewrite !in_map_iff. split.
  - intros [i [<- Hi]]. apply normalizeIntervals_In in Hi.
    destruct Hi as [j [Hj ->]]. exists j. split; [|exact Hj].
    symmetry. apply Z.mod_mod. lia.
  - intros [i [<- Hi]]. exists (i mod 12). split.
    + apply Z.mod_mod. lia.
    + apply normalizeIntervals_In. eauto.
Qed.

Lemma normalizeIntervals_canonical_witness :
  Lib.normalizeIntervals [0; 4; 7; 14] = Lib.normalizeIntervals [26; -8; 7; 12; 4].
Proof.
  apply (proj1 (proj2 (proj2 (proj2 normalizeIntervals_canonical)))).
  intros r. cbn. tauto.
Defined.

(* ================================================================= *)
(** ** The catalog and the no-match fallback *)
(* ================================================================= *)

Lemma ascendingb_sorted (l : list Z) (lo : Z) :
  ascendingb l = true -> Forall (fun x => lo <= x) (firstn 1 l) ->
  StronglySorted Z.lt l /\ Forall (fun x => lo <= x) l.
Proof.
  revert lo. induction l as [|x l IH]; intros lo H F.
  - split; constructor.
  - assert (Hx : lo <= x) by (now inversion F).
    destruct l as [|y l].
    + split; repeat constructor; auto.
    + cbn [ascendingb] in H. apply andb_true_iff in H. destruct H as [Hxy H].
      apply Z.ltb_lt in Hxy.
      destruct (IH (x + 1) H) as [S G]; [cbn; constructor; [lia|constructor]|].
      split.
      * constructor; [exact S|]. eapply Forall_impl; [|exact G]. cbv beta. intros; lia.
      * constructor; [exact Hx|]. eapply Forall_impl; [|exact G]. cbv beta. intros; lia.
Qed.

(** Every catalog pattern: intervals start at 0, strictly ascending,
    below 12. *)
Lemma catalog_intervals (p : ChordPattern.t) :
  In p Lib.CHORD_PATTERNS ->
  hd_error (ChordPattern.intervals p) = Some 0
  /\ StronglySorted Z.lt (ChordPattern.intervals p)
  /\ Forall (fun x => 0 <= x < 12) (ChordPattern.intervals p).
Proof.
  intros Hp.
  assert (C : forallb (fun p => match ChordPattern.intervals p with
                               | 0 :: _ => true | _ => false end
                               && ascendingb (ChordPattern.intervals p)
                               && forallb (fun x => x <? 12) (ChordPattern.intervals p))
                      Lib.CHORD_PATTERNS = true) by (vm_compute; reflexivity).
  rewrite forallb_forall in C. specialize (C p Hp).
  apply andb_true_iff in C. destruct C as [C C3].
  apply andb_true_iff in C. destruct C as [C1 C2].
  destruct (ChordPattern.intervals p) as [|x l] eqn:E; [discriminate|].
  destruct x; try discriminate.
  destruct (ascendingb_sorted (0 :: l) 0 C2) as [S G]; [cbn; constructor; [lia|constructor]|].
  split; [reflexivity|]. split; [exact S|].
  rewrite forallb_forall in C3. rewrite Forall_forall in *.
  intros y Hy. specialize (C3 y Hy). specialize (G y Hy). lia.
Qed.

Lemma single_pitch_class_no_match (p : Z) :
  0 <= p < 12 -> Lib.generateMatches [p] = [].
Proof.
  intros H. apply in_range_cases in H.
  repeat (destruct H as [H|H]; [subst p; vm_compute; reflexivity|]).
  subst p; vm_compute; reflexivity.
Qed.

(** Nothing matches exactly when one pitch class sounds. *)
Lemma no_match_iff_single (activeNotes : list Z) :
  activeNotes <> [] -> midiNotes activeNotes ->
  (matchesOf activeNotes = []
   <-> uniquePitchClassesOf activeNotes = [bassPitchClassOf activeNotes]).
Proof.
  intros Hne Hm.
  assert (Hb := bassPitchClassOf_In activeNotes Hne).
  split.
  - intros E. destruct (catalog_facts activeNotes Hm) as (H1 & _).
    specialize (H1 E). fold (uniquePitchClassesOf activeNotes) in H1.
    destruct (uniquePitchClassesOf activeNotes) as [|x [|y l]]; simpl in *;
      [contradiction| |lia].
    destruct Hb as [->|[]]. reflexivity.
  - intros E. unfold matchesOf. fold (uniquePitchClassesOf activeNotes).
    rewrite E. apply single_pitch_class_no_match.
    eapply uniquePitchClassesOf_range; eauto.
Qed.

Lemma all_same_pitch_class (activeNotes : list Z) (p : Z) :
  activeNotes <> [] ->
  (forall n, In n activeNotes -> Z.rem n 12 = p) ->
  uniquePitchClassesOf activeNotes = [p] /\ bassPitchClassOf activeNotes = p.
Proof.
  intros Hne H.
  assert (Hb := bassPitchClassOf_In activeNotes Hne).
  assert (A : forall x, In x (uniquePitchClassesOf activeNotes) -> x = p).
  { intros x Hx. apply pitchClassesOf_In in Hx. destruct Hx as [n [Hn ->]].
    apply H. exact (proj1 (sort_In ascending _ _) Hn). }
  assert (N := pitchClassesOf_NoDup (sort ascending activeNotes)).
  fold (uniquePitchClassesOf activeNotes) in N.
  destruct (uniquePitchClassesOf activeNotes) as [|x [|y l]]; [destruct Hb| |].
  - rewrite (A x (or_introl eq_refl)). split; [reflexivity|].
    destruct Hb as [<-|[]]. apply A. now left.
  - exfalso. inversion N as [|? ? Hn _]; subst. apply Hn. left.
    rewrite (A x), (A y); simpl; auto.
Qed.

Lemma rootSpelling_alone (p : Z) :
  0 <= p < 12 -> Lib.getRootSpelling p (Some [p]) = Lib.getChordToneSpelling p p.
Proof.
  intros H. apply in_range_cases in H.
  repeat (destruct H as [H|H]; [subst p; reflexivity|]). subst p; reflexivity.
Qed.

Lemma mapM_constant {A B} (f : A -> Completion B) (l : list A) (y : B) :
  (forall x, In x l -> f x = Normal y) ->
  mapM f l = Normal (repeat y (List.length l)).
Proof.
  induction l as [|x l IH]; intros H; simpl; [reflexivity|].
  rewrite (H x (or_introl eq_refl)). simpl.
  rewrite IH by (intros; apply H; now right). reflexivity.
Qed.

(** X2.  When every note of a non-empty input of MIDI notes has the same
    pitch class [p] (a single note, or octave doublings of it), no
    pattern matches and the raw description is returned: root and bass
    are the name of [p], the quality is empty, the display is that name
    once per note, separated by spaces, the intervals are [0], and
    isRootless and actualIntervals are absent. *)
Theorem single_pitch_class_analysis (activeNotes : list Z) (p : Z) :
  activeNotes <> [] -> midiNotes activeNotes ->
  (forall n, In n activeNotes -> Z.rem n 12 = p) ->
  exists s,
    Lib.getChordToneSpelling p p = Normal s
    /\ Lib.analyzeChord activeNotes
       = Normal (Some (ChordAnalysis.mk s EmptyString s
                         (join " " (repeat s (List.length activeNotes)))
                         [0] p None None)).
Proof.
  intros Hne Hm Hp.
  destruct (all_same_pitch_class activeNotes p Hne Hp) as [Eu Eb].
  assert (Hr : 0 <= p < 12).
  { eapply uniquePitchClassesOf_range; [exact Hm|]. rewrite Eu. now left. }
  destruct (getChordToneSpelling_total p p Hr) as [s Hs].
  exists s. split; [exact Hs|].
  destruct (analyzeChord_path activeNotes) as [E _|_ _ Hpath|best rest _ E _].
  - contradiction.
  - rewrite Hpath, Eu, Eb. unfold Lib.fallback.
    rewrite rootSpelling_alone, Hs by exact Hr. cbn [JS.bind].
    rewrite (mapM_constant _ _ s).
    + cbn [JS.bind]. rewrite sort_length. do 4 f_equal.
      cbn. now rewrite Z.sub_diag.
    + intros x Hx. apply (proj1 (sort_In ascending _ _)) in Hx. now rewrite (Hp x Hx).
  - exfalso. assert (M : matchesOf activeNotes = []).
    { apply no_match_iff_single; auto. now rewrite Eu, Eb. }
    rewrite M in E. discriminate.
Qed.

Lemma single_pitch_class_analysis_witness :
  exists s,
    Lib.getChordToneSpelling 0 0 = Normal s
    /\ Lib.analyzeChord [60; 72; 48]
       = Normal (Some (ChordAnalysis.mk s EmptyString s
                         (join " " (repeat s (List.length [60; 72; 48])))
                         [0] 0 None None)).
Proof.
  apply (single_pitch_class_analysis [60; 72; 48] 0).
  - discriminate.
  - repeat constructor; lia.
  - intros n [<-|[<-|[<-|[]]]]; reflexivity.
Defined.

(** X3.  For every input of MIDI notes, the intervals of the returned
    analysis start at 0, are strictly ascending and stay below 12; the
    analysis carries isRootless and actualIntervals exactly when a
    pattern matched, which is the case exactly when at least two
    different pitch classes sound. *)
Theorem returned_intervals_normalised (activeNotes : list Z) (a : ChordAnalysis.t) :
  midiNotes activeNotes ->
  Lib.analyzeChord activeNotes = Normal (Some a) ->
  hd_error (ChordAnalysis.intervals a) = Some 0
  /\ StronglySorted Z.lt (ChordAnalysis.intervals a)
  /\ Forall (fun x => 0 <= x < 12) (ChordAnalysis.intervals a)
  /\ (ChordAnalysis.isRootless a <> None
      <-> (2 <= List.length (uniquePitchClassesOf activeNotes))%nat)
  /\ (ChordAnalysis.actualIntervals a <> None
      <-> (2 <= List.length (uniquePitchClassesOf activeNotes))%nat).
Proof.
  intros Hm Ha.
  destruct (analyzeChord_path activeNotes) as [_ E|Hne Em Hp|best rest Hne E Hp].
  - congruence.
  - assert (Eu : uniquePitchClassesOf activeNotes = [bassPitchClassOf activeNotes])
      by (now apply no_match_iff_single).
    rewrite Hp in Ha. unfold Lib.fallback in Ha.
    destruct (Lib.getRootSpelling _ _); [|discriminate]. cbn [JS.bind] in Ha.
    destruct (mapM _ _); [|discriminate]. cbn [JS.bind] in Ha.
    injection Ha as <-. cbn [ChordAnalysis.intervals ChordAnalysis.isRootless
                               ChordAnalysis.actualIntervals].
    rewrite Eu. cbn. rewrite Z.sub_diag. cbn.
    repeat split; try (repeat constructor; lia); intros; try congruence; lia.
  - assert (Hlen : (2 <= List.length (uniquePitchClassesOf activeNotes))%nat).
    { assert (Hb := bassPitchClassOf_In activeNotes Hne).
      destruct (uniquePitchClassesOf activeNotes) as [|x [|y l]] eqn:Eu;
        [destruct Hb| |simpl; lia].
      exfalso. destruct Hb as [Hb|[]].
      assert (M : matchesOf activeNotes = []).
      { apply no_match_iff_single; auto. now rewrite Eu, Hb. }
      rewrite M in E. discriminate. }
    destruct (refined_stemsFrom activeNotes best rest E) as [m [Hin S]].
    rewrite Hp in Ha. destruct (Lib.disambiguate _ _ _ _) as [b ai].
    cbn [fst snd] in *. unfold Lib.assemble in Ha.
    destruct (Lib.getRootSpelling _ _); [|discriminate].
    destruct (Lib.getChordToneSpelling _ _); [|discriminate].
    cbn [JS.bind] in Ha. injection Ha as <-.
    cbn [ChordAnalysis.intervals ChordAnalysis.isRootless
           ChordAnalysis.actualIntervals].
    destruct S as (_ & _ & _ & _ & Hi & _). rewrite Hi.
    destruct (generateMatches_inv _ m Hin) as [Hcat _].
    destruct (catalog_intervals _ Hcat) as (H1 & H2 & H3).
    repeat split; auto; intros; congruence.
Qed.

Lemma returned_intervals_normalised_witness :
  exists a,
    Lib.analyzeChord [60; 63; 64; 67; 70] = Normal (Some a)
    /\ hd_error (ChordAnalysis.intervals a) = Some 0
    /\ StronglySorted Z.lt (ChordAnalysis.intervals a)
    /\ ChordAnalysis.isRootless a <> None.
Proof.
  destruct (Lib.analyzeChord [60; 63; 64; 67; 70]) as [[a|]|] eqn:E;
    [|vm_compute in E; discriminate|vm_compute in E; discriminate].
  assert (M : midiNotes [60; 63; 64; 67; 70]) by (repeat constructor; lia).
  destruct (returned_intervals_normalised [60; 63; 64; 67; 70] a M E)
    as (H1 & H2 & _ & H4 & _).
  exists a. split; [reflexivity|]. split; [exact H1|]. split; [exact H2|].
  apply (proj2 H4). vm_compute. lia.
Defined.

(* ================================================================= *)
(** ** Order of the input *)
(* ================================================================= *)

Lemma sorted_perm_unique (l1 l2 : list Z) :
  StronglySorted Z.le l1 -> StronglySorted Z.le l2 -> Permutation l1 l2 -> l1 = l2.
Proof.
  intros S1. revert l2. induction S1 as [|a l1 S1 IH F1]; intros l2 S2 P.
  - apply Permutation_nil in P. now subst.
  - destruct S2 as [|b l2 S2 F2].
    + symmetry in P. apply Permutation_nil in P. discriminate.
    + rewrite Forall_forall in F1, F2.
      assert (a = b).
      { assert (Ha : In a (b :: l2)) by (eapply Permutation_in; [exact P|now left]).
        assert (Hb : In b (a :: l1))
          by (eapply Permutation_in; [symmetry; exact P|now left]).
        destruct Ha as [->|Ha]; [reflexivity|].
        destruct Hb as [->|Hb]; [reflexivity|].
        specialize (F1 _ Hb). specialize (F2 _ Ha). lia. }
      subst b. f_equal. apply IH; [exact S2|].
      eapply Permutation_cons_inv; exact P.
Qed.

Lemma sort_ascending_perm (l1 l2 : list Z) :
  Permutation l1 l2 -> sort ascending l1 = sort ascending l2.
Proof.
  intros P. apply sorted_perm_unique; try apply sort_ascending_sorted.
  rewrite (sort_perm ascending l1), (sort_perm ascending l2). exact P.
Qed.

(** X4.  The order in which the notes are given does not matter:
    analyzeChord returns the same result (null, analysis or throw) for
    two inputs that are permutations of each other. *)
Theorem analyzeChord_order_independent (l1 l2 : list Z) :
  Permutation l1 l2 -> Lib.analyzeChord l1 = Lib.analyzeChord l2.
Proof.
  intros P. unfold Lib.analyzeChord.
  rewrite (Permutation_length P), (sort_ascending_perm l1 l2 P). reflexivity.
Qed.

Lemma analyzeChord_order_independent_witness :
  Lib.analyzeChord [64; 60; 67; 72] = Lib.analyzeChord [60; 64; 67; 72].
Proof.
  apply analyzeChord_order_independent. apply perm_swap.
Defined.

(* ================================================================= *)
(** ** Names and the pitch classes they denote *)
(* ================================================================= *)

Lemma scale_table_denotes :
  forallb (fun r => forallb (scaleDenotes r) PITCH_CLASSES) PITCH_CLASSES = true.
Proof. vm_compute. reflexivity. Qed.

Lemma scaleEntry_denotes (r i : Z) :
  0 <= r < 12 -> 0 <= i < 12 ->
  exists s, Lib.scaleEntry r i = Normal s
            /\ Chorduroy.rootToPitchClass s = Chorduroy.Own ((r + i) mod 12).
Proof.
  intros Hr Hi. assert (T := scale_table_denotes).
  rewrite forallb_forall in T. specialize (T r (proj2 (in_PITCH_CLASSES r) Hr)).
  rewrite forallb_forall in T. specialize (T i (proj2 (in_PITCH_CLASSES i) Hi)).
  unfold scaleDenotes in T.
  destruct (Lib.scaleEntry r i) as [s|]; [|discriminate].
  exists s. split; [reflexivity|].
  destruct (Chorduroy.rootToPitchClass s); try discriminate.
  apply Z.eqb_eq in T. now subst.
Qed.

Lemma getChordToneSpelling_denotes (p r : Z) :
  0 <= r < 12 ->
  exists s, Lib.getChordToneSpelling p r = Normal s
            /\ Chorduroy.rootToPitchClass s = Chorduroy.Own (p mod 12).
Proof.
  intros Hr. unfold Lib.getChordToneSpelling. rewrite rem_rem_mod.
  destruct (scaleEntry_denotes r ((p - r) mod 12) Hr) as [s [Hs Hd]].
  { apply Z.mod_pos_bound. lia. }
  exists s. split; [exact Hs|]. rewrite Hd. f_equal.
  rewrite Zplus_mod_idemp_r. f_equal. lia.
Qed.

Lemma getRootSpelling_denotes (r : Z) (ctx : option (list Z)) :
  0 <= r < 12 ->
  exists s, Lib.getRootSpelling r ctx = Normal s
            /\ Chorduroy.rootToPitchClass s = Chorduroy.Own r.
Proof.
  intros Hr. apply in_range_cases in Hr.
  repeat (destruct Hr as [Hr|Hr];
          [subst r; unfold Lib.getRootSpelling; cbn [Z.eqb Pos.eqb];
           repeat match goal with
                  | |- context [if ?c then _ else _] => destruct c
                  end; eexists; split; reflexivity|]).
  subst r. eexists; split; reflexivity.
Qed.

Lemma scaleEntry_missing (r i : Z) : ~ 0 <= r < 12 -> Lib.scaleEntry r i = TypeError.
Proof.
  intros H. unfold Lib.scaleEntry.
  destruct r as [|r|r]; [lia| |reflexivity].
  do 4 (destruct r as [r|r|]; try reflexivity; try lia).
Qed.

(** X5.  Spelling and reading a name are inverse: for a root within
    0..11, getRootSpelling (with any context) returns a name that
    rootToPitchClass maps back to that root, and getChordToneSpelling
    returns a name that rootToPitchClass maps to the pitch class of the
    tone (modulo 12, negative numbers included).  For a root outside
    0..11 both helpers throw, since the spelling table has no such
    key. *)
Theorem spelling_round_trip (r : Z) :
  (0 <= r < 12 ->
   (forall ctx, exists s,
         Lib.getRootSpelling r ctx = Normal s
         /\ Chorduroy.rootToPitchClass s = Chorduroy.Own r)
   /\ (forall p, exists s,
          Lib.getChordToneSpelling p r = Normal s
          /\ Chorduroy.rootToPitchClass s = Chorduroy.Own (p mod 12)))
  /\ (~ 0 <= r < 12 ->
      (forall ctx, Lib.getRootSpelling r ctx = TypeError)
      /\ (forall p, Lib.getChordToneSpelling p r = TypeError)).
Proof.
  split.
  - intros Hr. split; intros; [now apply getRootSpelling_denotes
                              |now apply getChordToneSpelling_denotes].
  - intros Hr. split.
    + intros ctx. unfold Lib.getRootSpelling.
      assert (E : forall k, 0 <= k < 12 -> (r =? k) = false)
        by (intros; apply Z.eqb_neq; lia).
      rewrite !E by lia. now apply scaleEntry_missing.
    + intros p. unfold Lib.getChordToneSpelling. now apply scaleEntry_missing.
Qed.

Lemma spelling_round_trip_witness :
  (exists s, Lib.getRootSpelling 8 (Some [4; 8; 11]) = Normal s
             /\ Chorduroy.rootToPitchClass s = Chorduroy.Own 8)
  /\ (exists s, Lib.getChordToneSpelling (-7) 1 = Normal s
                /\ Chorduroy.rootToPitchClass s = Chorduroy.Own ((-7) mod 12))
  /\ Lib.getRootSpelling 12 None = TypeError.
Proof.
  split; [|split].
  - apply (proj1 (proj1 (spelling_round_trip 8) ltac:(lia))).
  - apply (proj2 (proj1 (spelling_round_trip 1) ltac:(lia))).
  - apply (proj1 (proj2 (spelling_round_trip 12) ltac:(lia))).
Defined.

(* ================================================================= *)
(** ** What a returned analysis says *)
(* ================================================================= *)

(** The shape of a returned analysis: the raw description of the
    fallback, or the assembly of the final [best]. *)
Lemma analysis_shape (activeNotes : list Z) (a : ChordAnalysis.t) :
  Lib.analyzeChord activeNotes = Normal (Some a) ->
  activeNotes <> []
  /\ ((matchesOf activeNotes = []
       /\ Lib.fallback (sort ascending activeNotes) (uniquePitchClassesOf activeNotes)
                       (bassPitchClassOf activeNotes) = Normal (Some a))
      \/ (exists best rest b ai,
             sort Lib.byScoreDescending (matchesOf activeNotes) = best :: rest
             /\ Lib.disambiguate (sort ascending activeNotes)
                                 (uniquePitchClassesOf activeNotes) (best :: rest) best
                = (b, ai)
             /\ Lib.assemble (uniquePitchClassesOf activeNotes)
                             (bassPitchClassOf activeNotes) b ai = Normal (Some a))).
Proof.
  intros Ha.
  destruct (analyzeChord_path activeNotes) as [_ E|Hne Em Hp|best rest Hne E Hp].
  - congruence.
  - split; [exact Hne|]. left. split; [exact Em|]. congruence.
  - split; [exact Hne|]. right.
    destruct (Lib.disambiguate _ _ _ _) as [b ai] eqn:Ed. cbn [fst snd] in Hp.
    exists best, rest, b, ai. repeat split; congruence.
Qed.

(** The final [best] has the root and the rootless flag of a generated
    match. *)
Lemma final_best_origin (activeNotes : list Z) best rest b ai :
  sort Lib.byScoreDescending (matchesOf activeNotes) = best :: rest ->
  Lib.disambiguate (sort ascending activeNotes) (uniquePitchClassesOf activeNotes)
                   (best :: rest) best = (b, ai) ->
  exists m, In m (matchesOf activeNotes) /\ sameButName m b
            /\ ai = Lib.calculateActualIntervals (sort ascending activeNotes)
                                                 (Match.root best)
            /\ Match.root b = Match.root best.
Proof.
  intros E Ed.
  destruct (refined_stemsFrom activeNotes best rest E) as [m [Hin S]].
  assert (R := disambiguate_root (sort ascending activeNotes)
                 (uniquePitchClassesOf activeNotes) (best :: rest) best).
  rewrite Ed in S, R. cbn [fst] in S, R.
  exists m. split; [exact Hin|]. split; [exact S|]. split; [|exact R].
  unfold Lib.disambiguate in Ed. cbv zeta in Ed. now injection Ed as _ <-.
Qed.

Lemma append_assoc (a b c : string) : (a ++ b) ++ c = a ++ b ++ c.
Proof. induction a as [|x a IH]; simpl; [reflexivity|now rewrite IH]. Qed.

Lemma append_nil_r (a : string) : a ++ EmptyString = a.
Proof. induction a as [|x a IH]; simpl; [reflexivity|now rewrite IH]. Qed.

(** The root string of an analysis returned for MIDI notes reads back as
    the detected root. *)
Lemma returned_root_denotes (activeNotes : list Z) (a : ChordAnalysis.t) :
  midiNotes activeNotes ->
  Lib.analyzeChord activeNotes = Normal (Some a) ->
  0 <= ChordAnalysis.detectedRootPitchClass a < 12
  /\ Chorduroy.rootToPitchClass (ChordAnalysis.root a)
     = Chorduroy.Own (ChordAnalysis.detectedRootPitchClass a).
Proof.
  intros Hm Ha. destruct (analysis_shape activeNotes a Ha) as [Hne H].
  assert (Hb : 0 <= bassPitchClassOf activeNotes < 12).
  { eapply uniquePitchClassesOf_range; eauto using bassPitchClassOf_In. }
  destruct H as [[_ Hf]|(best & rest & b & ai & E & Ed & Has)].
  - unfold Lib.fallback in Hf.
    destruct (getRootSpelling_denotes (bassPitchClassOf activeNotes)
                (Some (uniquePitchClassesOf activeNotes)) Hb) as [s [Hs Hd]].
    rewrite Hs in Hf. cbn [JS.bind] in Hf. destruct (mapM _ _); [|discriminate].
    cbn [JS.bind] in Hf. injection Hf as <-. cbn. auto.
  - destruct (final_best_origin activeNotes best rest b ai E Ed)
      as [m (Hin & S & _ & Hr)].
    assert (Hroot : 0 <= Match.root b < 12).
    { destruct S as (Sr & _). rewrite Sr.
      destruct (generateMatches_inv _ m Hin) as [_ [(_ & H & _)|(_ & _ & _ & H)]].
      - eapply uniquePitchClassesOf_range; eauto.
      - exact H. }
    unfold Lib.assemble in Has.
    destruct (getRootSpelling_denotes (Match.root b)
                (Some (uniquePitchClassesOf activeNotes)) Hroot) as [s [Hs Hd]].
    destruct (Lib.getChordToneSpelling _ _); [|rewrite Hs in Has; discriminate].
    rewrite Hs in Has. cbn [JS.bind] in Has. injection Has as <-. cbn. auto.
Qed.

(** X6.  In every analysis returned for MIDI notes the two spelled names
    denote what was detected: rootToPitchClass maps the root string to
    detectedRootPitchClass and the bass string to the pitch class of the
    lowest note; detectedRootPitchClass lies within 0..11. *)
Theorem analysis_names_denote (activeNotes : list Z) (a : ChordAnalysis.t) :
  midiNotes activeNotes ->
  Lib.analyzeChord activeNotes = Normal (Some a) ->
  0 <= ChordAnalysis.detectedRootPitchClass a < 12
  /\ Chorduroy.rootToPitchClass (ChordAnalysis.root a)
     = Chorduroy.Own (ChordAnalysis.detectedRootPitchClass a)
  /\ Chorduroy.rootToPitchClass (ChordAnalysis.bass a)
     = Chorduroy.Own (bassPitchClassOf activeNotes).
Proof.
  intros Hm Ha.
  destruct (returned_root_denotes activeNotes a Hm Ha) as [Hrange Hroot].
  split; [exact Hrange|]. split; [exact Hroot|].
  destruct (analysis_shape activeNotes a Ha) as [Hne H].
  assert (Hb : 0 <= bassPitchClassOf activeNotes < 12).
  { eapply uniquePitchClassesOf_range; eauto using bassPitchClassOf_In. }
  destruct H as [[_ Hf]|(best & rest & b & ai & E & Ed & Has)].
  - unfold Lib.fallback in Hf.
    destruct (getRootSpelling_denotes (bassPitchClassOf activeNotes)
                (Some (uniquePitchClassesOf activeNotes)) Hb) as [s [Hs Hd]].
    rewrite Hs in Hf. cbn [JS.bind] in Hf. destruct (mapM _ _); [|discriminate].
    cbn [JS.bind] in Hf. injection Hf as <-. cbn. exact Hd.
  - unfold Lib.assemble in Has.
    destruct (Lib.getRootSpelling _ _) as [s|]; [|discriminate].
    assert (Hrb : 0 <= Match.root b < 12).
    { destruct (Lib.getChordToneSpelling _ _); [|discriminate].
      cbn [JS.bind] in Has. injection Has as <-. exact Hrange. }
    destruct (getChordToneSpelling_denotes (bassPitchClassOf activeNotes)
                (Match.root b) Hrb) as [t [Ht Hd']].
    rewrite Ht in Has. cbn [JS.bind] in Has. injection Has as <-. cbn.
    rewrite Z.mod_small in Hd' by exact Hb. exact Hd'.
Qed.

Lemma analysis_names_denote_witness :
  exists a,
    Lib.analyzeChord [64; 67; 71; 72] = Normal (Some a)
    /\ Chorduroy.rootToPitchClass (ChordAnalysis.root a)
       = Chorduroy.Own (ChordAnalysis.detectedRootPitchClass a)
    /\ Chorduroy.rootToPitchClass (ChordAnalysis.bass a)
       = Chorduroy.Own (bassPitchClassOf [64; 67; 71; 72]).
Proof.
  destruct (Lib.analyzeChord [64; 67; 71; 72]) as [[a|]|] eqn:E;
    [|vm_compute in E; discriminate|vm_compute in E; discriminate].
  assert (M : midiNotes [64; 67; 71; 72]) by (repeat constructor; lia).
  destruct (analysis_names_denote [64; 67; 71; 72] a M E) as (_ & H1 & H2).
  exists a. split; [reflexivity|]. split; [exact H1|exact H2].
Defined.

(** X7.  When a pattern matched (isRootless is present), the display is
    the root name, then the quality, then " (rootless)" for a rootless
    match, then "/" and the bass name for an inversion; the analysis is
    rootless exactly when its root pitch class is not among the played
    pitch classes, and it is an inversion exactly when it is not
    rootless and its root pitch class differs from the pitch class of
    the lowest note. *)
Theorem display_structure (activeNotes : list Z) (a : ChordAnalysis.t) (rootless : bool) :
  Lib.analyzeChord activeNotes = Normal (Some a) ->
  ChordAnalysis.isRootless a = Some rootless ->
  let inversion :=
    negb rootless
    && negb (ChordAnalysis.detectedRootPitchClass a =? bassPitchClassOf activeNotes) in
  ChordAnalysis.display a
  = ChordAnalysis.root a ++ ChordAnalysis.quality a
    ++ (if rootless then " (rootless)" else EmptyString)
    ++ (if inversion then "/" ++ ChordAnalysis.bass a else EmptyString)
  /\ (rootless = true
      <-> ~ In (ChordAnalysis.detectedRootPitchClass a)
               (uniquePitchClassesOf activeNotes)).
Proof.
  intros Ha Hl inversion. subst inversion.
  destruct (analysis_shape activeNotes a Ha) as [Hne H].
  destruct H as [[_ Hf]|(best & rest & b & ai & E & Ed & Has)].
  - unfold Lib.fallback in Hf.
    destruct (Lib.getRootSpelling _ _); [|discriminate]. cbn [JS.bind] in Hf.
    destruct (mapM _ _); [|discriminate]. cbn [JS.bind] in Hf.
    injection Hf as <-. discriminate.
  - destruct (final_best_origin activeNotes best rest b ai E Ed)
      as [m (Hin & S & _ & _)].
    unfold Lib.assemble in Has.
    destruct (Lib.getRootSpelling _ _) as [s|]; [|discriminate].
    destruct (Lib.getChordToneSpelling _ _) as [t|]; [|discriminate].
    cbn [JS.bind] in Has. injection Has as <-. cbn in Hl |- *.
    injection Hl as <-. split.
    + rewrite (andb_comm (negb (Match.isRootless b))).
      destruct (Match.isRootless b), (Match.root b =? bassPitchClassOf activeNotes);
        cbn; now rewrite ?append_assoc, ?append_nil_r.
    + destruct S as (Sr & _ & Sl & _). rewrite Sr, Sl.
      destruct (generateMatches_inv _ m Hin)
        as [_ [(Hl' & Hr' & _)|(Hl' & _ & Hr' & _)]];
        fold (uniquePitchClassesOf activeNotes) in Hr'; rewrite Hl'.
      * split; [discriminate|]. intros C. contradiction.
      * split; auto.
Qed.

Lemma display_structure_witness :
  exists a,
    Lib.analyzeChord [64; 67; 71; 72] = Normal (Some a)
    /\ ChordAnalysis.display a
       = ChordAnalysis.root a ++ ChordAnalysis.quality a
         ++ EmptyString ++ "/" ++ ChordAnalysis.bass a.
Proof.
  destruct (Lib.analyzeChord [64; 67; 71; 72]) as [[a|]|] eqn:E;
    [|vm_compute in E; discriminate|vm_compute in E; discriminate].
  assert (L : ChordAnalysis.isRootless a = Some false).
  { vm_compute in E. injection E as <-. reflexivity. }
  destruct (display_structure [64; 67; 71; 72] a false E L) as [D _].
  assert (R : ChordAnalysis.detectedRootPitchClass a = 0).
  { vm_compute in E. injection E as <-. reflexivity. }
  rewrite R in D. exists a. split; [reflexivity|exact D].
Defined.

(* ================================================================= *)
(** ** The training game *)
(* ================================================================= *)

Lemma target_root_denotes (rootIndex : nat) (r : string) :
  nth_error Chorduroy.TARGET_ROOTS rootIndex = Some r ->
  Chorduroy.rootToPitchClass r = Chorduroy.Own (Z.of_nat rootIndex).
Proof.
  do 12 (destruct rootIndex as [|rootIndex];
         [intros H; injection H as <-; reflexivity|]).
  destruct rootIndex; discriminate.
Qed.

(** X8.  The comparison of the training game is enharmonic-safe: for an
    analysis returned for MIDI notes and a target that generateTarget
    can set (the root of index [rootIndex] in its array of twelve
    roots), isMatch holds exactly when the detected root pitch class is
    [rootIndex] and the quality is the quality of the target, whatever
    the spelling the analysis chose for its root. *)
Theorem training_match_compares_pitch_classes
        (activeNotes : list Z) (a : ChordAnalysis.t)
        (rootIndex typeIndex : nat) (t : Chorduroy.TargetChord) :
  midiNotes activeNotes ->
  Lib.analyzeChord activeNotes = Normal (Some a) ->
  Chorduroy.targetAt rootIndex typeIndex = Some t ->
  (Chorduroy.isMatch t a = true
   <-> ChordAnalysis.detectedRootPitchClass a = Z.of_nat rootIndex
       /\ ChordAnalysis.quality a = Chorduroy.targetQuality t).
Proof.
  intros Hm Ha Ht. unfold Chorduroy.targetAt in Ht.
  destruct (nth_error Chorduroy.TARGET_ROOTS rootIndex) as [r|] eqn:Er;
    [|discriminate].
  destruct (nth_error Chorduroy.TRAINING_CHORD_TYPES typeIndex) as [[q d]|];
    [|discriminate].
  injection Ht as <-. unfold Chorduroy.isMatch.
  cbn [Chorduroy.targetRoot Chorduroy.targetQuality].
  rewrite (target_root_denotes rootIndex r Er).
  destruct (returned_root_denotes activeNotes a Hm Ha) as [_ ->].
  cbn [Chorduroy.strictEqual]. rewrite andb_true_iff, Z.eqb_eq, String.eqb_eq.
  intuition congruence.
Qed.

Lemma training_match_compares_pitch_classes_witness :
  exists a t,
    Lib.analyzeChord [61; 65; 68; 70] = Normal (Some a)
    /\ Chorduroy.targetAt 10 3 = Some t
    /\ (Chorduroy.isMatch t a = true
        <-> ChordAnalysis.detectedRootPitchClass a = 10
            /\ ChordAnalysis.quality a = Chorduroy.targetQuality t).
Proof.
  destruct (Lib.analyzeChord [61; 65; 68; 70]) as [[a|]|] eqn:E;
    [|vm_compute in E; discriminate|vm_compute in E; discriminate].
  assert (M : midiNotes [61; 65; 68; 70]) by (repeat constructor; lia).
  destruct (Chorduroy.targetAt 10 3) as [t|] eqn:Et; [|discriminate Et].
  exists a, t. split; [reflexivity|]. split; [reflexivity|].
  exact (training_match_compares_pitch_classes [61; 65; 68; 70] a 10 3 t M E Et).
Defined.

(* ================================================================= *)
(** ** Qualities that are never returned *)
(* ================================================================= *)

Lemma skip_length (n : nat) (s : string) :
  String.length (skip n s) = (String.length s - n)%nat.
Proof.
  revert s. induction n as [|n IH]; intros s; simpl; [lia|].
  destruct s; simpl; [reflexivity|apply IH].
Qed.

Lemma append_length (a b : string) :
  String.length (a ++ b) = (String.length a + String.length b)%nat.
Proof. induction a as [|x a IH]; simpl; [reflexivity|now rewrite IH]. Qed.

Lemma prefix_length (p s : string) :
  String.prefix p s = true -> (String.length p <= String.length s)%nat.
Proof.
  revert p. induction s as [|y s IH]; intros [|x p] H; simpl in *;
    try lia; try discriminate.
  destruct (Ascii.ascii_dec x y); [|discriminate]. apply IH in H. lia.
Qed.

Lemma includes_length (s sub : string) :
  includes s sub = true -> (String.length sub <= String.length s)%nat.
Proof.
  induction s as [|c s IH]; cbn [includes]; intros H.
  - rewrite orb_false_r in H. now apply prefix_length in H.
  - apply orb_true_iff in H. destruct H as [H|H].
    + apply prefix_length in H. exact H.
    + apply IH in H. simpl. lia.
Qed.

(** The first occurrence is replaced: the length changes by the
    difference of the two lengths, or not at all. *)
Lemma replace_length (s pat rep : string) :
  (includes s pat = true
   /\ (String.length (replace s pat rep) + String.length pat
       = String.length s + String.length rep)%nat)
  \/ (includes s pat = false /\ replace s pat rep = s).
Proof.
  induction s as [|c s IH]; cbn [replace includes].
  - destruct (String.prefix pat EmptyString) eqn:P.
    + left. split; [reflexivity|]. apply prefix_length in P.
      rewrite append_length, skip_length. lia.
    + right. split; reflexivity.
  - destruct (String.prefix pat (String c s)) eqn:P.
    + left. split; [reflexivity|]. apply prefix_length in P.
      rewrite append_length, skip_length. lia.
    + cbn [orb]. destruct IH as [[I L]|[I L]].
      * left. split; [exact I|]. simpl. lia.
      * right. split; [exact I|]. now rewrite L.
Qed.

Lemma replace_grows (s pat rep : string) :
  (String.length pat <= String.length rep)%nat ->
  (String.length s <= String.length (replace s pat rep))%nat.
Proof.
  intros H. destruct (replace_length s pat rep) as [[_ L]|[_ ->]]; lia.
Qed.

Ltac name_cases :=
  repeat match goal with
         | |- context [match find ?f ?l with _ => _ end] =>
             let E := fresh "E" in destruct (find f l) eqn:E
         | |- context [if ?c then _ else _] =>
             let C := fresh "C" in destruct c eqn:C
         | |- context [match negb ?c with _ => _ end] =>
             let C := fresh "C" in destruct (negb c) eqn:C
         end.

(** A match found by one of the look-ups of the disambiguation has a
    name of more than one character. *)
Ltac found_long :=
  match goal with
  | E : find _ _ = Some ?m |- ~ oneLetter (Match.name ?m) =>
      apply find_some in E; destruct E as [_ E];
      repeat (apply andb_true_iff in E; destruct E as [E ?]);
      unfold oneLetter;
      first [ apply includes_length in E; simpl in E; lia
            | apply orb_true_iff in E; destruct E as [E|E];
              apply String.eqb_eq in E; rewrite E; simpl; lia
            | apply String.eqb_eq in E; rewrite E; simpl; lia ]
  end.

Lemma rename_name (m : Match.t) (n : string) : Match.name (Match.rename m n) = n.
Proof. reflexivity. Qed.

Lemma resolveSharp9_name matches hasMin3 hasMaj3 tensionInfo best :
  keptOrLong best (Lib.resolveSharp9 matches hasMin3 hasMaj3 tensionInfo best).
Proof.
  unfold keptOrLong, Lib.resolveSharp9.
  name_cases; try (left; reflexivity); right; try found_long;
    change (Match.with_pattern best (ChordPattern.with_name (Match.pattern best) ?n))
      with (Match.rename best n); rewrite ?rename_name; unfold oneLetter;
    change (ChordPattern.name (Match.pattern best)) with (Match.name best) in *.
  all: try (simpl; lia).
  all: try (rewrite append_length; simpl; lia).
  all: repeat match goal with
              | C : includes _ _ = true |- _ => apply includes_length in C; simpl in C
              end.
  all: try (assert (G := replace_grows (Match.name best) "#9" "(add b3)");
            simpl in G; lia).
  all: assert (G1 := replace_grows (Match.name best) "#9" "b3" ltac:(simpl; lia));
    assert (G2 := replace_grows (replace (Match.name best) "#9" "b3") "add" "(add "
                    ltac:(simpl; lia));
    assert (G3 := replace_grows
                    (replace (replace (Match.name best) "#9" "b3") "add" "(add ")
                    "madd" "m(add " ltac:(simpl; lia));
    rewrite ?append_length; lia.
Qed.

Lemma resolveSharp11_name matches hasTritone hasNatural5 tensionInfo best :
  keptOrLong best (Lib.resolveSharp11 matches hasTritone hasNatural5 tensionInfo best).
Proof.
  unfold keptOrLong, Lib.resolveSharp11.
  name_cases; try (left; reflexivity); right; try found_long;
    change (Match.with_pattern best (ChordPattern.with_name (Match.pattern best) ?n))
      with (Match.rename best n); rewrite ?rename_name; unfold oneLetter;
    change (ChordPattern.name (Match.pattern best)) with (Match.name best) in *.
  all: try (simpl; lia).
  all: repeat match goal with
              | C : includes _ _ = true |- _ => apply includes_length in C; simpl in C
              | C : _ && _ = true |- _ => apply andb_true_iff in C; destruct C as [C ?]
              end.
  all: try (assert (G := replace_grows (Match.name best) "b5" "#11" ltac:(simpl; lia));
            lia).
  all: destruct (replace_length (Match.name best) "#11" "b5") as [[_ L]|[_ L]];
    [simpl in L; lia|rewrite L; lia].
Qed.

Lemma resolveFlat13_name matches hasPitchClass8 hasNatural5 has7th best :
  keptOrLong best (Lib.resolveFlat13 matches hasPitchClass8 hasNatural5 has7th best).
Proof.
  unfold keptOrLong, Lib.resolveFlat13.
  name_cases; try (left; reflexivity); right; found_long.
Qed.

Lemma keptOrLong_trans (a b c : Match.t) :
  keptOrLong a b -> keptOrLong b c -> keptOrLong a c.
Proof.
  unfold keptOrLong. intros [E1|L1] [E2|L2].
  - left. congruence.
  - now right.
  - right. now rewrite E2.
  - now right.
Qed.

Lemma disambiguate_name sorted uniquePitchClasses matches best :
  keptOrLong best (fst (Lib.disambiguate sorted uniquePitchClasses matches best)).
Proof.
  unfold Lib.disambiguate. cbv zeta. cbn [fst].
  eapply keptOrLong_trans; [|apply resolveFlat13_name].
  eapply keptOrLong_trans; [|apply resolveSharp11_name].
  apply resolveSharp9_name.
Qed.

(** Where a generated match was pushed. *)
Lemma generateMatches_origin (u : list Z) (e : Match.t) :
  In e (Lib.generateMatches u) ->
  In (Match.pattern e) Lib.CHORD_PATTERNS
  /\ exists r,
      let intervals := Lib.intervalsFrom u r in
      (In r u /\ In e (Lib.rootedMatch intervals (fromSet intervals) r (Match.pattern e)))
      \/ In e (Lib.rootlessMatch intervals (fromSet intervals) r (Match.pattern e)).
Proof.
  unfold Lib.generateMatches, Lib.rootedMatches, Lib.rootlessMatches.
  rewrite in_app_iff, !in_flat_map.
  intros [[r [Hr H]]|[r [Hr H]]].
  - cbv zeta in H. apply in_flat_map in H. destruct H as [p [Hp H]].
    destruct (rootedMatch_inv _ _ _ _ _ H) as (E & _). subst p.
    split; [exact Hp|]. exists r. left. auto.
  - destruct (has u r); [destruct H|].
    cbv zeta in H. apply in_flat_map in H. destruct H as [p [Hp H]].
    destruct (rootlessMatch_inv _ _ _ _ _ H) as (E & _). subst p.
    split; [exact Hp|]. exists r. right. exact H.
Qed.

Lemma rootedMatch_generated (u : list Z) (r : Z) (p : ChordPattern.t) (n : Match.t) :
  In r u -> In p Lib.CHORD_PATTERNS ->
  In n (Lib.rootedMatch (Lib.intervalsFrom u r) (fromSet (Lib.intervalsFrom u r)) r p) ->
  In n (Lib.generateMatches u).
Proof.
  intros Hr Hp Hn. unfold Lib.generateMatches, Lib.rootedMatches.
  apply in_app_iff. left. apply in_flat_map. exists r. split; [exact Hr|].
  cbv zeta. apply in_flat_map. exists p. auto.
Qed.

Lemma patternEqb_eq (p q : ChordPattern.t) : patternEqb p q = true -> p = q.
Proof.
  destruct p as [n1 i1 p1 o1], q as [n2 i2 p2 o2]. unfold patternEqb. simpl.
  intros H. repeat (apply andb_true_iff in H; destruct H as [H ?]).
  apply String.eqb_eq in H. destruct (list_eq_dec Z.eq_dec i1 i2); [|discriminate].
  apply Z.eqb_eq in H1. subst.
  destruct o1 as [[|]|], o2 as [[|]|]; try discriminate; reflexivity.
Qed.

Lemma minor_in_catalog (p : ChordPattern.t) :
  In p Lib.CHORD_PATTERNS -> ChordPattern.name p = "m" -> p = MINOR.
Proof.
  intros Hp Hn.
  assert (C : forallb (fun p => if String.eqb (ChordPattern.name p) "m"
                                then patternEqb p MINOR else true)
                      Lib.CHORD_PATTERNS = true) by (vm_compute; reflexivity).
  rewrite forallb_forall in C. specialize (C p Hp). rewrite Hn in C.
  now apply patternEqb_eq.
Qed.

Lemma madd_sharp9_in_catalog : In MADD_SHARP9 Lib.CHORD_PATTERNS.
Proof.
  assert (C : existsb (fun p => patternEqb p MADD_SHARP9) Lib.CHORD_PATTERNS = true)
    by (vm_compute; reflexivity).
  apply existsb_exists in C. destruct C as [p [Hp E]].
  apply patternEqb_eq in E. now subst.
Qed.

(** Wherever the minor triad matches, madd#9 matches at the same root
    with a higher score. *)
Lemma minor_outscored (u : list Z) (e : Match.t) :
  In e (Lib.generateMatches u) -> Match.name e = "m" ->
  exists n, In n (Lib.generateMatches u) /\ Match.score e < Match.score n.
Proof.
  intros He Hn. destruct (generateMatches_origin u e He) as [Hp [r H]].
  assert (Ep := minor_in_catalog _ Hp Hn). rewrite Ep in H. cbv zeta in H.
  destruct H as [[Hr H]|H]; [|cbv in H; destruct H].
  set (I := Lib.intervalsFrom u r) in *. set (S := fromSet I) in *.
  assert (G : exists n, In n (Lib.rootedMatch I S r MADD_SHARP9)
                        /\ Match.score e < Match.score n).
  { revert H. unfold Lib.rootedMatch, MINOR, MADD_SHARP9.
    cbn [ChordPattern.intervals ChordPattern.priority ChordPattern.omits5th
           ChordPattern.allowOmit5th].
    destruct (_ && _).
    - intros [<-|[]]. eexists. split; [left; reflexivity|]. cbn. lia.
    - destruct (forallb (has S) [0; 3; 7]).
      + intros [<-|[]]. eexists. split; [left; reflexivity|]. cbn [Match.score]. lia.
      + cbn [andb]. intros []. }
  destruct G as [n [Hin Hs]]. exists n. split; [|exact Hs].
  exact (rootedMatch_generated u r MADD_SHARP9 n Hr madd_sharp9_in_catalog Hin).
Qed.

(** The first match of the sorted array is never the minor triad. *)
Lemma selected_not_minor (u : list Z) (best : Match.t) (rest : list Match.t) :
  sort Lib.byScoreDescending (Lib.generateMatches u) = best :: rest ->
  Match.name best <> "m".
Proof.
  intros E Hn. destruct (sorted_head_max _ _ _ E) as [Hin Hmax].
  destruct (minor_outscored u best Hin Hn) as [n [Hn1 Hn2]].
  specialize (Hmax n Hn1). lia.
Qed.

(** The quality of an analysis assembled from a match is the name of the
    final [best], which is the name of the selected match or a name of
    more than one character. *)
Lemma returned_quality (activeNotes : list Z) (a : ChordAnalysis.t) :
  Lib.analyzeChord activeNotes = Normal (Some a) ->
  ChordAnalysis.quality a = EmptyString
  \/ ~ oneLetter (ChordAnalysis.quality a)
  \/ exists best rest,
      sort Lib.byScoreDescending (matchesOf activeNotes) = best :: rest
      /\ ChordAnalysis.quality a = Match.name best.
Proof.
  intros Ha. destruct (analysis_shape activeNotes a Ha) as [Hne H].
  destruct H as [[_ Hf]|(best & rest & b & ai & E & Ed & Has)].
  - left. unfold Lib.fallback in Hf.
    destruct (Lib.getRootSpelling _ _); [|discriminate]. cbn [JS.bind] in Hf.
    destruct (mapM _ _); [|discriminate]. cbn [JS.bind] in Hf.
    now injection Hf as <-.
  - right.
    assert (K := disambiguate_name (sort ascending activeNotes)
                   (uniquePitchClassesOf activeNotes) (best :: rest) best).
    rewrite Ed in K. cbn [fst] in K.
    unfold Lib.assemble in Has.
    destruct (Lib.getRootSpelling _ _); [|discriminate].
    destruct (Lib.getChordToneSpelling _ _); [|discriminate].
    cbn [JS.bind] in Has. injection Has as <-. cbn [ChordAnalysis.quality].
    destruct K as [K|K]; [right|left; exact K].
    exists best, rest. auto.
Qed.

(** X9.  analyzeChord never returns the quality "m": wherever the minor
    triad pattern matches, the pattern madd#9 (whose intervals normalise
    to the same 0, 3, 7) matches at the same root with a higher score,
    and no disambiguation step produces the name.  Hence a training
    target of type Minor (quality "m") is matched by no analysis. *)
Theorem minor_quality_never_returned (activeNotes : list Z) (a : ChordAnalysis.t) :
  Lib.analyzeChord activeNotes = Normal (Some a) ->
  ChordAnalysis.quality a <> "m"
  /\ (forall rootIndex t,
         Chorduroy.targetAt rootIndex 1 = Some t ->
         Chorduroy.targetQuality t = "m" /\ Chorduroy.isMatch t a = false).
Proof.
  intros Ha.
  assert (Q : ChordAnalysis.quality a <> "m").
  { destruct (returned_quality activeNotes a Ha) as [Q|[Q|(best & rest & E & Q)]].
    - rewrite Q. discriminate.
    - intros C. apply Q. rewrite C. reflexivity.
    - rewrite Q. eapply selected_not_minor. exact E. }
  split; [exact Q|].
  intros rootIndex t Ht. unfold Chorduroy.targetAt in Ht.
  destruct (nth_error Chorduroy.TARGET_ROOTS rootIndex) as [r|]; [|discriminate].
  cbn in Ht. injection Ht as <-. split; [reflexivity|].
  unfold Chorduroy.isMatch. cbn [Chorduroy.targetQuality].
  apply String.eqb_neq in Q. rewrite Q. apply andb_false_r.
Qed.

Lemma minor_quality_never_returned_witness :
  exists a t,
    Lib.analyzeChord [60; 63; 67] = Normal (Some a)
    /\ ChordAnalysis.quality a = "madd#9"
    /\ ChordAnalysis.quality a <> "m"
    /\ Chorduroy.targetAt 0 1 = Some t
    /\ Chorduroy.targetDisplay t = "Cm (Minor)"
    /\ Chorduroy.isMatch t a = false.
Proof.
  destruct (Lib.analyzeChord [60; 63; 67]) as [[a|]|] eqn:E;
    [|vm_compute in E; discriminate|vm_compute in E; discriminate].
  destruct (minor_quality_never_returned [60; 63; 67] a E) as [Q T].
  destruct (Chorduroy.targetAt 0 1) as [t|] eqn:Et; [|discriminate Et].
  exists a, t. split; [reflexivity|]. split.
  { vm_compute in E. injection E as <-. reflexivity. }
  split; [exact Q|]. split; [reflexivity|]. split.
  { vm_compute in Et. injection Et as <-. reflexivity. }
  exact (proj2 (T 0%nat t Et)).
Defined.

(* ================================================================= *)
(** ** Tension-aware spelling and the note chips *)
(* ================================================================= *)

(** The reading of names agrees with the map of [rootToPitchClass] on
    each of its keys. *)
Lemma root_map_denotes (key : string) (n : Z) :
  In (key, n) Chorduroy.ROOT_MAP -> pitchClassOfName key = Some n.
Proof.
  intros H. cbv [Chorduroy.ROOT_MAP] in H.
  repeat (destruct H as [H|H]; [injection H as <- <-; reflexivity|]).
  destruct H.
Qed.

Lemma tension_table_denotes :
  forallb (fun r => forallb (fun p => forallb (tensionDenotes r p) [natural; sharp; flat])
                            PITCH_CLASSES) PITCH_CLASSES = true.
Proof. vm_compute. reflexivity. Qed.

Lemma getTensionSpellings_missing (r : Z) :
  ~ 0 <= r < 12 ->
  Lib.getTensionSpellings r = TypeError.
Proof.
  intros H. unfold Lib.getTensionSpellings.
  now rewrite (scaleEntry_missing r 1 H).
Qed.

Lemma getChordToneWithTension_denotes (p r : Z) (patternName : string)
      (actualInterval : option Z) :
  0 <= r < 12 -> 0 <= p < 12 ->
  exists s,
    Lib.getChordToneWithTension p r patternName actualInterval = Normal s
    /\ pitchClassOfName s = Some p
    /\ (Lib.getTensionQuality patternName (Z.rem (Z.rem (p - r) 12 + 12) 12) actualInterval
        <> sharp ->
        Lib.getChordToneSpelling p r = Normal s).
Proof.
  intros Hr Hp.
  assert (T := tension_table_denotes).
  rewrite forallb_forall in T. specialize (T r (proj2 (in_PITCH_CLASSES r) Hr)).
  rewrite forallb_forall in T. specialize (T p (proj2 (in_PITCH_CLASSES p) Hp)).
  rewrite forallb_forall in T.
  unfold Lib.getChordToneWithTension. cbv zeta.
  set (q := Lib.getTensionQuality _ _ _).
  assert (Hq : In q [natural; sharp; flat]) by (destruct q; cbn; auto).
  specialize (T q Hq). unfold tensionDenotes in T. cbv zeta in T.
  destruct (if negb _ then _ else _) as [s|]; [|discriminate].
  exists s. split; [reflexivity|].
  destruct (pitchClassOfName s) as [n|]; [|discriminate].
  apply andb_prop in T. destruct T as [T1 T2].
  apply Z.eqb_eq in T1. subst n. split; [reflexivity|].
  intros Hns. destruct q; [|congruence|];
    (destruct (Lib.getChordToneSpelling p r) as [t|]; [|discriminate];
     apply String.eqb_eq in T2; now subst t).
Qed.

(** X11.  The tension-aware spelling is total on the roots of the
    spelling table and keeps the pitch: for a root and a pitch class
    within 0..11, whatever the pattern name and the actual interval,
    getChordToneWithTension returns a name that denotes the pitch class
    (double sharps included), and unless the tension is read as sharp
    the name is the one getChordToneSpelling gives.  For a root outside
    0..11 the call throws. *)
Theorem tension_spelling_denotes (p r : Z) (patternName : string)
        (actualInterval : option Z) :
  (0 <= r < 12 -> 0 <= p < 12 ->
   exists s,
     Lib.getChordToneWithTension p r patternName actualInterval = Normal s
     /\ pitchClassOfName s = Some p
     /\ (Lib.getTensionQuality patternName (Z.rem (Z.rem (p - r) 12 + 12) 12)
                               actualInterval <> sharp ->
         Lib.getChordToneSpelling p r = Normal s))
  /\ (~ 0 <= r < 12 ->
      Lib.getChordToneWithTension p r patternName actualInterval = TypeError).
Proof.
  split.
  - apply getChordToneWithTension_denotes.
  - intros H. unfold Lib.getChordToneWithTension. cbv zeta.
    rewrite (getTensionSpellings_missing r H), (scaleEntry_missing r _ H).
    now destruct (negb _).
Qed.

Lemma tension_spelling_denotes_witness :
  (exists s,
      Lib.getChordToneWithTension 9 6 "7#9" (Some 15) = Normal s
      /\ s = "G##" /\ pitchClassOfName s = Some 9)
  /\ Lib.getChordToneWithTension 9 6 "min7" (Some 3) = Lib.getChordToneSpelling 9 6
  /\ Lib.getChordToneWithTension 9 12 "min7" (Some 3) = TypeError.
Proof.
  destruct (tension_spelling_denotes 9 6 "7#9" (Some 15)) as [H _].
  destruct (tension_spelling_denotes 9 6 "min7" (Some 3)) as [H' _].
  destruct (tension_spelling_denotes 9 12 "min7" (Some 3)) as [_ H''].
  destruct H as [s (E & D & _)]; [lia|lia|].
  destruct H' as [s' (E' & _ & N)]; [lia|lia|].
  split; [|split].
  - exists s. split; [exact E|]. split; [|exact D].
    vm_compute in E. now injection E as <-.
  - rewrite E'. symmetry. apply N. vm_compute. discriminate.
  - apply H''. lia.
Defined.

Lemma noteChip_shows (a : ChordAnalysis.t) (sortedActiveNotes : list Z)
      (note : Z) (noteIndex : nat) :
  0 <= ChordAnalysis.detectedRootPitchClass a < 12 ->
  0 <= note ->
  exists chip,
    Chorduroy.noteChip (Some a) sortedActiveNotes note noteIndex = Normal chip
    /\ chipShows (ChordAnalysis.detectedRootPitchClass a) note chip.
Proof.
  intros Hr Hn. unfold Chorduroy.noteChip. cbv zeta.
  rewrite Z.rem_mod_nonneg by lia.
  assert (Hp : 0 <= note mod 12 < 12) by (apply Z.mod_pos_bound; lia).
  destruct (getChordToneWithTension_denotes (note mod 12)
              (ChordAnalysis.detectedRootPitchClass a) (ChordAnalysis.quality a)
              (match ChordAnalysis.actualIntervals a with
               | Some intervals => nth_error intervals noteIndex
               | None => None
               end) Hr Hp) as [s (E & D & _)].
  rewrite E. cbn [JS.bind]. eexists. split; [reflexivity|].
  unfold chipShows. cbn [Chorduroy.noteName Chorduroy.intervalName].
  split; [exact D|].
  clear E D. revert Hp. generalize (note mod 12). intros p Hp.
  revert Hr. generalize (ChordAnalysis.detectedRootPitchClass a). intros r Hr.
  apply in_range_cases in Hr. apply in_range_cases in Hp.
  repeat (destruct Hr as [Hr|Hr]); subst r;
    repeat (destruct Hp as [Hp|Hp]); subst p;
    vm_compute; (split; [tauto|split; congruence]).
Qed.

Lemma noteChipsFrom_shows (a : ChordAnalysis.t) (sortedActiveNotes notes : list Z) :
  0 <= ChordAnalysis.detectedRootPitchClass a < 12 ->
  midiNotes notes ->
  forall noteIndex, exists chips,
    Chorduroy.noteChipsFrom (Some a) sortedActiveNotes noteIndex notes = Normal chips
    /\ Forall2 (chipShows (ChordAnalysis.detectedRootPitchClass a)) notes chips.
Proof.
  intros Hr Hm. induction Hm as [|note notes Hn Hm IH]; intros noteIndex.
  - exists []. split; [reflexivity|constructor].
  - cbn [Chorduroy.noteChipsFrom].
    destruct (noteChip_shows a sortedActiveNotes note noteIndex Hr Hn) as [chip [E Hc]].
    destruct (IH (S noteIndex)) as [chips [E' Hcs]].
    rewrite E. cbn [JS.bind]. rewrite E'. cbn [JS.bind].
    exists (chip :: chips). split; [reflexivity|now constructor].
Qed.

(** X12.  The row of note chips, with or without a selected card, for
    held notes that are MIDI notes and a selected card whose notes are
    MIDI notes and whose analysis, if it has one, has its root within
    0..11 (as every analysis analyzeChord returns for MIDI notes has).
    The chips stand for the notes of the selected card, or for the held
    notes when no card is selected, in ascending order; the chord they
    are read against is the analysis of the selected card, or the chord
    being played when no card is selected or the card has no analysis.
    When there is such a chord the row is computed without an exception,
    one chip per note: the name on a chip denotes the pitch class of its
    note, the label is "R" exactly on the notes of the root of that
    chord, and the other labels are min, Maj, Perf and Tritone (never
    "Root", never "?").  When there is none, no note is held, and the
    row is empty if there is no note to show and throws otherwise (a
    selected card with notes and without analysis). *)
Theorem note_chip_row
        (selectedSegment : option Chorduroy.PhraseSegment) (activeNotes : list Z) :
  midiNotes activeNotes ->
  (forall segment, selectedSegment = Some segment ->
                   midiNotes (Chorduroy.notes segment)
                   /\ forall chord, Chorduroy.analysis segment = Some chord ->
                                    0 <= ChordAnalysis.detectedRootPitchClass chord < 12) ->
  exists currentChord,
    Lib.analyzeChord activeNotes = Normal currentChord
    /\ (currentChord = None <-> activeNotes = [])
    /\ match Chorduroy.displayChord selectedSegment currentChord with
       | Some chord =>
           exists chips,
             Chorduroy.noteChips selectedSegment activeNotes = Normal chips
             /\ Forall2 (chipShows (ChordAnalysis.detectedRootPitchClass chord))
                        (Chorduroy.shownNotes selectedSegment
                                              (sort ascending activeNotes))
                        chips
       | None =>
           activeNotes = []
           /\ Chorduroy.noteChips selectedSegment activeNotes
              = match Chorduroy.shownNotes selectedSegment (sort ascending activeNotes)
                with
                | [] => Normal []
                | _ :: _ => TypeError
                end
       end.
Proof.
  intros Hm Hseg.
  assert (Hcur : exists currentChord,
             Lib.analyzeChord activeNotes = Normal currentChord
             /\ (currentChord = None <-> activeNotes = [])
             /\ forall chord, currentChord = Some chord ->
                              0 <= ChordAnalysis.detectedRootPitchClass chord < 12).
  { destruct activeNotes as [|n l].
    - exists None. split; [reflexivity|]. split; [tauto|]. discriminate.
    - destruct (analyzeChord_returns (n :: l)) as [a [Ha _]]; [discriminate|exact Hm|].
      exists (Some a). split; [exact Ha|]. split; [split; discriminate|].
      intros chord E. injection E as <-.
      exact (proj1 (returned_root_denotes (n :: l) a Hm Ha)). }
  destruct Hcur as (currentChord & Ha & Hnone & Hroot).
  exists currentChord. split; [exact Ha|]. split; [exact Hnone|].
  assert (Hshown : midiNotes (Chorduroy.shownNotes selectedSegment
                                                   (sort ascending activeNotes))).
  { unfold Chorduroy.shownNotes. destruct selectedSegment as [segment|].
    - apply midiNotes_sort. exact (proj1 (Hseg segment eq_refl)).
    - now apply midiNotes_sort. }
  assert (Hdisplay : forall chord,
             Chorduroy.displayChord selectedSegment currentChord = Some chord ->
             0 <= ChordAnalysis.detectedRootPitchClass chord < 12).
  { intros chord. unfold Chorduroy.displayChord.
    destruct selectedSegment as [segment|]; [|apply Hroot].
    destruct (Chorduroy.analysis segment) as [c|] eqn:Ec; [|apply Hroot].
    intros E. injection E as <-. exact (proj2 (Hseg segment eq_refl) c Ec). }
  unfold Chorduroy.noteChips. rewrite Ha. cbn [JS.bind].
  destruct (Chorduroy.displayChord selectedSegment currentChord) as [chord|] eqn:Ed.
  - apply (noteChipsFrom_shows chord (sort ascending activeNotes) _
             (Hdisplay chord eq_refl) Hshown 0%nat).
  - assert (Hc : currentChord = None).
    { unfold Chorduroy.displayChord in Ed.
      destruct selectedSegment as [segment|]; [|exact Ed].
      destruct (Chorduroy.analysis segment); [discriminate|exact Ed]. }
    assert (He : activeNotes = []) by now apply Hnone.
    split; [exact He|]. subst activeNotes.
    destruct (Chorduroy.shownNotes selectedSegment (sort ascending [])); reflexivity.
Qed.

Lemma note_chip_row_witness :
  exists chord,
    Lib.analyzeChord [67; 60; 64] = Normal (Some chord)
    /\ Chorduroy.noteChips (Some (Chorduroy.mkSegment [67; 60; 64] (Some chord))) []
       = Normal [Chorduroy.mkChip "C" "R"; Chorduroy.mkChip "E" "Maj";
                 Chorduroy.mkChip "G" "Perf"]
    /\ (exists chips,
           Chorduroy.noteChips (Some (Chorduroy.mkSegment [67; 60; 64] (Some chord))) []
           = Normal chips
           /\ Forall2 (chipShows (ChordAnalysis.detectedRootPitchClass chord))
                      [60; 64; 67] chips)
    /\ Chorduroy.noteChips None [71; 64; 67]
       = Normal [Chorduroy.mkChip "E" "R"; Chorduroy.mkChip "F##" "min";
                 Chorduroy.mkChip "B" "Perf"]
    /\ Chorduroy.noteChips None [] = Normal []
    /\ Chorduroy.noteChips (Some (Chorduroy.mkSegment [60] None)) [] = TypeError.
Proof.
  destruct (Lib.analyzeChord [67; 60; 64]) as [[chord|]|] eqn:E;
    [|vm_compute in E; discriminate|vm_compute in E; discriminate].
  assert (R : ChordAnalysis.detectedRootPitchClass chord = 0).
  { vm_compute in E. injection E as <-. reflexivity. }
  assert (M : midiNotes []) by constructor.
  assert (Hseg : forall segment,
             Some (Chorduroy.mkSegment [67; 60; 64] (Some chord)) = Some segment ->
             midiNotes (Chorduroy.notes segment)
             /\ forall c, Chorduroy.analysis segment = Some c ->
                          0 <= ChordAnalysis.detectedRootPitchClass c < 12).
  { intros segment H. injection H as <-. split; [repeat constructor; lia|].
    intros c H. injection H as <-. rewrite R. lia. }
  destruct (note_chip_row (Some (Chorduroy.mkSegment [67; 60; 64] (Some chord))) []
                          M Hseg) as (currentChord & _ & _ & H).
  cbn [Chorduroy.displayChord Chorduroy.analysis] in H.
  exists chord. split; [reflexivity|]. split.
  { vm_compute in E. injection E as <-. vm_compute. reflexivity. }
  split; [exact H|]. split; [vm_compute; reflexivity|]. split; reflexivity.
Defined.

(* ================================================================= *)
(** ** Actual intervals *)
(* ================================================================= *)

Lemma Math_min_spec (x : Z) (rest : list Z) :
  In (Math_min x rest) (x :: rest)
  /\ forall y, In y (x :: rest) -> Math_min x rest <= y.
Proof.
  unfold Math_min. revert x. induction rest as [|z rest IH]; intros x.
  - cbn. split; [now left|]. intros y [<-|[]]. lia.
  - cbn [fold_left]. destruct (IH (Z.min x z)) as [Hin Hle]. split.
    + destruct Hin as [Hin|Hin]; [|now right; right].
      rewrite <- Hin. destruct (Z.min_spec x z) as [[_ ->]|[_ ->]]; cbn; auto.
    + intros y [<-|[<-|Hy]].
      * specialize (Hle (Z.min x z) (or_introl eq_refl)). lia.
      * specialize (Hle (Z.min x z) (or_introl eq_refl)). lia.
      * apply Hle. now right.
Qed.

Lemma rootInstances_nonempty (notes : list Z) (r : Z) :
  midiNotes notes ->
  (filter (fun n => Z.rem n 12 =? r) notes <> [] <-> In r (pitchClassesPlayed notes)).
Proof.
  intros Hm. unfold pitchClassesPlayed. split.
  - intros H. destruct (filter _ _) as [|n l] eqn:E; [congruence|].
    assert (Hn : In n (filter (fun n => Z.rem n 12 =? r) notes))
      by (rewrite E; now left).
    apply filter_In in Hn. destruct Hn as [Hn Hr]. apply Z.eqb_eq in Hr.
    apply in_map_iff. exists n. split; [|exact Hn].
    rewrite <- Hr. symmetry. apply Z.rem_mod_nonneg; [|lia].
    unfold midiNotes in Hm. rewrite Forall_forall in Hm. now apply Hm.
  - intros H. apply in_map_iff in H. destruct H as [n [Hr Hn]].
    assert (Hf : In n (filter (fun n => Z.rem n 12 =? r) notes)).
    { apply filter_In. split; [exact Hn|]. apply Z.eqb_eq.
      rewrite <- Hr. apply Z.rem_mod_nonneg; [|lia].
      unfold midiNotes in Hm. rewrite Forall_forall in Hm. now apply Hm. }
    intros E. rewrite E in Hf. destruct Hf.
Qed.

(** The reference of the intervals is a position of the root. *)
Lemma rootMidiOf_congruent (notes : list Z) (lowest r : Z) :
  midiNotes notes -> 0 <= lowest -> 0 <= r < 12 ->
  rootMidiOf notes lowest r mod 12 = r.
Proof.
  intros Hm Hl Hr. unfold rootMidiOf.
  destruct (filter _ _) as [|n l] eqn:E.
  - rewrite rem_rem_mod, Z.rem_mod_nonneg by lia.
    Z.div_mod_to_equations. lia.
  - destruct (Math_min_spec n l) as [Hin _]. rewrite <- E in Hin.
    apply filter_In in Hin. destruct Hin as [Hin Hq]. apply Z.eqb_eq in Hq.
    rewrite <- Hq. symmetry. apply Z.rem_mod_nonneg; [|lia].
    unfold midiNotes in Hm. rewrite Forall_forall in Hm. now apply Hm.
Qed.

Lemma calculateActualIntervals_shape (notes : list Z) (r : Z) :
  Lib.calculateActualIntervals notes r
  = map (fun midi =>
           ActualIntervalInfo.mk (Z.rem midi 12)
                                 (midi - rootMidiOf notes (hd 0 notes) r) midi)
        notes.
Proof. destruct notes; reflexivity. Qed.

Lemma calculateActualIntervals_consistent (notes : list Z) (r : Z) :
  midiNotes notes -> 0 <= r < 12 ->
  Forall (consistentWith r) (Lib.calculateActualIntervals notes r).
Proof.
  intros Hm Hr. rewrite calculateActualIntervals_shape.
  assert (Hl : 0 <= hd 0 notes).
  { destruct Hm; cbn; lia. }
  assert (C := rootMidiOf_congruent notes (hd 0 notes) r Hm Hl Hr).
  revert C. generalize (rootMidiOf notes (hd 0 notes) r). intros rootMidi C.
  apply Forall_forall. intros info Hin. apply in_map_iff in Hin.
  destruct Hin as [n [<- Hn]]. unfold consistentWith.
  cbn [ActualIntervalInfo.pitchClass ActualIntervalInfo.midi
       ActualIntervalInfo.actualInterval].
  assert (0 <= n) by (unfold midiNotes in Hm; rewrite Forall_forall in Hm; now apply Hm).
  rewrite Z.rem_mod_nonneg by lia. split; [reflexivity|].
  Z.div_mod_to_equations. lia.
Qed.

(** What [getActualIntervalForPitchClass] returns: the distance modulo
    12 when no entry has the pitch class, and the interval of one of
    the entries with that pitch class otherwise. *)
Lemma getActualIntervalForPitchClass_found
      (actualIntervals : list ActualIntervalInfo.t) (t r : Z) :
  (~ In t (map ActualIntervalInfo.pitchClass actualIntervals)
   /\ Lib.getActualIntervalForPitchClass actualIntervals t r = (t - r) mod 12)
  \/ (exists info,
         In info actualIntervals
         /\ ActualIntervalInfo.pitchClass info = t
         /\ ActualIntervalInfo.actualInterval info
            = Lib.getActualIntervalForPitchClass actualIntervals t r).
Proof.
  unfold Lib.getActualIntervalForPitchClass. cbv zeta.
  set (matches := filter _ actualIntervals).
  assert (Hm : forall m, In m matches ->
                         In m actualIntervals /\ ActualIntervalInfo.pitchClass m = t).
  { intros m H. apply filter_In in H. destruct H as [H1 H2].
    apply Z.eqb_eq in H2. auto. }
  destruct matches as [|m0 ms] eqn:E.
  - left. split; [|apply rem_rem_mod].
    intros H. apply in_map_iff in H. destruct H as [i [Hi Hin]].
    assert (In i matches).
    { unfold matches. apply filter_In. split; [exact Hin|]. now apply Z.eqb_eq. }
    rewrite E in H. destruct H.
  - right. cbn [map].
    destruct (find _ (m0 :: ms)) as [c|] eqn:F.
    + apply find_some in F. destruct F as [F _].
      exists c. destruct (Hm c F). auto.
    + destruct (Math_min_spec (ActualIntervalInfo.actualInterval m0)
                  (map ActualIntervalInfo.actualInterval ms)) as [Hin _].
      change (In (Math_min (ActualIntervalInfo.actualInterval m0)
                           (map ActualIntervalInfo.actualInterval ms))
                 (map ActualIntervalInfo.actualInterval (m0 :: ms))) in Hin.
      apply in_map_iff in Hin. destruct Hin as [i [Hi Hin]].
      exists i. destruct (Hm i Hin). auto.
Qed.

(** X13.  The actual intervals are measured from a position of the
    root: for MIDI notes and a root within 0..11, calculateActualIntervals
    returns one entry per note, in order, each with the pitch class of
    its note and an interval congruent modulo 12 to the distance of that
    pitch class from the root.  getActualIntervalForPitchClass then
    returns, for a pitch class that is played, the interval of one of
    its notes and, for one that is not, the distance modulo 12; in both
    cases a number congruent to the distance from the root. *)
Theorem actual_intervals_congruent (notes : list Z) (r : Z) :
  midiNotes notes -> 0 <= r < 12 ->
  map ActualIntervalInfo.midi (Lib.calculateActualIntervals notes r) = notes
  /\ Forall (consistentWith r) (Lib.calculateActualIntervals notes r)
  /\ forall t, 0 <= t < 12 ->
       Lib.getActualIntervalForPitchClass (Lib.calculateActualIntervals notes r) t r mod 12
       = (t - r) mod 12
       /\ (In t (pitchClassesPlayed notes) ->
           exists n, In n notes /\ n mod 12 = t
                     /\ Lib.getActualIntervalForPitchClass
                          (Lib.calculateActualIntervals notes r) t r
                        = n - rootMidiOf notes (hd 0 notes) r)
       /\ (~ In t (pitchClassesPlayed notes) ->
           Lib.getActualIntervalForPitchClass (Lib.calculateActualIntervals notes r) t r
           = (t - r) mod 12).
Proof.
  intros Hm Hr.
  assert (C := calculateActualIntervals_consistent notes r Hm Hr).
  assert (Hpc : map ActualIntervalInfo.pitchClass (Lib.calculateActualIntervals notes r)
                = pitchClassesPlayed notes).
  { rewrite calculateActualIntervals_shape, map_map. unfold pitchClassesPlayed.
    apply map_ext_in. intros n Hn. cbn.
    apply Z.rem_mod_nonneg; [|lia].
    unfold midiNotes in Hm. rewrite Forall_forall in Hm. now apply Hm. }
  split; [|split; [exact C|]].
  - rewrite calculateActualIntervals_shape, map_map. cbn. apply map_id.
  - intros t Ht.
    destruct (getActualIntervalForPitchClass_found
                (Lib.calculateActualIntervals notes r) t r)
      as [[Hn E]|[info (Hin & Hp & E)]].
    + rewrite Hpc in Hn. split; [|split].
      * rewrite E. apply Z.mod_mod. lia.
      * intros H. contradiction.
      * intros _. exact E.
    + assert (Hc : consistentWith r info)
        by (rewrite Forall_forall in C; now apply C).
      destruct Hc as [Hc1 Hc2]. split; [|split].
      * rewrite <- E, Hc2, Hp. reflexivity.
      * intros _. rewrite calculateActualIntervals_shape in Hin.
        apply in_map_iff in Hin. destruct Hin as [n [Hi Hn]].
        exists n. split; [exact Hn|]. subst info. cbn in *.
        split; [congruence|]. now rewrite <- E.
      * intros H. exfalso. apply H. rewrite <- Hpc.
        apply in_map_iff. exists info. auto.
Qed.

Lemma actual_intervals_congruent_witness :
  map ActualIntervalInfo.actualInterval (Lib.calculateActualIntervals [52; 60; 67; 74] 0)
  = [-8; 0; 7; 14]
  /\ Forall (consistentWith 0) (Lib.calculateActualIntervals [52; 60; 67; 74] 0)
  /\ Lib.getActualIntervalForPitchClass (Lib.calculateActualIntervals [52; 60; 67; 74] 0) 4 0
     = -8
  /\ Lib.getActualIntervalForPitchClass (Lib.calculateActualIntervals [52; 60; 67; 74] 0) 3 0
     = 3.
Proof.
  assert (M : midiNotes [52; 60; 67; 74]) by (repeat constructor; lia).
  assert (R : 0 <= 0 < 12) by lia.
  destruct (actual_intervals_congruent [52; 60; 67; 74] 0 M R) as (_ & C & _).
  split; [reflexivity|]. split; [exact C|]. split; reflexivity.
Defined.

(** With the root among the notes, the reference is its lowest note. *)
Lemma reference_of_played_root (lowest : Z) (rest : list Z) (r : Z) :
  midiNotes (lowest :: rest) -> 0 <= r < 12 ->
  In r (pitchClassesPlayed (lowest :: rest)) ->
  In (rootMidiOf (lowest :: rest) lowest r) (lowest :: rest)
  /\ forall n, In n (lowest :: rest) -> n mod 12 = r ->
               rootMidiOf (lowest :: rest) lowest r <= n.
Proof.
  intros Hm Hr Hp.
  apply (rootInstances_nonempty _ r Hm) in Hp.
  assert (Hmin : In (rootMidiOf (lowest :: rest) lowest r)
                    (filter (fun n => Z.rem n 12 =? r) (lowest :: rest))
                 /\ forall y, In y (filter (fun n => Z.rem n 12 =? r) (lowest :: rest)) ->
                              rootMidiOf (lowest :: rest) lowest r <= y).
  { unfold rootMidiOf. destruct (filter _ _) as [|n l]; [congruence|].
    apply Math_min_spec. }
  destruct Hmin as [Hin Hle]. split.
  - apply filter_In in Hin. tauto.
  - intros n Hn Hq. apply Hle. apply filter_In. split; [exact Hn|].
    apply Z.eqb_eq. rewrite <- Hq. apply Z.rem_mod_nonneg; [|lia].
    unfold midiNotes in Hm. rewrite Forall_forall in Hm. now apply Hm.
Qed.

(** With the root not among the notes, the reference is the nearest
    position of the root below the lowest note. *)
Lemma reference_of_missing_root (lowest : Z) (rest : list Z) (r : Z) :
  midiNotes (lowest :: rest) -> StronglySorted Z.le (lowest :: rest) -> 0 <= r < 12 ->
  ~ In r (pitchClassesPlayed (lowest :: rest)) ->
  1 <= lowest - rootMidiOf (lowest :: rest) lowest r <= 11
  /\ forall n, In n (lowest :: rest) -> 1 <= n - rootMidiOf (lowest :: rest) lowest r.
Proof.
  intros Hm Hs Hr Hp.
  assert (Hl : 0 <= lowest) by (inversion Hm; assumption).
  assert (E : filter (fun n => Z.rem n 12 =? r) (lowest :: rest) = []).
  { destruct (filter _ _) eqn:E; [reflexivity|].
    exfalso. apply Hp. apply (rootInstances_nonempty _ r Hm). congruence. }
  assert (Hlow : lowest mod 12 <> r).
  { intros H. apply Hp. cbn. now left. }
  assert (B : 1 <= lowest - rootMidiOf (lowest :: rest) lowest r <= 11).
  { unfold rootMidiOf in *. rewrite E in *.
    rewrite rem_rem_mod, Z.rem_mod_nonneg in * by lia.
    Z.div_mod_to_equations. lia. }
  split; [exact B|].
  intros n Hn. assert (lowest <= n); [|lia].
  destruct Hn as [<-|Hn]; [lia|].
  inversion Hs as [|? ? _ Hall]; subst. rewrite Forall_forall in Hall. now apply Hall.
Qed.

(** X14.  Where the intervals are measured from, for notes in ascending
    order and a root within 0..11: there is one reference, a position
    of the root (a number congruent to the root modulo 12), and the
    actual interval of every note is the note less the reference.  When
    the root is played the reference is the lowest played note of the
    root, so that no note of the root has a negative interval and
    exactly the notes below the reference have one; when the root is
    not played the reference is the position of the root next below the
    lowest note (from 1 to 11 semitones below it), so that every
    interval is positive. *)
Theorem actual_intervals_reference (lowest : Z) (rest : list Z) (r : Z) :
  midiNotes (lowest :: rest) -> StronglySorted Z.le (lowest :: rest) -> 0 <= r < 12 ->
  exists reference,
    reference mod 12 = r
    /\ Lib.calculateActualIntervals (lowest :: rest) r
       = map (fun midi => ActualIntervalInfo.mk (Z.rem midi 12) (midi - reference) midi)
             (lowest :: rest)
    /\ (In r (pitchClassesPlayed (lowest :: rest)) ->
        In reference (lowest :: rest)
        /\ (forall n, In n (lowest :: rest) -> n mod 12 = r -> reference <= n)
        /\ Forall (fun info =>
                     (ActualIntervalInfo.pitchClass info = r ->
                      0 <= ActualIntervalInfo.actualInterval info)
                     /\ (ActualIntervalInfo.actualInterval info < 0 <->
                         ActualIntervalInfo.midi info < reference))
                  (Lib.calculateActualIntervals (lowest :: rest) r))
    /\ (~ In r (pitchClassesPlayed (lowest :: rest)) ->
        lowest - 11 <= reference <= lowest - 1
        /\ Forall (fun info => 1 <= ActualIntervalInfo.actualInterval info)
                  (Lib.calculateActualIntervals (lowest :: rest) r)).
Proof.
  intros Hm Hs Hr.
  assert (Hl : 0 <= lowest) by (inversion Hm; assumption).
  exists (rootMidiOf (lowest :: rest) lowest r).
  split; [now apply rootMidiOf_congruent|].
  split; [apply calculateActualIntervals_cons|].
  rewrite calculateActualIntervals_cons.
  split; intros Hp.
  - destruct (reference_of_played_root lowest rest r Hm Hr Hp) as [Hin Hle].
    split; [exact Hin|]. split; [exact Hle|].
    apply Forall_forall. intros info Hi. apply in_map_iff in Hi.
    destruct Hi as [n [<- Hn]].
    cbn [ActualIntervalInfo.pitchClass ActualIntervalInfo.midi
         ActualIntervalInfo.actualInterval]. split; [|lia].
    intros Hq. assert (rootMidiOf (lowest :: rest) lowest r <= n); [|lia].
    apply Hle; [exact Hn|]. rewrite <- Hq. symmetry. apply Z.rem_mod_nonneg; [|lia].
    unfold midiNotes in Hm. rewrite Forall_forall in Hm. now apply Hm.
  - destruct (reference_of_missing_root lowest rest r Hm Hs Hr Hp) as [B Hall].
    split; [lia|].
    apply Forall_forall. intros info Hi. apply in_map_iff in Hi.
    destruct Hi as [n [<- Hn]]. cbn [ActualIntervalInfo.actualInterval].
    now apply Hall.
Qed.

Lemma actual_intervals_reference_witness :
  (exists reference,
      reference mod 12 = 0
      /\ In reference [52; 60; 67; 72]
      /\ (forall n, In n [52; 60; 67; 72] -> n mod 12 = 0 -> reference <= n)
      /\ map ActualIntervalInfo.actualInterval
             (Lib.calculateActualIntervals [52; 60; 67; 72] 0)
         = map (fun n => n - reference) [52; 60; 67; 72])
  /\ map ActualIntervalInfo.actualInterval (Lib.calculateActualIntervals [52; 60; 67; 72] 0)
     = [-8; 0; 7; 12]
  /\ (exists reference,
         reference mod 12 = 0
         /\ 52 - 11 <= reference <= 52 - 1
         /\ map ActualIntervalInfo.actualInterval
                (Lib.calculateActualIntervals [52; 55; 59; 62] 0)
            = map (fun n => n - reference) [52; 55; 59; 62])
  /\ map ActualIntervalInfo.actualInterval (Lib.calculateActualIntervals [52; 55; 59; 62] 0)
     = [4; 7; 11; 14].
Proof.
  assert (M : midiNotes [52; 60; 67; 72]) by (repeat constructor; lia).
  assert (M' : midiNotes [52; 55; 59; 62]) by (repeat constructor; lia).
  assert (S : StronglySorted Z.le [52; 60; 67; 72])
    by (repeat constructor; lia).
  assert (S' : StronglySorted Z.le [52; 55; 59; 62])
    by (repeat constructor; lia).
  assert (R : 0 <= 0 < 12) by lia.
  destruct (actual_intervals_reference 52 [60; 67; 72] 0 M S R)
    as [ref (C & E & H & _)].
  destruct (actual_intervals_reference 52 [55; 59; 62] 0 M' S' R)
    as [ref' (C' & E' & _ & H')].
  split; [|split; [reflexivity|split; [|reflexivity]]].
  - destruct H as (Hin & Hle & _); [vm_compute; auto|].
    exists ref. split; [exact C|]. split; [exact Hin|]. split; [exact Hle|].
    rewrite E, map_map. reflexivity.
  - destruct H' as (Hb & _); [vm_compute; intuition lia|].
    exists ref'. split; [exact C'|]. split; [exact Hb|].
    rewrite E', map_map. reflexivity.
Defined.

(* ================================================================= *)
(** ** Note names with an octave *)
(* ================================================================= *)

Lemma midiRange_In (lo : Z) (count : nat) (m : Z) :
  lo <= m < lo + Z.of_nat count -> In m (midiRange lo count).
Proof.
  intros H. unfold midiRange. apply in_map_iff.
  exists (Z.to_nat (m - lo)). split; [lia|]. apply in_seq. lia.
Qed.

Lemma names_read_back : forallb readsBack (midiRange 12 120) = true.
Proof. vm_compute. reflexivity. Qed.

Lemma names_rejected : forallb rejected (midiRange 0 12) = true.
Proof. vm_compute. reflexivity. Qed.

Lemma digitValue_range (c : ascii) (v : Z) :
  TestSuite.digitValue c = Some v -> 0 <= v <= 9.
Proof.
  unfold TestSuite.digitValue. cbv zeta.
  destruct (_ && _) eqn:E; [|discriminate].
  intros H. injection H as <-. apply andb_prop in E. lia.
Qed.

Lemma note_table_range (key : string) (v : Z) :
  Chorduroy.ownProperty TestSuite.NOTE_TO_MIDI key = Some v -> 0 <= v <= 11.
Proof.
  unfold TestSuite.NOTE_TO_MIDI. cbn [Chorduroy.ownProperty].
  repeat (destruct (String.eqb _ key); [intros H; injection H as <-; lia|]).
  discriminate.
Qed.

Lemma isNoteLetter_cases (c : ascii) :
  TestSuite.isNoteLetter c = true ->
  In c ["A"; "B"; "C"; "D"; "E"; "F"; "G"]%char.
Proof.
  unfold TestSuite.isNoteLetter. intros H. apply existsb_exists in H.
  destruct H as [x [Hx E]]. apply Ascii.eqb_eq in E. now subst x.
Qed.

Lemma isAccidental_cases (c : ascii) :
  TestSuite.isAccidental c = true -> c = "#"%char \/ c = "b"%char.
Proof.
  unfold TestSuite.isAccidental. intros H. apply orb_prop in H.
  destruct H as [H|H]; apply Ascii.eqb_eq in H; auto.
Qed.

(** X15.  Note names with an octave round-trip between the library and
    the helper of the test suite: for a MIDI number from 12 to 127 the
    helper midi reads the name of getNoteDetails back as the number; for
    a number from 0 to 11 the name carries the octave -1 and the helper
    rejects it with the error for an invalid note.  Whatever the helper
    reads as a number lies between 12 and 131 and is a fixed point of
    the round trip. *)
Theorem note_name_round_trip :
  (forall m, 12 <= m <= 127 ->
             TestSuite.midi (NoteDetails.name (Lib.getNoteDetails m)) = TestSuite.Midi m)
  /\ (forall m, 0 <= m < 12 ->
                TestSuite.midi (NoteDetails.name (Lib.getNoteDetails m))
                = TestSuite.InvalidNote)
  /\ (forall note n,
         TestSuite.midi note = TestSuite.Midi n ->
         12 <= n <= 131
         /\ TestSuite.midi (NoteDetails.name (Lib.getNoteDetails n)) = TestSuite.Midi n).
Proof.
  assert (R : forall m, 12 <= m <= 131 ->
                        TestSuite.midi (NoteDetails.name (Lib.getNoteDetails m))
                        = TestSuite.Midi m).
  { intros m Hm. assert (H := names_read_back). rewrite forallb_forall in H.
    specialize (H m (midiRange_In 12 120 m ltac:(lia))). unfold readsBack in H.
    destruct (TestSuite.midi _); try discriminate.
    apply Z.eqb_eq in H. now subst. }
  split; [intros m Hm; apply R; lia|]. split.
  - intros m Hm. assert (H := names_rejected). rewrite forallb_forall in H.
    specialize (H m (midiRange_In 0 12 m ltac:(lia))). unfold rejected in H.
    now destruct (TestSuite.midi _).
  - intros note n H.
    assert (Hn : 12 <= n <= 131); [|split; [exact Hn|now apply R]].
    unfold TestSuite.midi in H.
    destruct (TestSuite.matchNote note) as [[noteName octaveStr]|]; [|discriminate].
    destruct (TestSuite.digitValue octaveStr) as [octave|] eqn:Ed; [|discriminate].
    destruct (Chorduroy.ownProperty _ _) as [v|] eqn:Ev; [|discriminate].
    injection H as <-. apply digitValue_range in Ed. apply note_table_range in Ev. lia.
Qed.

Lemma note_name_round_trip_witness :
  TestSuite.midi (NoteDetails.name (Lib.getNoteDetails 61)) = TestSuite.Midi 61
  /\ NoteDetails.name (Lib.getNoteDetails 61) = "C#4"
  /\ TestSuite.midi (NoteDetails.name (Lib.getNoteDetails 11)) = TestSuite.InvalidNote
  /\ NoteDetails.name (Lib.getNoteDetails 11) = "B-1"
  /\ TestSuite.midi "Db4" = TestSuite.Midi 61.
Proof.
  destruct note_name_round_trip as (H1 & H2 & _).
  split; [apply H1; lia|]. split; [reflexivity|].
  split; [apply H2; lia|]. split; reflexivity.
Defined.

(** X16.  The helper midi yields NaN, rather than its error, exactly on
    the four spellings its pattern admits and its table lacks: E#, Fb,
    B# and Cb followed by one digit. *)
Theorem midi_helper_not_a_number (note : string) :
  TestSuite.midi note = TestSuite.NaN <->
  exists name digit,
    In name ["E#"; "Fb"; "B#"; "Cb"]
    /\ TestSuite.digitValue digit <> None
    /\ note = name ++ String digit EmptyString.
Proof.
  split.
  - intros H. unfold TestSuite.midi in H.
    destruct (TestSuite.matchNote note) as [[noteName octaveStr]|] eqn:Em; [|discriminate].
    destruct (TestSuite.digitValue octaveStr) as [octave|] eqn:Ed; [|discriminate].
    destruct (Chorduroy.ownProperty _ _) as [v|] eqn:Ev; [discriminate|]. clear H.
    unfold TestSuite.matchNote in Em.
    destruct note as [|l [|a [|d [|x rest]]]]; try discriminate.
    + destruct (TestSuite.isNoteLetter l) eqn:El; [|discriminate].
      destruct (TestSuite.digitValue a); [|discriminate].
      injection Em as <- <-. apply isNoteLetter_cases in El. cbn [In] in El.
      repeat (destruct El as [El|El]; [subst l; vm_compute in Ev; discriminate|]).
      destruct El.
    + destruct (TestSuite.isNoteLetter l && TestSuite.isAccidental a) eqn:El;
        [|discriminate].
      destruct (TestSuite.digitValue d) eqn:Edd; [|discriminate].
      injection Em as <- <-. apply andb_prop in El. destruct El as [El Ea].
      apply isNoteLetter_cases in El. apply isAccidental_cases in Ea.
      cbn [In] in El.
      assert (K : In (String l (String a EmptyString)) ["E#"; "Fb"; "B#"; "Cb"]).
      { destruct Ea; subst a;
          repeat (destruct El as [El|El];
                  [subst l; first [vm_compute in Ev; discriminate
                                  |cbn; tauto]|]);
          destruct El. }
      exists (String l (String a EmptyString)), d.
      split; [exact K|]. split; [congruence|reflexivity].
  - intros (name & digit & Hn & Hd & ->).
    unfold TestSuite.midi.
    cbn [In] in Hn.
    destruct (TestSuite.digitValue digit) as [v|] eqn:Ed; [|congruence].
    repeat (destruct Hn as [Hn|Hn];
            [subst name; cbn [append TestSuite.matchNote];
             change (TestSuite.isNoteLetter _ && TestSuite.isAccidental _) with true;
             cbv iota; rewrite Ed; cbv iota beta; rewrite Ed; reflexivity|]).
    destruct Hn.
Qed.

Lemma midi_helper_not_a_number_witness :
  TestSuite.midi "Cb4" = TestSuite.NaN
  /\ TestSuite.midi "B4" = TestSuite.Midi 71
  /\ TestSuite.midi "H4" = TestSuite.InvalidNote.
Proof.
  split; [|split; reflexivity].
  apply (proj2 (midi_helper_not_a_number "Cb4")).
  exists "Cb", "4"%char. split; [cbn; tauto|]. split; [discriminate|reflexivity].
Defined.

(* ================================================================= *)
(** ** The analysis of a matched chord *)
(* ================================================================= *)

(** The fields of an analysis that was assembled from a match: all of
    them are read off the final [best], whose root is a pitch class
    within 0..11 and which is rootless exactly when that root is not
    played. *)
Lemma matched_analysis (activeNotes : list Z) (a : ChordAnalysis.t) :
  midiNotes activeNotes ->
  Lib.analyzeChord activeNotes = Normal (Some a) ->
  (ChordAnalysis.isRootless a = None /\ ChordAnalysis.actualIntervals a = None
   /\ matchesOf activeNotes = [])
  \/ (exists b,
         ChordAnalysis.detectedRootPitchClass a = Match.root b
         /\ ChordAnalysis.isRootless a = Some (Match.isRootless b)
         /\ ChordAnalysis.actualIntervals a
            = Some (map ActualIntervalInfo.actualInterval
                        (Lib.calculateActualIntervals (sort ascending activeNotes)
                                                      (Match.root b)))
         /\ Lib.getRootSpelling (Match.root b) (Some (uniquePitchClassesOf activeNotes))
            = Normal (ChordAnalysis.root a)
         /\ 0 <= Match.root b < 12
         /\ (Match.isRootless b = true <->
             ~ In (Match.root b) (uniquePitchClassesOf activeNotes))).
Proof.
  intros Hmidi Ha. destruct (analysis_shape activeNotes a Ha) as [Hne H].
  destruct H as [[Em Hf]|(best & rest & b & ai & E & Ed & Has)].
  - left. unfold Lib.fallback in Hf.
    destruct (Lib.getRootSpelling _ _); [|discriminate]. cbn [JS.bind] in Hf.
    destruct (mapM _ _); [|discriminate]. cbn [JS.bind] in Hf.
    injection Hf as <-. auto.
  - right. exists b.
    destruct (final_best_origin activeNotes best rest b ai E Ed)
      as [m (Hin & S & Hai & Hrb)].
    unfold Lib.assemble in Has.
    destruct (Lib.getRootSpelling _ _) as [s|] eqn:Es; [|discriminate].
    destruct (Lib.getChordToneSpelling _ _) as [t|]; [|discriminate].
    cbn [JS.bind] in Has. injection Has as <-.
    cbn [ChordAnalysis.detectedRootPitchClass ChordAnalysis.isRootless
         ChordAnalysis.actualIntervals ChordAnalysis.root].
    split; [reflexivity|]. split; [reflexivity|].
    split; [now rewrite Hai, Hrb|]. split; [reflexivity|].
    destruct S as (Sr & _ & Sl & _). rewrite Sr, Sl.
    destruct (generateMatches_inv _ m Hin)
      as [_ [(Hl' & Hr' & _)|(Hl' & _ & Hr' & Hrange)]];
      fold (uniquePitchClassesOf activeNotes) in Hr'; rewrite Hl'.
    + split; [eapply uniquePitchClassesOf_range; eauto|].
      split; [discriminate|]. intros C. contradiction.
    + split; [exact Hrange|]. split; auto.
Qed.

(** The spelled root of a returned analysis comes from the detected
    root and the played pitch classes, which hold the detected root
    unless the analysis is rootless. *)
Lemma returned_root_spelling (activeNotes : list Z) (a : ChordAnalysis.t) :
  midiNotes activeNotes ->
  Lib.analyzeChord activeNotes = Normal (Some a) ->
  Lib.getRootSpelling (ChordAnalysis.detectedRootPitchClass a)
                      (Some (uniquePitchClassesOf activeNotes))
  = Normal (ChordAnalysis.root a)
  /\ (ChordAnalysis.isRootless a <> Some true ->
      In (ChordAnalysis.detectedRootPitchClass a) (uniquePitchClassesOf activeNotes)).
Proof.
  intros Hm Ha.
  destruct (analysis_shape activeNotes a Ha) as [Hne Hshape].
  destruct (matched_analysis activeNotes a Hm Ha)
    as [(_ & _ & Em)|(b & Hr & Hl & _ & Hs & _ & Hiff)].
  - destruct Hshape as [[_ Hf]|(best & rest & _ & _ & E & _)];
      [|rewrite Em in E; discriminate].
    unfold Lib.fallback in Hf.
    destruct (Lib.getRootSpelling _ _) as [s|] eqn:Es; [|discriminate].
    cbn [JS.bind] in Hf. destruct (mapM _ _); [|discriminate].
    cbn [JS.bind] in Hf. injection Hf as <-.
    cbn [ChordAnalysis.detectedRootPitchClass ChordAnalysis.root].
    split; [exact Es|]. intros _. now apply bassPitchClassOf_In.
  - rewrite Hr, Hl. split; [exact Hs|]. intros Hn.
    destruct (in_dec Z.eq_dec (Match.root b) (uniquePitchClassesOf activeNotes))
      as [Hin|Hnin]; [exact Hin|].
    apply Hiff in Hnin. rewrite Hnin in Hn. congruence.
Qed.

Lemma getRootSpelling_1_sounded (ctx : list Z) :
  In 1 ctx -> Lib.getRootSpelling 1 (Some ctx) = Normal "C#".
Proof.
  intros H. apply has_In in H. unfold Lib.getRootSpelling. cbn [Z.eqb Pos.eqb].
  rewrite H. now rewrite orb_true_r, !orb_true_l, andb_false_r.
Qed.

Lemma getRootSpelling_10_sounded (ctx : list Z) :
  In 10 ctx -> Lib.getRootSpelling 10 (Some ctx) = Normal "Bb".
Proof.
  intros H. apply has_In in H. unfold Lib.getRootSpelling. cbn [Z.eqb Pos.eqb].
  rewrite H. now rewrite !orb_true_l, andb_false_r, andb_false_l.
Qed.

(** X17.  A sounded root of pitch class 1 or 10 keeps its default name:
    the root counts among its own context, where pitch class 1 is a
    sharp indicator and pitch class 10 a flat indicator, so that for
    MIDI notes an analysis that is not rootless spells root 1 as "C#"
    and root 10 as "Bb".  The names "Db" and "A#" are returned for
    rootless analyses only. *)
Theorem sounded_roots_1_and_10 (activeNotes : list Z) (a : ChordAnalysis.t) :
  midiNotes activeNotes ->
  Lib.analyzeChord activeNotes = Normal (Some a) ->
  (ChordAnalysis.isRootless a <> Some true ->
   (ChordAnalysis.detectedRootPitchClass a = 1 -> ChordAnalysis.root a = "C#")
   /\ (ChordAnalysis.detectedRootPitchClass a = 10 -> ChordAnalysis.root a = "Bb"))
  /\ (ChordAnalysis.root a = "Db" \/ ChordAnalysis.root a = "A#" ->
      ChordAnalysis.isRootless a = Some true).
Proof.
  intros Hm Ha.
  destruct (returned_root_spelling activeNotes a Hm Ha) as [Hs Hin].
  assert (K : ChordAnalysis.isRootless a <> Some true ->
              (ChordAnalysis.detectedRootPitchClass a = 1 -> ChordAnalysis.root a = "C#")
              /\ (ChordAnalysis.detectedRootPitchClass a = 10 ->
                  ChordAnalysis.root a = "Bb")).
  { intros Hl. specialize (Hin Hl). split; intros E; rewrite E in Hs, Hin.
    - rewrite (getRootSpelling_1_sounded _ Hin) in Hs. congruence.
    - rewrite (getRootSpelling_10_sounded _ Hin) in Hs. congruence. }
  split; [exact K|].
  intros Hn. destruct (returned_root_denotes activeNotes a Hm Ha) as [_ Hd].
  destruct (ChordAnalysis.isRootless a) as [[|]|] eqn:El; [reflexivity| |];
    (destruct K as [K1 K10]; [discriminate|];
     destruct Hn as [Hn|Hn]; rewrite Hn in Hd; cbn in Hd; injection Hd as Hd;
     [rewrite K1 in Hn by congruence|rewrite K10 in Hn by congruence]; discriminate).
Qed.

Lemma sounded_roots_1_and_10_witness :
  exists a a',
    Lib.analyzeChord [60; 65] = Normal (Some a)
    /\ ChordAnalysis.display a = "DbMaj7 (rootless)"
    /\ ChordAnalysis.isRootless a = Some true
    /\ Lib.analyzeChord [61; 65; 68; 70] = Normal (Some a')
    /\ ChordAnalysis.detectedRootPitchClass a' = 10
    /\ ChordAnalysis.root a' = "Bb".
Proof.
  destruct (Lib.analyzeChord [60; 65]) as [[a|]|] eqn:E;
    [|vm_compute in E; discriminate|vm_compute in E; discriminate].
  destruct (Lib.analyzeChord [61; 65; 68; 70]) as [[a'|]|] eqn:E';
    [|vm_compute in E'; discriminate|vm_compute in E'; discriminate].
  assert (M : midiNotes [60; 65]) by (repeat constructor; lia).
  assert (M' : midiNotes [61; 65; 68; 70]) by (repeat constructor; lia).
  destruct (sounded_roots_1_and_10 [60; 65] a M E) as [_ H].
  destruct (sounded_roots_1_and_10 [61; 65; 68; 70] a' M' E') as [H' _].
  assert (D : ChordAnalysis.display a = "DbMaj7 (rootless)"
              /\ ChordAnalysis.root a = "Db").
  { vm_compute in E. injection E as <-. split; reflexivity. }
  assert (D' : ChordAnalysis.detectedRootPitchClass a' = 10
               /\ ChordAnalysis.isRootless a' <> Some true).
  { vm_compute in E'. injection E' as <-. split; [reflexivity|discriminate]. }
  exists a, a'. split; [reflexivity|]. split; [exact (proj1 D)|].
  split; [apply H; left; exact (proj2 D)|]. split; [reflexivity|].
  split; [exact (proj1 D')|]. exact (proj2 (H' (proj2 D')) (proj1 D')).
Defined.

(** The played pitch classes, read on the sorted notes. *)
Lemma uniquePitchClassesOf_played (activeNotes : list Z) (p : Z) :
  midiNotes activeNotes ->
  (In p (uniquePitchClassesOf activeNotes)
   <-> In p (pitchClassesPlayed (sort ascending activeNotes))).
Proof.
  intros Hm. unfold uniquePitchClassesOf, pitchClassesPlayed.
  rewrite pitchClassesOf_In. apply midiNotes_sort in Hm.
  unfold midiNotes in Hm. rewrite Forall_forall in Hm.
  rewrite in_map_iff. split; intros [n [H1 H2]].
  - exists n. split; [|exact H1]. rewrite H2. symmetry.
    apply Z.rem_mod_nonneg; [now apply Hm|lia].
  - exists n. split; [exact H2|]. rewrite <- H1. symmetry.
    apply Z.rem_mod_nonneg; [now apply Hm|lia].
Qed.

(** X18.  The actual intervals of a returned analysis, for MIDI notes:
    the fallback leaves actualIntervals (and isRootless) undefined; an
    analysis assembled from a match carries one interval per note, in
    ascending order of the notes, each the distance of the note from one
    reference position of the detected root.  When the analysis is not
    rootless the reference is the lowest played note of the root; when
    it is rootless every interval is positive. *)
Theorem returned_actual_intervals (activeNotes : list Z) (a : ChordAnalysis.t) :
  midiNotes activeNotes ->
  Lib.analyzeChord activeNotes = Normal (Some a) ->
  match ChordAnalysis.isRootless a with
  | None => ChordAnalysis.actualIntervals a = None /\ matchesOf activeNotes = []
  | Some rootless =>
      exists rootMidi,
        rootMidi mod 12 = ChordAnalysis.detectedRootPitchClass a
        /\ ChordAnalysis.actualIntervals a
           = Some (map (fun n => n - rootMidi) (sort ascending activeNotes))
        /\ if rootless
           then forall n, In n activeNotes -> 1 <= n - rootMidi
           else In rootMidi activeNotes
                /\ forall n, In n activeNotes ->
                             n mod 12 = ChordAnalysis.detectedRootPitchClass a ->
                             rootMidi <= n
  end.
Proof.
  intros Hm Ha.
  destruct (analysis_shape activeNotes a Ha) as [Hne _].
  destruct (matched_analysis activeNotes a Hm Ha)
    as [(Hl & Hai & Em)|(b & Hr & Hl & Hai & _ & Hrange & Hiff)].
  - rewrite Hl. auto.
  - rewrite Hl, Hr, Hai.
    assert (Hsm := midiNotes_sort _ Hm).
    assert (Hss := sort_ascending_sorted activeNotes).
    assert (Hin : forall n, In n (sort ascending activeNotes) <-> In n activeNotes)
      by (intros; apply sort_In).
    rewrite (uniquePitchClassesOf_played activeNotes (Match.root b) Hm) in Hiff.
    destruct (sort ascending activeNotes) as [|lowest rest] eqn:Es.
    { destruct activeNotes as [|x xs]; [congruence|].
      destruct (proj2 (Hin x) (or_introl eq_refl)). }
    exists (rootMidiOf (lowest :: rest) lowest (Match.root b)).
    assert (Hlow : 0 <= lowest) by (inversion Hsm; assumption).
    split; [now apply rootMidiOf_congruent|].
    split; [rewrite calculateActualIntervals_cons, map_map; reflexivity|].
    destruct (Match.isRootless b) eqn:Eb.
    + destruct (reference_of_missing_root lowest rest (Match.root b) Hsm Hss Hrange
                  (proj1 Hiff eq_refl)) as [_ H].
      intros n Hn. apply H. now apply Hin.
    + assert (Hp : In (Match.root b) (pitchClassesPlayed (lowest :: rest))).
      { destruct (in_dec Z.eq_dec (Match.root b) (pitchClassesPlayed (lowest :: rest)))
          as [H|H]; [exact H|]. apply Hiff in H. discriminate. }
      destruct (reference_of_played_root lowest rest (Match.root b) Hsm Hrange Hp)
        as [H1 H2].
      split; [now apply Hin|]. intros n Hn. apply H2. now apply Hin.
Qed.

Lemma returned_actual_intervals_witness :
  exists a a',
    Lib.analyzeChord [64; 67; 72] = Normal (Some a)
    /\ ChordAnalysis.display a = "C/E"
    /\ ChordAnalysis.actualIntervals a = Some [-8; -5; 0]
    /\ Lib.analyzeChord [60; 65] = Normal (Some a')
    /\ ChordAnalysis.actualIntervals a' = Some [11; 16]
    /\ exists rootMidi, rootMidi mod 12 = ChordAnalysis.detectedRootPitchClass a
                        /\ In rootMidi [64; 67; 72].
Proof.
  destruct (Lib.analyzeChord [64; 67; 72]) as [[a|]|] eqn:E;
    [|vm_compute in E; discriminate|vm_compute in E; discriminate].
  assert (M : midiNotes [64; 67; 72]) by (repeat constructor; lia).
  assert (H := returned_actual_intervals [64; 67; 72] a M E).
  assert (D : ChordAnalysis.display a = "C/E"
              /\ ChordAnalysis.actualIntervals a = Some [-8; -5; 0]
              /\ ChordAnalysis.isRootless a = Some false).
  { vm_compute in E. injection E as <-. repeat split. }
  destruct D as (D1 & D2 & D3). rewrite D3 in H.
  destruct H as [rootMidi (H1 & _ & H2 & _)].
  exists a. eexists. split; [reflexivity|]. split; [exact D1|]. split; [exact D2|].
  split; [vm_compute; reflexivity|]. split; [reflexivity|].
  exists rootMidi. split; [exact H1|exact H2].
Defined.

(* ================================================================= *)
(** ** Plain note names *)
(* ================================================================= *)

Lemma note_tables_denote :
  forallb (fun f => forallb (noteNameDenotes f) PITCH_CLASSES)
          [None; Some false; Some true] = true.
Proof. vm_compute. reflexivity. Qed.

Lemma index_outside {A} (xs : list A) (i : Z) :
  ~ 0 <= i < Z.of_nat (List.length xs) -> index xs i = None.
Proof.
  intros H. unfold index. destruct (i <? 0) eqn:E; [reflexivity|].
  apply Z.ltb_ge in E. apply nth_error_None. lia.
Qed.

(** X19.  Plain note names: for a pitch class within 0..11 getNoteName
    returns, with or without the preference for flats, a name that
    denotes the pitch class and that rootToPitchClass reads back; for
    any other integer it returns undefined.  getNoteDetails splits a
    MIDI number that is not negative into the sharp name of its pitch
    class and an octave such that (octave + 1) * 12 plus the pitch class
    is the number again, and names it by the two. *)
Theorem note_names_denote :
  (forall p preferFlat, 0 <= p < 12 ->
      exists n, Lib.getNoteName p preferFlat = Some n
                /\ pitchClassOfName n = Some p
                /\ Chorduroy.rootToPitchClass n = Chorduroy.Own p)
  /\ (forall p preferFlat, ~ 0 <= p < 12 -> Lib.getNoteName p preferFlat = None)
  /\ (forall m, 0 <= m ->
        exists n,
          NoteDetails.note (Lib.getNoteDetails m) = Some n
          /\ Lib.getNoteName (m mod 12) None = Some n
          /\ NoteDetails.midi (Lib.getNoteDetails m) = m
          /\ (NoteDetails.octave (Lib.getNoteDetails m) + 1) * 12 + m mod 12 = m
          /\ NoteDetails.name (Lib.getNoteDetails m)
             = n ++ numberToString (NoteDetails.octave (Lib.getNoteDetails m))).
Proof.
  assert (D : forall p preferFlat, 0 <= p < 12 ->
      exists n, Lib.getNoteName p preferFlat = Some n
                /\ pitchClassOfName n = Some p
                /\ Chorduroy.rootToPitchClass n = Chorduroy.Own p).
  { intros p f Hp. assert (T := note_tables_denote).
    rewrite forallb_forall in T.
    assert (Hf : In f [None; Some false; Some true])
      by (destruct f as [[|]|]; cbn; auto).
    specialize (T f Hf). rewrite forallb_forall in T.
    specialize (T p (proj2 (in_PITCH_CLASSES p) Hp)).
    unfold noteNameDenotes in T.
    destruct (Lib.getNoteName p f) as [n|]; [|discriminate].
    exists n. split; [reflexivity|].
    destruct (pitchClassOfName n) as [q|]; [|discriminate].
    destruct (Chorduroy.rootToPitchClass n) as [q'| |]; try discriminate.
    apply andb_prop in T. destruct T as [T1 T2].
    apply Z.eqb_eq in T1, T2. now subst. }
  split; [exact D|]. split.
  - intros p f Hp. unfold Lib.getNoteName.
    destruct (match f with Some b => b | None => false end);
      apply index_outside; exact Hp.
  - intros m Hm.
    assert (Hp : 0 <= m mod 12 < 12) by (apply Z.mod_pos_bound; lia).
    destruct (D (m mod 12) None Hp) as [n (E & _ & _)].
    exists n. unfold Lib.getNoteDetails. cbv zeta.
    cbn [NoteDetails.note NoteDetails.midi NoteDetails.octave NoteDetails.name].
    rewrite Z.rem_mod_nonneg by lia.
    change (index Lib.NOTES (m mod 12)) with (Lib.getNoteName (m mod 12) None).
    rewrite E. split; [reflexivity|]. split; [reflexivity|]. split; [reflexivity|].
    split; [|reflexivity]. unfold floorDiv.
    pose proof (Z.div_mod m 12). lia.
Qed.

Lemma note_names_denote_witness :
  (exists n, Lib.getNoteName 10 (Some true) = Some n /\ n = "Bb"
             /\ pitchClassOfName n = Some 10)
  /\ Lib.getNoteName 12 None = None
  /\ NoteDetails.name (Lib.getNoteDetails 70) = "A#4".
Proof.
  destruct note_names_denote as (H1 & H2 & _).
  destruct (H1 10 (Some true)) as [n (E & D & _)]; [lia|].
  split; [|split; [apply H2; lia|reflexivity]].
  exists n. split; [exact E|]. split; [|exact D].
  vm_compute in E. now injection E as <-.
Defined.

(* ================================================================= *)
(** ** The preference for flats *)
(* ================================================================= *)

Lemma shouldPreferFlat_table :
  forallb (fun r => match Lib.shouldPreferFlat r with
                    | Normal b => Bool.eqb b (sharpFree r)
                    | TypeError => false
                    end) PITCH_CLASSES = true.
Proof. vm_compute. reflexivity. Qed.

(** X20.  shouldPreferFlat agrees with the spelling table it reads: for
    a root within 0..11 it answers true exactly when no name of the
    scale of that root carries a sharp (the roots 3, 5, 8 and 10), and
    for a root outside 0..11 it throws. *)
Theorem prefer_flat_iff_scale_has_no_sharp (r : Z) :
  (0 <= r < 12 ->
   exists b,
     Lib.shouldPreferFlat r = Normal b
     /\ (b = true <->
         forall i, 0 <= i < 12 ->
                   exists s, Lib.scaleEntry r i = Normal s /\ includes s "#" = false)
     /\ (b = true <-> In r [3; 5; 8; 10]))
  /\ (~ 0 <= r < 12 -> Lib.shouldPreferFlat r = TypeError).
Proof.
  split.
  - intros Hr. assert (T := shouldPreferFlat_table).
    rewrite forallb_forall in T. specialize (T r (proj2 (in_PITCH_CLASSES r) Hr)).
    destruct (Lib.shouldPreferFlat r) as [b|] eqn:E; [|discriminate].
    apply Bool.eqb_prop in T. exists b. split; [reflexivity|]. split.
    + rewrite T. unfold sharpFree. rewrite forallb_forall. split.
      * intros H i Hi. specialize (H i (proj2 (in_PITCH_CLASSES i) Hi)).
        destruct (Lib.scaleEntry r i) as [s|]; [|discriminate].
        exists s. split; [reflexivity|]. now apply negb_true_iff.
      * intros H i Hi. apply in_PITCH_CLASSES in Hi.
        destruct (H i Hi) as [s [-> Hs]]. now rewrite Hs.
    + apply in_range_cases in Hr.
      repeat (destruct Hr as [Hr|Hr];
              [subst r; vm_compute in E; injection E as <-;
               cbn; split; intros; try discriminate; try tauto;
               repeat match goal with
                      | H : _ \/ _ |- _ => destruct H; try discriminate
                      | H : False |- _ => destruct H
                      end|]).
      subst r; vm_compute in E; injection E as <-.
      cbn; split; intros; try discriminate.
      repeat match goal with
             | H : _ \/ _ |- _ => destruct H; try discriminate
             | H : False |- _ => destruct H
             end.
  - intros H. unfold Lib.shouldPreferFlat.
    assert (E := scaleEntry_missing r 0 H). unfold Lib.scaleEntry in E.
    now destruct (Lib.ROOT_SPELLING r).
Qed.

Lemma prefer_flat_iff_scale_has_no_sharp_witness :
  Lib.shouldPreferFlat 5 = Normal true
  /\ Lib.shouldPreferFlat 0 = Normal false
  /\ Lib.scaleEntry 0 6 = Normal "F#"
  /\ Lib.shouldPreferFlat 12 = TypeError.
Proof.
  destruct (prefer_flat_iff_scale_has_no_sharp 5) as [H _].
  destruct (prefer_flat_iff_scale_has_no_sharp 12) as [_ H'].
  destruct H as [b (E & _ & I)]; [lia|].
  assert (B : b = true) by (apply I; cbn; tauto).
  split; [now rewrite E, B|]. split; [reflexivity|]. split; [reflexivity|].
  apply H'. lia.
Defined.

(* ================================================================= *)
(** ** Penalties and scores *)
(* ================================================================= *)

Lemma penalty_fold (step : Z -> Z) (xs : list Z) (acc : Z) :
  fold_left (fun penalty interval => penalty + step interval) xs acc
  = acc + fold_left (fun penalty interval => penalty + step interval) xs 0.
Proof.
  revert acc. induction xs as [|x xs IH]; intros acc; cbn [fold_left].
  - lia.
  - rewrite IH, (IH (0 + step x)). lia.
Qed.

Lemma fold_left_pointwise {A B} (f g : A -> B -> A) (xs : list B) (a : A) :
  (forall a b, f a b = g a b) -> fold_left f xs a = fold_left g xs a.
Proof.
  intros H. revert a. induction xs as [|x xs IH]; intros a; cbn [fold_left].
  - reflexivity.
  - now rewrite H, IH.
Qed.

Lemma penalty_unfold (extraIntervals patternIntervals : list Z) :
  Lib.calculateExtraNotesPenalty extraIntervals patternIntervals
  = fold_left (fun penalty interval => penalty + extraNoteCost patternIntervals interval)
              extraIntervals 0.
Proof.
  unfold extraNoteCost, Lib.calculateExtraNotesPenalty. cbv zeta.
  cbn [fold_left].
  apply fold_left_pointwise. intros penalty interval.
  destruct (has Lib.COMMON_EXTENSIONS interval); lia.
Qed.

Lemma penalty_cons (x : Z) (extraIntervals patternIntervals : list Z) :
  Lib.calculateExtraNotesPenalty (x :: extraIntervals) patternIntervals
  = extraNoteCost patternIntervals x
    + Lib.calculateExtraNotesPenalty extraIntervals patternIntervals.
Proof.
  rewrite !penalty_unfold. cbn [fold_left]. now rewrite penalty_fold.
Qed.

Lemma extraNoteCost_range (patternIntervals : list Z) (x : Z) :
  3 <= extraNoteCost patternIntervals x <= 18.
Proof.
  unfold extraNoteCost, Lib.calculateExtraNotesPenalty. cbv zeta. cbn [fold_left].
  destruct (has Lib.COMMON_EXTENSIONS x); [destruct (existsb _ _)|]; lia.
Qed.

Lemma penalty_range (extraIntervals patternIntervals : list Z) :
  3 * Z.of_nat (List.length extraIntervals)
  <= Lib.calculateExtraNotesPenalty extraIntervals patternIntervals
  <= 18 * Z.of_nat (List.length extraIntervals).
Proof.
  induction extraIntervals as [|x xs IH].
  - cbn. lia.
  - rewrite penalty_cons. pose proof (extraNoteCost_range patternIntervals x).
    cbn [List.length]. lia.
Qed.

(** X21.  The penalty for extra notes is a sum over the extra notes, in
    which each note costs 3 (a common extension 2, 5 or 9 on a pattern
    with a seventh), 6 (a common extension on a pattern without) or 18
    (any other note): it lies between 3 and 18 times the number of extra
    notes, is zero for no extra note only, adds up over concatenation
    and does not depend on the order of the notes. *)
Theorem extra_notes_penalty_is_a_sum (extraIntervals patternIntervals : list Z) :
  3 * Z.of_nat (List.length extraIntervals)
  <= Lib.calculateExtraNotesPenalty extraIntervals patternIntervals
  <= 18 * Z.of_nat (List.length extraIntervals)
  /\ (Lib.calculateExtraNotesPenalty extraIntervals patternIntervals = 0
      <-> extraIntervals = [])
  /\ (forall more,
         Lib.calculateExtraNotesPenalty (extraIntervals ++ more)%list patternIntervals
         = Lib.calculateExtraNotesPenalty extraIntervals patternIntervals
           + Lib.calculateExtraNotesPenalty more patternIntervals)
  /\ (forall reordered,
         Permutation extraIntervals reordered ->
         Lib.calculateExtraNotesPenalty reordered patternIntervals
         = Lib.calculateExtraNotesPenalty extraIntervals patternIntervals)
  /\ Forall (fun x => extraNoteCost patternIntervals x
                      = if has [2; 5; 9] x
                        then if existsb (fun i => (i =? 10) || (i =? 11)) patternIntervals
                             then 3 else 6
                        else 18) extraIntervals.
Proof.
  split; [apply penalty_range|]. split; [|split; [|split]].
  - split.
    + intros H. pose proof (penalty_range extraIntervals patternIntervals).
      destruct extraIntervals; [reflexivity|]. cbn [List.length] in *. lia.
    + intros ->. reflexivity.
  - intros more. induction extraIntervals as [|x xs IH].
    + reflexivity.
    + cbn [app]. rewrite !penalty_cons, IH. lia.
  - intros reordered P. induction P.
    + reflexivity.
    + rewrite !penalty_cons. lia.
    + rewrite !penalty_cons. lia.
    + congruence.
  - apply Forall_forall. intros x _.
    unfold extraNoteCost, Lib.calculateExtraNotesPenalty. cbv zeta. cbn [fold_left].
    change Lib.COMMON_EXTENSIONS with [2; 5; 9].
    destruct (has [2; 5; 9] x); [destruct (existsb _ _)|]; reflexivity.
Qed.

Lemma extra_notes_penalty_is_a_sum_witness :
  Lib.calculateExtraNotesPenalty [9; 2; 6] [0; 4; 7; 10] = 24
  /\ Lib.calculateExtraNotesPenalty [6; 2; 9] [0; 4; 7; 10]
     = Lib.calculateExtraNotesPenalty [9; 2; 6] [0; 4; 7; 10]
  /\ Lib.calculateExtraNotesPenalty [9; 2; 6] [0; 4; 7] = 30.
Proof.
  destruct (extra_notes_penalty_is_a_sum [9; 2; 6] [0; 4; 7; 10]) as (_ & _ & _ & P & _).
  split; [reflexivity|]. split; [|reflexivity].
  apply P. apply perm_trans with [2; 9; 6]; [apply perm_swap|].
  apply perm_trans with [2; 6; 9]; [apply perm_skip, perm_swap|apply perm_swap].
Defined.

(** What the three ways of matching a played root can push. *)
Lemma rootedMatch_score intervals intervalSet potentialRoot pattern m :
  In m (Lib.rootedMatch intervals intervalSet potentialRoot pattern) ->
  Match.isRootless m = false
  /\ (if Match.isExact m
      then Match.score m = ChordPattern.priority pattern * 100 + 1000
      else Match.score m <= ChordPattern.priority pattern * 100).
Proof.
  unfold Lib.rootedMatch. cbv zeta.
  repeat match goal with
         | |- context [Lib.calculateExtraNotesPenalty ?e ?p] =>
             let P := fresh "P" in
             pose proof (penalty_range e p) as P; revert P;
             generalize (Lib.calculateExtraNotesPenalty e p); intros ? P
         end.
  intros H.
  repeat match type of H with
         | context [if ?c then _ else _] => destruct c
         end; cbn [In] in H;
    repeat match goal with
           | H : _ \/ _ |- _ => destruct H
           | H : False |- _ => destruct H
           end; subst; cbn; split; auto; lia.
Qed.

Lemma rootlessMatch_score intervals intervalSet potentialRoot pattern m :
  In m (Lib.rootlessMatch intervals intervalSet potentialRoot pattern) ->
  Match.isRootless m = true /\ Match.isExact m = false
  /\ (Match.score m <= ChordPattern.priority pattern * 80 - 50
      \/ Match.score m <= ChordPattern.priority pattern * 70 - 80)
  /\ (4 <= List.length (ChordPattern.intervals pattern))%nat.
Proof.
  unfold Lib.rootlessMatch. cbv zeta.
  repeat match goal with
         | |- context [Lib.calculateExtraNotesPenalty ?e ?p] =>
             let P := fresh "P" in
             pose proof (penalty_range e p) as P; revert P;
             generalize (Lib.calculateExtraNotesPenalty e p); intros ? P
         end.
  destruct (List.length (ChordPattern.intervals pattern) <? 4)%nat eqn:El;
    [intros []|]. apply Nat.ltb_ge in El.
  intros H.
  repeat match type of H with
         | context [if ?c then _ else _] => destruct c
         end; cbn [In app] in H;
    repeat match goal with
           | H : _ \/ _ |- _ => destruct H
           | H : False |- _ => destruct H
           end; subst; cbn; repeat split; auto; lia.
Qed.

Lemma catalog_priorities (p : ChordPattern.t) :
  In p Lib.CHORD_PATTERNS -> 20 <= ChordPattern.priority p <= 66.
Proof.
  intros Hp.
  assert (C : forallb (fun p => (20 <=? ChordPattern.priority p)
                                && (ChordPattern.priority p <=? 66))
                      Lib.CHORD_PATTERNS = true) by (vm_compute; reflexivity).
  rewrite forallb_forall in C. specialize (C p Hp).
  apply andb_prop in C. lia.
Qed.

(** The score of a generated match, by the way it matched. *)
Lemma generated_score (u : list Z) (m : Match.t) :
  In m (Lib.generateMatches u) ->
  20 <= ChordPattern.priority (Match.pattern m) <= 66
  /\ (if Match.isExact m
      then Match.isRootless m = false
           /\ Match.score m = ChordPattern.priority (Match.pattern m) * 100 + 1000
      else if Match.isRootless m
           then (4 <= List.length (ChordPattern.intervals (Match.pattern m)))%nat
                /\ Match.score m <= ChordPattern.priority (Match.pattern m) * 80 - 50
           else Match.score m <= ChordPattern.priority (Match.pattern m) * 100).
Proof.
  intros H. destruct (generateMatches_origin u m H) as [Hp [r Hr]].
  pose proof (catalog_priorities _ Hp) as Hpr. split; [exact Hpr|].
  cbv zeta in Hr. destruct Hr as [[_ Hr]|Hr].
  - destruct (rootedMatch_score _ _ _ _ _ Hr) as [Hl Hs]. rewrite Hl.
    destruct (Match.isExact m); auto.
  - destruct (rootlessMatch_score _ _ _ _ _ Hr) as (Hl & He & Hs & Hn).
    rewrite Hl, He. split; [exact Hn|]. lia.
Qed.

(** X22.  How a generated match is scored, for the priorities 20..66 of
    the catalog: an exact match is never rootless and scores 100 times
    the priority plus 1000; any other match of a played root scores at
    most 100 times the priority, hence at most 6600; a rootless match
    needs a pattern of four notes or more and scores at most 80 times
    the priority less 50, hence at most 5230.  So an exact match of a
    pattern of priority 57 or more outscores every match that is not
    exact, and one of priority 43 or more every rootless match. *)
Theorem generated_score_bounds (u : list Z) (m : Match.t) :
  In m (Lib.generateMatches u) ->
  (if Match.isExact m
   then Match.isRootless m = false
        /\ Match.score m = ChordPattern.priority (Match.pattern m) * 100 + 1000
   else if Match.isRootless m
        then (4 <= List.length (ChordPattern.intervals (Match.pattern m)))%nat
             /\ Match.score m <= ChordPattern.priority (Match.pattern m) * 80 - 50 <= 5230
        else Match.score m <= ChordPattern.priority (Match.pattern m) * 100 <= 6600)
  /\ forall e, In e (Lib.generateMatches u) ->
               Match.isExact e = true -> Match.isExact m = false ->
               (57 <= ChordPattern.priority (Match.pattern e) ->
                Match.score m < Match.score e)
               /\ (43 <= ChordPattern.priority (Match.pattern e) ->
                   Match.isRootless m = true -> Match.score m < Match.score e).
Proof.
  intros Hm. destruct (generated_score u m Hm) as [Hp Hs]. split.
  - destruct (Match.isExact m); [exact Hs|].
    destruct (Match.isRootless m); [split; [tauto|lia]|lia].
  - intros e He Ee Em. destruct (generated_score u e He) as [_ Hse].
    rewrite Ee in Hse. rewrite Em in Hs. destruct Hse as [_ Hse].
    split.
    + intros Hq. destruct (Match.isRootless m); lia.
    + intros Hq Hl. rewrite Hl in Hs. lia.
Qed.

Lemma generated_score_bounds_witness :
  exists e m,
    In e (Lib.generateMatches [0; 4; 7; 11]) /\ In m (Lib.generateMatches [0; 4; 7; 11])
    /\ Match.name e = "Maj7" /\ Match.isExact e = true /\ Match.score e = 5500
    /\ Match.name m = "13sus4" /\ Match.isRootless m = true /\ Match.score m = 4400
    /\ Match.score m < Match.score e.
Proof.
  set (e := Match.mk (ChordPattern.mk "Maj7" [0; 4; 7; 11] 45 (Some true))
                     0 5500 false true).
  set (m := Match.mk (ChordPattern.mk "13sus4" [0; 2; 5; 7; 9; 10] 64 (Some true))
                     2 4400 true false).
  assert (He : In e (Lib.generateMatches [0; 4; 7; 11])).
  { apply (nth_error_In _ 0). vm_compute. reflexivity. }
  assert (Hm : In m (Lib.generateMatches [0; 4; 7; 11])).
  { apply (nth_error_In _ 11). vm_compute. reflexivity. }
  destruct (generated_score_bounds [0; 4; 7; 11] m Hm) as [_ H].
  destruct (H e He eq_refl eq_refl) as [_ H43].
  exists e, m. split; [exact He|]. split; [exact Hm|].
  do 6 (split; [reflexivity|]).
  apply H43; [cbn; lia|reflexivity].
Defined.

(* ================================================================= *)
(** ** The inline copy of the note helpers *)
(* ================================================================= *)

Lemma App_scaleEntry r i : App.scaleEntry r i = Lib.scaleEntry r i.
Proof. reflexivity. Qed.

Lemma App_getSharpSpelling r d : App.getSharpSpelling r d = Lib.getSharpSpelling r d.
Proof. reflexivity. Qed.

Lemma App_getTensionQuality n i a :
  App.getTensionQuality n i a = Lib.getTensionQuality n i a.
Proof. reflexivity. Qed.

(** The extra read of the root name in the inline [getTensionSpellings]
    throws only where the other reads throw. *)
Lemma App_getTensionSpellings r :
  match App.getTensionSpellings r, Lib.getTensionSpellings r with
  | Normal f, Normal g => forall i, f i = g i
  | TypeError, TypeError => True
  | _, _ => False
  end.
Proof.
  unfold App.getTensionSpellings, Lib.getTensionSpellings.
  unfold App.getSharpSpelling, Lib.getSharpSpelling.
  change App.scaleEntry with Lib.scaleEntry. unfold Lib.scaleEntry.
  destruct (Lib.ROOT_SPELLING r); cbn [JS.bind]; [|exact I].
  repeat match goal with
         | |- context [if ?c then _ else _] => destruct c; cbn [JS.bind]
         end; reflexivity.
Qed.

(** X23.  The helpers for note names of the inline copy in the
    monolithic application agree with the library on every input:
    getNoteDetails, getNoteName, shouldPreferFlat, getTensionQuality and
    getChordToneWithTension return the same value or throw together.
    The read of the root name that only the inline getTensionSpellings
    makes changes nothing. *)
Theorem inline_note_helpers_agree_with_library :
  (forall midi, App.getNoteDetails midi = Lib.getNoteDetails midi)
  /\ (forall pitchClass preferFlat,
         App.getNoteName pitchClass preferFlat = Lib.getNoteName pitchClass preferFlat)
  /\ (forall rootPitchClass,
         App.shouldPreferFlat rootPitchClass = Lib.shouldPreferFlat rootPitchClass)
  /\ (forall patternName interval actualInterval,
         App.getTensionQuality patternName interval actualInterval
         = Lib.getTensionQuality patternName interval actualInterval)
  /\ (forall pitchClass rootPitchClass patternName actualInterval,
         App.getChordToneWithTension pitchClass rootPitchClass patternName actualInterval
         = Lib.getChordToneWithTension pitchClass rootPitchClass patternName
                                       actualInterval).
Proof.
  split; [reflexivity|]. split; [reflexivity|]. split; [reflexivity|].
  split; [reflexivity|].
  intros p r n a. unfold App.getChordToneWithTension, Lib.getChordToneWithTension.
  cbv zeta. rewrite App_getTensionQuality, App_scaleEntry.
  destruct (negb _); [reflexivity|].
  assert (H := App_getTensionSpellings r).
  destruct (App.getTensionSpellings r) as [f|], (Lib.getTensionSpellings r) as [g|];
    try contradiction; [|reflexivity].
  cbn [JS.bind]. rewrite H. unfold App.tensionName, Lib.tensionName. reflexivity.
Qed.

(* ================================================================= *)
(** ** Every outcome of the disambiguation *)
(* ================================================================= *)

Lemma outcome_exhaustive : forallSubsets PITCH_CLASSES outcomeCheck = true.
Proof. vm_cast_no_check (eq_refl true). Qed.

Lemma all_tension_infos (t : TensionDisambiguation.t) : In t TENSION_INFOS.
Proof. destruct t as [[] [] []]; cbn; tauto. Qed.

Lemma disambiguate_refine sorted uniquePitchClasses matches best :
  exists tensionInfo,
    fst (Lib.disambiguate sorted uniquePitchClasses matches best)
    = refine uniquePitchClasses matches best tensionInfo.
Proof. eexists. reflexivity. Qed.

(** The final [best] of an analysis of MIDI notes is an allowed
    outcome. *)
Lemma returned_outcome (activeNotes : list Z) (a : ChordAnalysis.t) :
  midiNotes activeNotes ->
  Lib.analyzeChord activeNotes = Normal (Some a) ->
  (ChordAnalysis.quality a = EmptyString /\ ChordAnalysis.isRootless a = None)
  \/ exists b, allowedOutcome b = true
               /\ ChordAnalysis.quality a = Match.name b
               /\ ChordAnalysis.detectedRootPitchClass a = Match.root b.
Proof.
  intros Hm Ha. destruct (analysis_shape activeNotes a Ha) as [Hne H].
  destruct H as [[_ Hf]|(best & rest & b & ai & E & Ed & Has)].
  - left. unfold Lib.fallback in Hf.
    destruct (Lib.getRootSpelling _ _); [|discriminate]. cbn [JS.bind] in Hf.
    destruct (mapM _ _); [|discriminate]. cbn [JS.bind] in Hf.
    injection Hf as <-. auto.
  - right. exists b.
    assert (C := pitchClassSets_ind outcomeCheck outcome_exhaustive
                   (sort ascending activeNotes) (midiNotes_sort _ Hm)).
    unfold outcomeCheck, finalOutcomes in C.
    fold (matchesOf activeNotes) in C. rewrite E in C.
    fold (uniquePitchClassesOf activeNotes) in C.
    rewrite forallb_forall in C.
    destruct (disambiguate_refine (sort ascending activeNotes)
                (uniquePitchClassesOf activeNotes) (best :: rest) best) as [t Ht].
    rewrite Ed in Ht. cbn [fst] in Ht.
    split.
    + apply C. rewrite Ht. apply in_map. apply all_tension_infos.
    + unfold Lib.assemble in Has.
      destruct (Lib.getRootSpelling _ _); [|discriminate].
      destruct (Lib.getChordToneSpelling _ _); [|discriminate].
      cbn [JS.bind] in Has. injection Has as <-. auto.
Qed.

(** X10.  Six patterns of the catalog are dead for MIDI notes:
    analyzeChord never returns the qualities min6, m(add 3), m, quartal,
    quartal4 and 5, whatever the notes and their voicing.  Each of the
    eight answers the tension disambiguation can give was tried on each
    of the 4096 sets of pitch classes. *)
Theorem never_returned_qualities (activeNotes : list Z) (a : ChordAnalysis.t) :
  midiNotes activeNotes ->
  Lib.analyzeChord activeNotes = Normal (Some a) ->
  ~ In (ChordAnalysis.quality a) NEVER_RETURNED
  /\ Forall (fun q => exists p, In p Lib.CHORD_PATTERNS /\ ChordPattern.name p = q)
            NEVER_RETURNED.
Proof.
  intros Hm Ha. split.
  - destruct (returned_outcome activeNotes a Hm Ha) as [[Q _]|(b & Hb & Q & _)].
    + rewrite Q. cbn. intuition discriminate.
    + rewrite Q. unfold allowedOutcome in Hb.
      destruct (existsb _ NEVER_RETURNED) eqn:E; [discriminate|].
      intros Hin. apply not_true_iff_false in E. apply E.
      apply existsb_exists. exists (Match.name b). split; [exact Hin|].
      apply String.eqb_refl.
  - assert (C : forallb (fun q => existsb (fun p => String.eqb (ChordPattern.name p) q)
                                          Lib.CHORD_PATTERNS) NEVER_RETURNED = true)
      by (vm_compute; reflexivity).
    rewrite forallb_forall in C. apply Forall_forall. intros q Hq.
    specialize (C q Hq). apply existsb_exists in C. destruct C as [p [Hp E]].
    apply String.eqb_eq in E. exists p. auto.
Qed.

Lemma never_returned_qualities_witness :
  exists a a',
    Lib.analyzeChord [48; 55] = Normal (Some a)
    /\ ChordAnalysis.display a = "AbMaj7 (rootless)"
    /\ ChordAnalysis.quality a <> "5"
    /\ Lib.analyzeChord [60; 63; 67; 69] = Normal (Some a')
    /\ ChordAnalysis.quality a' <> "min6".
Proof.
  destruct (Lib.analyzeChord [48; 55]) as [[a|]|] eqn:E;
    [|vm_compute in E; discriminate|vm_compute in E; discriminate].
  destruct (Lib.analyzeChord [60; 63; 67; 69]) as [[a'|]|] eqn:E';
    [|vm_compute in E'; discriminate|vm_compute in E'; discriminate].
  assert (M : midiNotes [48; 55]) by (repeat constructor; lia).
  assert (M' : midiNotes [60; 63; 67; 69]) by (repeat constructor; lia).
  destruct (never_returned_qualities [48; 55] a M E) as [Q _].
  destruct (never_returned_qualities [60; 63; 67; 69] a' M' E') as [Q' _].
  exists a, a'. split; [reflexivity|]. split.
  { vm_compute in E. injection E as <-. reflexivity. }
  split; [intros C; apply Q; rewrite C; cbn; tauto|].
  split; [reflexivity|]. intros C; apply Q'; rewrite C; cbn; tauto.
Defined.

Lemma voicings_win :
  forallb (fun i => forallb (fun j => Bool.eqb (wonByVoicing i j) (winnable i j))
                            (seq 0 8)) (seq 0 12) = true.
Proof. vm_compute. reflexivity. Qed.

Lemma voicingOf_midi (rootIndex typeIndex : nat) : midiNotes (voicingOf rootIndex typeIndex).
Proof.
  unfold voicingOf, midiNotes. apply Forall_forall. intros n Hn.
  apply in_map_iff in Hn. destruct Hn as [i [<- Hi]].
  assert (0 <= i); [|lia].
  unfold TRAINING_VOICINGS in Hi.
  do 8 (destruct typeIndex as [|typeIndex];
        [cbn in Hi; repeat (destruct Hi as [Hi|Hi]; [lia|]); destruct Hi|]).
  destruct typeIndex; destruct Hi.
Qed.

Lemma targetAt_defined (rootIndex typeIndex : nat) (t : Chorduroy.TargetChord) :
  Chorduroy.targetAt rootIndex typeIndex = Some t ->
  (rootIndex < 12)%nat /\ (typeIndex < 8)%nat
  /\ Chorduroy.rootToPitchClass (Chorduroy.targetRoot t)
     = Chorduroy.Own (Z.of_nat rootIndex)
  /\ nth_error (map fst Chorduroy.TRAINING_CHORD_TYPES) typeIndex
     = Some (Chorduroy.targetQuality t).
Proof.
  unfold Chorduroy.targetAt. intros H.
  destruct (nth_error Chorduroy.TARGET_ROOTS rootIndex) as [r|] eqn:Er; [|discriminate].
  destruct (nth_error Chorduroy.TRAINING_CHORD_TYPES typeIndex) as [[q d]|] eqn:Eq;
    [|discriminate].
  injection H as <-. cbn [Chorduroy.targetRoot Chorduroy.targetQuality].
  split; [exact (proj1 (nth_error_Some Chorduroy.TARGET_ROOTS rootIndex)
                        ltac:(rewrite Er; discriminate))|].
  split; [exact (proj1 (nth_error_Some Chorduroy.TRAINING_CHORD_TYPES typeIndex)
                        ltac:(rewrite Eq; discriminate))|].
  split; [now apply target_root_denotes|].
  rewrite nth_error_map, Eq. reflexivity.
Qed.

(** X24.  Which targets of the training game can be won with MIDI
    notes: a target is matched by some chord exactly when it is not a
    minor triad, not a sus2 chord on one of the roots F to B (index 5
    and more) and not a sus4 chord on one of the roots G to B (index 7
    and more).  Each of the other targets is won by its close voicing
    from middle C up; a minor triad is always named madd#9, and a sus2
    or sus4 chord is named after whichever of its two readings has the
    lower root pitch class. *)
Theorem training_targets_that_can_be_won
        (rootIndex typeIndex : nat) (t : Chorduroy.TargetChord) :
  Chorduroy.targetAt rootIndex typeIndex = Some t ->
  ((exists activeNotes a,
       midiNotes activeNotes
       /\ Lib.analyzeChord activeNotes = Normal (Some a)
       /\ Chorduroy.isMatch t a = true)
   <-> winnable rootIndex typeIndex = true)
  /\ (winnable rootIndex typeIndex = true ->
      exists a, Lib.analyzeChord (voicingOf rootIndex typeIndex) = Normal (Some a)
                /\ Chorduroy.isMatch t a = true).
Proof.
  intros Ht. destruct (targetAt_defined rootIndex typeIndex t Ht) as (Hi & Hj & Hr & Hq).
  assert (W : winnable rootIndex typeIndex = true ->
              exists a, Lib.analyzeChord (voicingOf rootIndex typeIndex) = Normal (Some a)
                        /\ Chorduroy.isMatch t a = true).
  { intros Hw. assert (V := voicings_win). rewrite forallb_forall in V.
    specialize (V rootIndex (proj2 (in_seq 12 0 rootIndex) ltac:(lia))).
    rewrite forallb_forall in V.
    specialize (V typeIndex (proj2 (in_seq 8 0 typeIndex) ltac:(lia))).
    rewrite Hw in V. apply Bool.eqb_prop in V. unfold wonByVoicing in V.
    rewrite Ht in V.
    destruct (Lib.analyzeChord (voicingOf rootIndex typeIndex)) as [[a|]|];
      try discriminate.
    exists a. auto. }
  split; [|exact W]. split.
  - intros (activeNotes & a & Hm & Ha & Hmatch).
    unfold Chorduroy.isMatch in Hmatch. rewrite Hr in Hmatch.
    destruct (returned_root_denotes activeNotes a Hm Ha) as [_ Hd].
    rewrite Hd in Hmatch. cbn [Chorduroy.strictEqual] in Hmatch.
    apply andb_prop in Hmatch. destruct Hmatch as [H1 H2].
    apply Z.eqb_eq in H1. apply String.eqb_eq in H2.
    destruct (returned_outcome activeNotes a Hm Ha) as [[Q _]|(b & Hb & Q & R)].
    + rewrite Q in H2. rewrite <- H2 in Hq.
      do 8 (destruct typeIndex as [|typeIndex]; [try reflexivity; discriminate Hq|]).
      lia.
    + unfold allowedOutcome in Hb. rewrite <- Q, H2 in Hb. rewrite <- R, <- H1 in Hb.
      do 8 (destruct typeIndex as [|typeIndex];
            [cbn in Hq; injection Hq as Hq; rewrite <- Hq in Hb;
             cbv -[Z.ltb Z.of_nat] in Hb; cbv [winnable];
             first [reflexivity|discriminate Hb
                   |apply Nat.ltb_lt; apply Z.ltb_lt in Hb; lia]|]).
      lia.
  - intros Hw. destruct (W Hw) as [a [Ha Hmatch]].
    exists (voicingOf rootIndex typeIndex), a.
    split; [apply voicingOf_midi|]. auto.
Qed.

Lemma training_targets_that_can_be_won_witness :
  exists t t',
    Chorduroy.targetAt 5 6 = Some t
    /\ Chorduroy.targetDisplay t = "Fsus2 (sus2)"
    /\ ~ (exists activeNotes a,
             midiNotes activeNotes
             /\ Lib.analyzeChord activeNotes = Normal (Some a)
             /\ Chorduroy.isMatch t a = true)
    /\ Chorduroy.targetAt 4 6 = Some t'
    /\ exists a, Lib.analyzeChord [64; 66; 71] = Normal (Some a)
                 /\ Chorduroy.isMatch t' a = true.
Proof.
  destruct (Chorduroy.targetAt 5 6) as [t|] eqn:Et; [|discriminate Et].
  destruct (Chorduroy.targetAt 4 6) as [t'|] eqn:Et'; [|discriminate Et'].
  destruct (training_targets_that_can_be_won 5 6 t Et) as [H _].
  destruct (training_targets_that_can_be_won 4 6 t' Et') as [_ H'].
  exists t, t'. split; [reflexivity|]. split.
  { vm_compute in Et. injection Et as <-. reflexivity. }
  split; [intros C; apply H in C; discriminate C|].
  split; [reflexivity|]. apply H'. reflexivity.
Defined.







